(** * scvelo: the [Velocity] estimator and the [velocity] driver

    A shallow embedding of [scvelo/tools/velocity.py], and further down of
    [scvelo/preprocessing/utils.py].

    - numpy arrays are lists (a matrix is the list of its rows, one row per
      cell, one entry per gene); the arithmetic on their entries is kept
      abstract behind the class [Float], so that every statement holds for
      any arithmetic, floating point included;
    - an [AnnData] dataset is a record of its names, layers and annotation
      tables; datasets live in a store, because the driver works either on the
      caller's object or on a copy of it;
    - Python exceptions are results [Raise e]; a computation that touches the
      store is a function from the state to a result and the state reached,
      which is the state a caller sees when an exception escapes;
    - the functions the module imports from the rest of the package
      ([solve_cov], [solve2_inv], [solve2_mle], [R_squared], [moments],
      [second_order_moments]) are parameters, bundled in [Collaborators]. *)

From Stdlib Require Import QArith.
From stdpp Require Import gmap strings list fin_maps.

Local Open Scope string_scope.

(** ** Exceptions and fallible values *)

Inductive Exn : Type :=
  | KeyError (key : string)
  | ValueError (msg : string)
  | IndexError (msg : string)
  | TypeError (msg : string)
  | OtherError (msg : string).

Inductive result (A : Type) : Type :=
  | Ok (a : A)
  | Raise (e : Exn).
Arguments Ok {A} a.
Arguments Raise {A} e.

#[global] Instance result_ret : MRet result := fun A a => Ok a.
#[global] Instance result_bind : MBind result := fun A B f m =>
  match m with
  | Ok a => f a
  | Raise e => Raise e
  end.

(** ** Numbers

    What the code needs of the entries of its arrays.  [fgt_01 x] is the test
    [x > .01]; [feqb] is the equality by which [set(...)] identifies two
    entries; [fmean] and [fstd] are numpy's reductions [mean] and [std] of one
    column.  The two laws say that [0.0] and [1.0] are equal to themselves;
    nothing is asked of other values (a NaN differs from itself). *)

Class Float (R : Type) : Type := {
  fzero : R;
  fone : R;
  ftwo : R;
  fadd : R -> R -> R;
  fsub : R -> R -> R;
  fmul : R -> R -> R;
  fsquare : R -> R;
  fgt_01 : R -> bool;
  feqb : R -> R -> bool;
  fmean : list R -> R;
  fstd : list R -> R;
  feqb_zero : feqb fzero fzero = true;
  feqb_one : feqb fone fone = true
}.

(** ** Python's [set] and [len(set(x)) > 1] *)

Section PySet.
Context {A : Type} (eqb : A -> A -> bool).

Definition set_add (s : list A) (x : A) : list A :=
  if existsb (fun y => eqb y x) s then s else s ++ [x].

Definition py_set (l : list A) : list A := fold_left set_add l [].

(** [len(set(l)) > 1] *)
Definition several_values (l : list A) : bool :=
  Nat.ltb 1 (length (py_set l)).
End PySet.

(** ** numpy on lists

    Shapes are checked the way numpy checks them, with one restriction: an
    axis of length one is not stretched (the arrays the collaborators return
    have one entry per gene, so no operand here is meant to be broadcast along
    a gene or cell axis); a mismatch is the [ValueError] or [IndexError] numpy
    raises.  A matrix without rows has no columns either. *)

Definition broadcast_error : Exn :=
  ValueError "operands could not be broadcast together".
Definition mask_error : Exn :=
  IndexError "boolean index did not match indexed array".
Definition assign_error : Exn :=
  ValueError "cannot assign input values to the output values where the mask is true".

Section Numpy.
Context {A : Type}.

(** the number of entries a boolean index selects *)
Fixpoint count_true (idx : list bool) : nat :=
  match idx with
  | [] => 0
  | b :: idx' => if b then S (count_true idx') else count_true idx'
  end.

(** [x[idx]] for a boolean [idx], unchecked *)
Fixpoint mask_select (idx : list bool) (l : list A) : list A :=
  match idx, l with
  | b :: idx', x :: l' =>
      if b then x :: mask_select idx' l' else mask_select idx' l'
  | _, _ => []
  end.

(** [x[idx]] for a boolean [idx] *)
Definition np_mask (idx : list bool) (l : list A) : result (list A) :=
  if Nat.eqb (length idx) (length l) then Ok (mask_select idx l)
  else Raise mask_error.

(** the array [x] after [x[idx] = vals], unchecked *)
Fixpoint mask_scatter (idx : list bool) (l vals : list A) : list A :=
  match idx, l with
  | b :: idx', x :: l' =>
      if b then
        match vals with
        | v :: vals' => v :: mask_scatter idx' l' vals'
        | [] => x :: mask_scatter idx' l' []
        end
      else x :: mask_scatter idx' l' vals
  | _, _ => l
  end.

(** the array [x] after [x[idx] = vals] *)
Definition np_mask_assign (idx : list bool) (l vals : list A) : result (list A) :=
  if Nat.eqb (length idx) (length l) then
    if Nat.eqb (count_true idx) (length vals) then Ok (mask_scatter idx l vals)
    else Raise assign_error
  else Raise mask_error.

(** [M[:, idx]] *)
Definition np_mask_cols (idx : list bool) (M : list (list A)) : result (list (list A)) :=
  mapM (np_mask idx) M.
End Numpy.

Section NumpyZip.
Context {A B C : Type} (f : A -> B -> C).

(** an elementwise operation on two vectors *)
Definition np_zip (a : list A) (b : list B) : result (list C) :=
  if Nat.eqb (length a) (length b) then Ok (zip_with f a b)
  else Raise broadcast_error.

(** an elementwise operation on two matrices *)
Definition np_zip2 (a : list (list A)) (b : list (list B)) : result (list (list C)) :=
  if Nat.eqb (length a) (length b) then
    mapM (fun ab => np_zip ab.1 ab.2) (zip a b)
  else Raise broadcast_error.

(** an elementwise operation on a vector and each row of a matrix *)
Definition np_zip_rows (v : list A) (m : list (list B)) : result (list (list C)) :=
  mapM (np_zip v) m.

(** an elementwise operation on each row of a matrix and a vector *)
Definition np_rows_zip (m : list (list A)) (v : list B) : result (list (list C)) :=
  mapM (fun row => np_zip row v) m.
End NumpyZip.

(** the entry of a matrix at row [i] and column [j] *)
Definition entry {A : Type} (M : list (list A)) (i j : nat) : option A :=
  row ← M !! i; row !! j.

(** ** The development proper, over any arithmetic *)

Section Scvelo.
Context {R : Type} {F : Float R}.

#[local] Abbreviation Vec := (list R) (only parsing).
#[local] Abbreviation Matrix := (list (list R)) (only parsing).

(** [M.shape] *)
Definition shape {A : Type} (M : list (list A)) : nat * nat :=
  (length M, match M with [] => 0 | row :: _ => length row end).

(** [np.zeros(n)], [np.ones(n)], [np.zeros((n, m))] *)
Definition np_zeros (n : nat) : Vec := replicate n fzero.
Definition np_ones {A : Type} (one : A) (n : nat) : list A := replicate n one.
Definition np_zeros2 (sh : nat * nat) : Matrix := replicate sh.1 (np_zeros sh.2).

(** [2 * M] and [M ** 2] *)
Definition twice (M : Matrix) : Matrix := map (map (fmul ftwo)) M.
Definition twice_vec (v : Vec) : Vec := map (fmul ftwo) v.
Definition squared (M : Matrix) : Matrix := map (map fsquare) M.

(** a reduction along axis 0: [M.mean(0)] is [np_axis0 fmean M] *)
Definition column (j : nat) (M : Matrix) : Vec := omap (fun row => row !! j) M.
Definition np_axis0 (f : list R -> R) (M : Matrix) : Vec :=
  map (fun j => f (column j M)) (seq 0 (shape M).2).

(** [M[:, idx] = vals], on a matrix *)
Definition np_mask_assign_cols (idx : list bool) (M vals : Matrix) : result Matrix :=
  if Nat.eqb (length M) (length vals) then
    mapM (fun rv => np_mask_assign idx rv.1 rv.2) (zip M vals)
  else Raise assign_error.

(** [M[rows] = vals], on a matrix: the rows written keep their width *)
Definition np_mask_assign_rows (rows : list bool) (M vals : Matrix) : result Matrix :=
  if forallb (fun v => Nat.eqb (length v) (shape M).2) vals then
    np_mask_assign rows M vals
  else Raise assign_error.

(** ** The dataset

    A layer is an array that is sparse or dense; [.A] gives its entries.  A
    column of the gene annotation table holds numbers, booleans or text.
    Of an [AnnData] object the record keeps what this module reads and
    writes: the names of the cells and of the genes (they give [shape]),
    the layers, and the tables [obs] and [var]. *)

Record Array2 : Type := { issparse : bool; A_ : Matrix }.

Definition dense (M : Matrix) : Array2 := {| issparse := false; A_ := M |}.

Inductive VarCol : Type :=
  | FloatCol (v : list R)
  | BoolCol (v : list bool)
  | StrCol (v : list string).

Record AnnData : Type := {
  obs_names : list string;
  var_names : list string;
  layers : gmap string Array2;
  obs : gmap string (list string);
  var : gmap string VarCol
}.

(** [adata.shape] *)
Definition adata_shape (a : AnnData) : nat * nat :=
  (length (obs_names a), length (var_names a)).

Definition array_cols (idx : list bool) (x : Array2) : Array2 :=
  {| issparse := issparse x; A_ := map (mask_select idx) (A_ x) |}.
Definition array_rows (rows : list bool) (x : Array2) : Array2 :=
  {| issparse := issparse x; A_ := mask_select rows (A_ x) |}.
Definition varcol_select (idx : list bool) (c : VarCol) : VarCol :=
  match c with
  | FloatCol v => FloatCol (mask_select idx v)
  | BoolCol v => BoolCol (mask_select idx v)
  | StrCol v => StrCol (mask_select idx v)
  end.

(** the content of the view [adata[:, idx]], which is also what
    [adata._inplace_subset_var(idx)] leaves in [adata] *)
Definition take_cols (idx : list bool) (a : AnnData) : AnnData :=
  {| obs_names := obs_names a;
     var_names := mask_select idx (var_names a);
     layers := array_cols idx <$> layers a;
     obs := obs a;
     var := varcol_select idx <$> var a |}.

(** the content of the view [adata[groups]] *)
Definition take_rows (rows : list bool) (a : AnnData) : AnnData :=
  {| obs_names := mask_select rows (obs_names a);
     var_names := var_names a;
     layers := array_rows rows <$> layers a;
     obs := mask_select rows <$> obs a;
     var := var a |}.

Definition set_layer (key : string) (x : Array2) (a : AnnData) : AnnData :=
  {| obs_names := obs_names a; var_names := var_names a;
     layers := <[key := x]> (layers a); obs := obs a; var := var a |}.

Definition set_var (key : string) (c : VarCol) (a : AnnData) : AnnData :=
  {| obs_names := obs_names a; var_names := var_names a;
     layers := layers a; obs := obs a; var := <[key := c]> (var a) |}.

(** ** The store, the log and the monad

    [heap] maps a location to the object stored there and [next] is the
    first free location.  A dataset is changed by [perform] alone, which
    applies an [Effect] to an object and logs it; [trace] is the log, in
    program order, of these effects and of the calls of the fitting
    functions and of [moments]. *)

Definition loc : Type := nat.

Inductive Fn : Type :=
  | f_moments | f_second_order_moments
  | f_solve_cov | f_solve2_inv | f_solve2_mle | f_R_squared
  | f_compute_deterministic | f_compute_stochastic.

(** What the driver does to a dataset: [adata.layers[key] = x];
    [adata.layers[key][groups] = ...], after which the layer is [x];
    [adata.var[key] = c]; [adata._inplace_subset_var(idx)]; and the layers
    [Ms] and [Mu] that [moments(adata)] populates. *)
Inductive Effect : Type :=
  | SetLayer (key : string) (x : Array2)
  | SetLayerRows (key : string) (x : Array2)
  | SetVar (key : string) (c : VarCol)
  | SubsetVar (idx : list bool)
  | Moments (Ms Mu : Matrix).

Definition apply_effect (e : Effect) (a : AnnData) : AnnData :=
  match e with
  | SetLayer key x => set_layer key x a
  | SetLayerRows key x => set_layer key x a
  | SetVar key c => set_var key c a
  | SubsetVar idx => take_cols idx a
  | Moments Ms Mu => set_layer "Mu" (dense Mu) (set_layer "Ms" (dense Ms) a)
  end.

Inductive Event : Type :=
  | EvCall (f : Fn)
  | EvEffect (l : loc) (e : Effect).

Record State : Type := {
  heap : loc -> AnnData;
  next : loc;
  trace : list Event
}.

Definition M (A : Type) : Type := State -> result A * State.

#[global] Instance M_ret : MRet M := fun A a s => (Ok a, s).
#[global] Instance M_bind : MBind M := fun A B f m s =>
  match m s with
  | (Ok a, s') => f a s'
  | (Raise e, s') => (Raise e, s')
  end.

Definition raise {A : Type} (e : Exn) : M A := fun s => (Raise e, s).

Definition lift {A : Type} (r : result A) : M A := fun s => (r, s).

Definition log (e : Event) : M unit := fun s =>
  (Ok tt, {| heap := heap s; next := next s; trace := trace s ++ [e] |}).

Definition load (l : loc) : M AnnData := fun s => (Ok (heap s l), s).

Definition perform (l : loc) (e : Effect) : M unit := fun s =>
  (Ok tt, {| heap := fun l' => if Nat.eqb l' l then apply_effect e (heap s l) else heap s l';
             next := next s; trace := trace s ++ [EvEffect l e] |}).

(** [data.copy()]: a new object with the same content *)
Definition AnnData_copy (l : loc) : M loc := fun s =>
  (Ok (next s), {| heap := fun l' => if Nat.eqb l' (next s) then heap s l else heap s l';
                   next := S (next s); trace := trace s |}).

(** the dataset a log leaves, from the dataset it started with *)
Definition replay (t : list Event) (a : AnnData) : AnnData :=
  fold_left (fun a e => match e with
                        | EvEffect _ eff => apply_effect eff a
                        | EvCall _ => a
                        end) t a.

(** the gene masks by which a log narrows the dataset, in order *)
Definition masks (t : list Event) : list (list bool) :=
  omap (fun e => match e with
                 | EvEffect _ (SubsetVar idx) => Some idx
                 | _ => None
                 end) t.

(** a call of a fitting function: any function logged but [moments] *)
Definition is_fit_call (e : Event) : bool :=
  match e with
  | EvCall f_moments => false
  | EvCall _ => true
  | EvEffect _ _ => false
  end.

(** a write of a layer or of an annotation column *)
Definition is_result_write (e : Event) : bool :=
  match e with
  | EvEffect _ (SetLayer _ _ | SetLayerRows _ _ | SetVar _ _) => true
  | _ => false
  end.

(** a call of a collaborator *)
Definition call {A : Type} (f : Fn) (r : result A) : M A :=
  log (EvCall f);; lift r.

(** A dataset the estimator holds: an object of the store, or a view
    [adata[groups]] of one, which reads through to the object. *)
Inductive Ref : Type :=
  | RObj (l : loc)
  | RRows (l : loc) (rows : list bool).

Definition deref (r : Ref) : M AnnData :=
  match r with
  | RObj l => load l
  | RRows l rows => a ← load l; mret (take_rows rows a)
  end.

(** [adata.layers[key]] *)
Definition get_layer (key : string) (a : AnnData) : result Array2 :=
  match layers a !! key with
  | Some x => Ok x
  | None => Raise (KeyError key)
  end.

(** [adata._inplace_subset_var(idx)] *)
Definition inplace_subset_var (l : loc) (idx : list bool) : M unit :=
  a ← load l;
  if Nat.eqb (length idx) (length (var_names a)) then perform l (SubsetVar idx)
  else raise mask_error.

(** ** The collaborators

    The functions [velocity.py] imports from the rest of the package.  Each
    may raise.  [solve_cov] returns [(offset, gamma)]; the two-parameter
    solvers return [(offset, offset2, gamma)]; [second_order_moments]
    returns [(Mss, Mus)]. *)

Record Collaborators : Type := {
  solve_cov : Matrix -> Matrix -> bool -> result (Vec * Vec);
  solve2_inv : Matrix -> Matrix -> Matrix -> Matrix -> Vec -> Vec -> bool -> bool ->
               result (Vec * Vec * Vec);
  solve2_mle : Matrix -> Matrix -> Matrix -> Matrix -> bool -> bool ->
               result (Vec * Vec * Vec);
  R_squared : Matrix -> Matrix -> result Vec;
  second_order_moments : AnnData -> result (Matrix * Matrix);
  (** Modelled from the spec: [moments(adata)] is not in the module; the
      spec gives it as [ensure_moments(dataset) -> None], whose side effect
      is to populate the two layers [Ms] and [Mu].  Here it returns the two
      matrices and the caller stores them. *)
  moments : AnnData -> result (Matrix * Matrix)
}.

Variable C : Collaborators.

(** ** class Velocity

    The fields carry the names of the attributes; the local variables of
    [compute_stochastic] that differ from an attribute by the missing
    [self.] are written with a trailing underscore ([Ms_] for [_Ms]). *)

Record Velocity : Type := {
  _adata : Ref;
  _Ms : Matrix;
  _Mu : Matrix;
  _residual : option Matrix;
  _residual2 : option Matrix;
  _offset : Vec;
  _offset2 : Vec;
  _gamma : Vec;
  _r2 : Vec;
  _beta : Vec;
  _velocity_genes : list bool;
  _subset : option (list bool)
}.

(** [x.A if issparse(x) else x] *)
Definition densify (x : Array2) : Matrix := if issparse x then A_ x else A_ x.

(** [Velocity.__init__] *)
Definition Velocity_init (adata : Ref) (Ms Mu : option Array2)
    (subset : option (list bool)) (residual : option Matrix) (use_raw : bool) : M Velocity :=
  a ← deref adata;
  Ms_ ← lift (if use_raw then get_layer "spliced" a
              else match Ms with None => get_layer "Ms" a | Some x => Ok x end);
  Mu_ ← lift (if use_raw then get_layer "unspliced" a
              else match Mu with None => get_layer "Mu" a | Some x => Ok x end);
  let Ms_ := densify Ms_ in
  let Mu_ := densify Mu_ in
  let '(n_obs, n_vars) := shape Ms_ in
  mret {| _adata := adata; _Ms := Ms_; _Mu := Mu_;
          _residual := residual; _residual2 := None;
          _offset := np_zeros n_vars; _offset2 := np_zeros n_vars;
          _gamma := np_zeros n_vars; _r2 := np_zeros n_vars;
          _beta := np_ones fone n_vars; _velocity_genes := np_ones true n_vars;
          _subset := subset |}.

(** [Mu - gamma * Ms], then [-= offset] if [fit_offset] *)
Definition first_order_residual (fit_offset : bool) (Ms Mu : Matrix) (offset gamma : Vec)
    : result Matrix :=
  gMs ← np_zip_rows fmul gamma Ms;
  residual ← np_zip2 fsub Mu gMs;
  if fit_offset then np_rows_zip fsub residual offset else Ok residual.

(** [Velocity.compute_deterministic] *)
Definition compute_deterministic (fit_offset : bool) (self : Velocity) : M Velocity :=
  log (EvCall f_compute_deterministic);;
  '(offset, gamma) ←
    match _subset self with
    | None => call f_solve_cov (solve_cov C (_Ms self) (_Mu self) fit_offset)
    | Some subset =>
        Ms_s ← lift (np_mask subset (_Ms self));
        Mu_s ← lift (np_mask subset (_Mu self));
        call f_solve_cov (solve_cov C Ms_s Mu_s fit_offset)
    end;
  residual ← lift (first_order_residual fit_offset (_Ms self) (_Mu self) offset gamma);
  total ← lift (np_rows_zip fsub (_Mu self) (np_axis0 fmean (_Mu self)));
  r2 ← call f_R_squared (R_squared C residual total);
  velocity_genes ← lift (np_zip andb (map fgt_01 r2) (map fgt_01 gamma));
  mret {| _adata := _adata self; _Ms := _Ms self; _Mu := _Mu self;
          _residual := Some residual; _residual2 := _residual2 self;
          _offset := offset; _offset2 := _offset2 self;
          _gamma := gamma; _r2 := r2;
          _beta := _beta self; _velocity_genes := velocity_genes;
          _subset := _subset self |}.

(** the correction formula of [compute_stochastic], lines 64 to 66:
    [(cov_us - 2 * _Ms * _Mu) - self._gamma[idx] * (var_ss - 2 * _Ms ** 2)],
    then [+= 2 * self._offset[idx] * _Ms] if [fit_offset] and
    [-= self._offset2[idx]] if [fit_offset2] *)
Definition second_order_residual (fit_offset fit_offset2 : bool) (idx : list bool)
    (Ms_ Mu_ var_ss cov_us : Matrix) (offset offset2 gamma : Vec) : result Matrix :=
  MsMu ← np_zip2 fmul (twice Ms_) Mu_;
  lhs ← np_zip2 fsub cov_us MsMu;
  gamma_idx ← np_mask idx gamma;
  inner ← np_zip2 fsub var_ss (twice (squared Ms_));
  rhs ← np_zip_rows fmul gamma_idx inner;
  residual2_ ← np_zip2 fsub lhs rhs;
  residual2_ ← (if fit_offset then
                  offset_idx ← np_mask idx offset;
                  oMs ← np_zip_rows fmul (twice_vec offset_idx) Ms_;
                  np_zip2 fadd residual2_ oMs
                else Ok residual2_);
  if fit_offset2 then
    offset2_idx ← np_mask idx offset2;
    np_rows_zip fsub residual2_ offset2_idx
  else Ok residual2_.

(** one entry of the second-order residual, from the entries of the
    operands at the same cell and gene *)
Definition residual2_entry (fit_offset fit_offset2 : bool)
    (ms mu vss cus o o2 g : R) : R :=
  let x := fsub (fsub cus (fmul (fmul ftwo ms) mu))
                (fmul g (fsub vss (fmul ftwo (fsquare ms)))) in
  let x := if fit_offset then fadd x (fmul (fmul ftwo o) ms) else x in
  if fit_offset2 then fsub x o2 else x.

(** [x] when it is not [None] *)
Definition not_none {A : Type} (x : option A) : result A :=
  match x with
  | Some a => Ok a
  | None => Raise (TypeError "'NoneType' object is not subscriptable")
  end.

(** [mode == 'bayes'] *)
Definition is_bayes (mode : option string) : bool :=
  match mode with Some m => String.eqb m "bayes" | None => false end.

(** [Velocity.compute_stochastic] *)
Definition compute_stochastic (fit_offset fit_offset2 : bool) (mode : option string)
    (self : Velocity) : M Velocity :=
  log (EvCall f_compute_stochastic);;
  self ← match _residual self with
         | None => compute_deterministic fit_offset self
         | Some _ => mret self
         end;
  let idx := _velocity_genes self in
  let is_subset := several_values Bool.eqb idx in
  a ← deref (_adata self);
  let adata_ := if is_subset then take_cols idx a else a in
  Ms_ ← lift (if is_subset then np_mask_cols idx (_Ms self) else Ok (_Ms self));
  Mu_ ← lift (if is_subset then np_mask_cols idx (_Mu self) else Ok (_Mu self));
  residual_ ← lift (r ← not_none (_residual self);
                    if is_subset then np_mask_cols idx r else Ok r);
  '(Mss_, Mus_) ← call f_second_order_moments (second_order_moments C adata_);
  var_ss ← lift (np_zip2 fsub (twice Mss_) Ms_);
  cov_us ← lift (np_zip2 fadd (twice Mus_) Mu_);
  '(offset2_, gamma2_) ← call f_solve_cov (solve_cov C var_ss cov_us fit_offset2);
  let res_std := np_axis0 fstd residual_ in
  res2 ← lift (g2v ← np_zip_rows fmul gamma2_ var_ss;
               d ← np_zip2 fsub cov_us g2v;
               np_rows_zip fsub d offset2_);
  let res2_std := np_axis0 fstd res2 in
  '(o, o2, g) ←
    (if is_bayes mode
     then call f_solve2_mle (solve2_mle C Ms_ Mu_ Mus_ Mss_ fit_offset fit_offset2)
     else call f_solve2_inv
            (solve2_inv C Ms_ Mu_ var_ss cov_us res_std res2_std fit_offset fit_offset2));
  offset ← lift (np_mask_assign idx (_offset self) o);
  offset2 ← lift (np_mask_assign idx (_offset2 self) o2);
  gamma ← lift (np_mask_assign idx (_gamma self) g);
  residual ← lift (first_order_residual fit_offset (_Ms self) (_Mu self) offset gamma);
  residual2_ ← lift (second_order_residual fit_offset fit_offset2 idx Ms_ Mu_ var_ss cov_us
                       offset offset2 gamma);
  residual2 ← lift (if is_subset
                    then np_mask_assign_cols idx (np_zeros2 (shape (_Ms self))) residual2_
                    else Ok residual2_);
  mret {| _adata := _adata self; _Ms := _Ms self; _Mu := _Mu self;
          _residual := Some residual; _residual2 := Some residual2;
          _offset := offset; _offset2 := offset2;
          _gamma := gamma; _r2 := _r2 self;
          _beta := _beta self; _velocity_genes := _velocity_genes self;
          _subset := _subset self |}.

(** [Velocity.get_residuals], [get_pars], [get_pars_names] *)
Definition get_residuals (self : Velocity) : option Matrix * option Matrix :=
  (_residual self, _residual2 self).

Definition get_pars (self : Velocity) : list VarCol :=
  [FloatCol (_offset self); FloatCol (_offset2 self); FloatCol (_beta self);
   FloatCol (_gamma self); FloatCol (_r2 self); BoolCol (_velocity_genes self)].

Definition get_pars_names : list string :=
  ["_offset"; "_offset2"; "_beta"; "_gamma"; "_r2"; "_genes"].

(** ** The driver [velocity] *)

(** the argument [groups]: [None], one label, or a list or array of labels *)
Inductive Groups : Type :=
  | GNone
  | GStr (label : string)
  | GList (labels : list string).

(** [key in d.keys()] *)
Definition has_key {V : Type} (key : string) (d : gmap string V) : bool :=
  match d !! key with Some _ => true | None => false end.

(** [s in item], on strings: [s] occurs in [item] *)
Fixpoint str_in (s item : string) : bool :=
  String.prefix s item ||
  match item with
  | EmptyString => false
  | String _ rest => str_in s rest
  end.

(** line 139:
    [any([mode is not None and mode in item for item in ['stochastic', 'bayes', 'alpha']])] *)
Definition is_stochastic (mode : option string) : bool :=
  existsb (fun item => match mode with Some m => str_in m item | None => false end)
          ["stochastic"; "bayes"; "alpha"].

(** lines 126 and 127: the annotation the groups are read from *)
Definition resolve_groupby (groupby : option string) (a : AnnData) : option string :=
  if match groupby with Some g => has_key g (obs a) | None => false end then groupby
  else if has_key "clusters" (obs a) then Some "clusters"
  else if has_key "louvain" (obs a) then Some "louvain"
  else None.

(** lines 124 to 130; the result is the row mask, or [None] *)
Definition resolve_groups (groups : Groups) (groupby : option string) (a : AnnData)
    : result (option (list bool)) :=
  let groups := match groups with GStr label => GList [label] | _ => groups end in
  match groups with
  | GList labels =>
      match resolve_groupby groupby a with
      | Some groupby =>
          match obs a !! groupby with
          | Some column => Ok (Some (map (fun key => bool_decide (key ∈ labels)) column))
          | None => Raise (KeyError groupby)
          end
      | None => Raise (ValueError "groupby attribute not valid.")
      end
  | _ => Ok None
  end.

(** [adata.layers[key] = value] *)
Definition set_layer_at (l : loc) (key : string) (value : option Matrix) : M unit :=
  match value with
  | Some m => perform l (SetLayer key (dense m))
  | None => raise (ValueError "value has to be an array")
  end.

(** [if key not in adata.layers.keys(): adata.layers[key] = np.zeros(adata.shape)] *)
Definition ensure_layer (l : loc) (key : string) : M unit :=
  a ← load l;
  if has_key key (layers a) then mret tt
  else set_layer_at l key (Some (np_zeros2 (adata_shape a))).

(** [adata.layers[key][groups] = value] *)
Definition set_layer_rows_at (l : loc) (key : string) (groups : list bool)
    (value : option Matrix) : M unit :=
  a ← load l;
  x ← lift (get_layer key a);
  v ← lift (not_none value);
  rows ← lift (np_mask_assign_rows groups (A_ x) v);
  perform l (SetLayerRows key {| issparse := issparse x; A_ := rows |}).

(** [adata.var[key] = value] *)
Definition set_var_at (l : loc) (key : string) (value : VarCol) : M unit :=
  perform l (SetVar key value).

(** [len(set(par)) > 1] for a parameter vector *)
Definition several_values_col (c : VarCol) : bool :=
  match c with
  | FloatCol v => several_values feqb v
  | BoolCol v => several_values Bool.eqb v
  | StrCol v => several_values String.eqb v
  end.

Fixpoint for_each {A : Type} (l : list A) (body : A -> M unit) : M unit :=
  match l with
  | [] => mret tt
  | x :: l' => body x;; for_each l' body
  end.

(** [enumerate(l)] *)
Definition enumerate {A : Type} (l : list A) : list (nat * A) := imap (fun i x => (i, x)) l.

(** lines 160 to 162 *)
Definition write_pars (adata : loc) (vkey : string) (velo : Velocity) : M unit :=
  let pars := get_pars velo in
  for_each (enumerate get_pars_names) (fun '(i, key) =>
    match pars !! i with
    | Some par => if several_values_col par then set_var_at adata (vkey +:+ key) par
                  else mret tt
    | None => raise (IndexError "tuple index out of range")
    end).

(** lines 140 to 152: the stochastic branch *)
Definition stochastic_branch (adata : loc) (adata_ : Ref) (groups : option (list bool))
    (vkey : string) (mode : option string) (fit_offset fit_offset2 filter_genes : bool)
    (subset_for_fitting : option (list bool)) (velo : Velocity) : M Velocity :=
  let vkey2 := "variance_" +:+ vkey in
  velo ← (if filter_genes && several_values Bool.eqb (_velocity_genes velo) then
            let idx := _velocity_genes velo in
            inplace_subset_var adata idx;;
            residual ← lift (r ← not_none (_residual velo); np_mask_cols idx r);
            Velocity_init adata_ None None subset_for_fitting (Some residual) false
          else mret velo);
  velo ← compute_stochastic fit_offset fit_offset2 mode velo;
  match groups with
  | None =>
      let '(residual, residual2) := get_residuals velo in
      set_layer_at adata vkey residual;;
      set_layer_at adata vkey2 residual2
  | Some groups =>
      ensure_layer adata vkey;;
      ensure_layer adata vkey2;;
      let '(residual, residual2) := get_residuals velo in
      set_layer_rows_at adata vkey groups residual;;
      set_layer_rows_at adata vkey2 groups residual2
  end;;
  mret velo.

(** lines 154 to 158: the deterministic branch *)
Definition deterministic_branch (adata : loc) (groups : option (list bool))
    (vkey : string) (velo : Velocity) : M Velocity :=
  match groups with
  | None =>
      let '(residual, _) := get_residuals velo in
      set_layer_at adata vkey residual
  | Some groups =>
      ensure_layer adata vkey;;
      let '(residual, _) := get_residuals velo in
      set_layer_rows_at adata vkey groups residual
  end;;
  mret velo.

(** line 122 *)
Definition ensure_moments (adata : loc) (use_raw : bool) : M unit :=
  a ← load adata;
  if negb use_raw && negb (has_key "Ms" (layers a)) then
    '(Ms, Mu) ← call f_moments (moments C a);
    perform adata (Moments Ms Mu)
  else mret tt.

(** lines 122 to 170, on the object [adata] that line 121 chose; the
    result is the estimator the call ends with *)
Definition velocity_on (adata : loc) (vkey : string) (mode : option string)
    (fit_offset fit_offset2 filter_genes : bool) (groups : Groups) (groupby : option string)
    (subset_for_fitting : option (list bool)) (use_raw : bool) : M Velocity :=
  ensure_moments adata use_raw;;
  a ← load adata;
  groups ← lift (resolve_groups groups groupby a);
  let adata_ := match groups with None => RObj adata | Some g => RRows adata g end in
  velo ← Velocity_init adata_ None None subset_for_fitting None use_raw;
  velo ← compute_deterministic fit_offset velo;
  let stochastic := is_stochastic mode in
  velo ← (if stochastic
          then stochastic_branch adata adata_ groups vkey mode fit_offset fit_offset2
                 filter_genes subset_for_fitting velo
          else deterministic_branch adata groups vkey velo);
  write_pars adata vkey velo;;
  (if filter_genes && several_values Bool.eqb (_velocity_genes velo)
   then inplace_subset_var adata (_velocity_genes velo)
   else mret tt);;
  mret velo.

(** [velocity(data, vkey, mode, fit_offset, fit_offset2, filter_genes, groups,
    groupby, subset_for_fitting, use_raw, copy)]; the result is the location
    of the dataset returned, or [None].  [velocity_body] also hands out the
    estimator the call ends with. *)
Definition velocity_body (data : loc) (vkey : string) (mode : option string)
    (fit_offset fit_offset2 filter_genes : bool) (groups : Groups) (groupby : option string)
    (subset_for_fitting : option (list bool)) (use_raw copy : bool)
    : M (option loc * Velocity) :=
  adata ← (if copy then AnnData_copy data else mret data);
  velo ← velocity_on adata vkey mode fit_offset fit_offset2 filter_genes groups groupby
           subset_for_fitting use_raw;
  mret (if copy then Some adata else None, velo).

Definition velocity (data : loc) (vkey : string) (mode : option string)
    (fit_offset fit_offset2 filter_genes : bool) (groups : Groups) (groupby : option string)
    (subset_for_fitting : option (list bool)) (use_raw copy : bool) : M (option loc) :=
  r ← velocity_body data vkey mode fit_offset fit_offset2 filter_genes groups groupby
        subset_for_fitting use_raw copy;
  mret r.1.
End Scvelo.

Abbreviation Vec R := (list R) (only parsing).
Abbreviation Matrix R := (list (list R)) (only parsing).
Arguments Array2 R : clear implicits.
Arguments VarCol R : clear implicits.
Arguments M R A : clear implicits.
Arguments Effect R : clear implicits.
Arguments Event R : clear implicits.
Arguments Collaborators R : clear implicits.
Arguments AnnData R : clear implicits.
Arguments Velocity R : clear implicits.
Arguments State R : clear implicits.

(** ** A rational arithmetic and reference collaborators

    Exact rational arithmetic is one instance of [Float]; the standard
    deviation is rounded down to three decimals.  The collaborators below
    follow the spec's account of them on it; they serve to run the driver on
    concrete datasets. *)

Module Rational.
Definition add (x y : Q) : Q := Qred (x + y).
Definition sub (x y : Q) : Q := Qred (x - y).
Definition mul (x y : Q) : Q := Qred (x * y).
Definition div (x y : Q) : Q := Qred (x / y).
Definition sum (l : list Q) : Q := fold_right add 0%Q l.
Definition mean (l : list Q) : Q := div (sum l) (inject_Z (Z.of_nat (length l))).
Definition sqrt_down (x : Q) : Q :=
  Qred (Z.sqrt (Qnum x * Zpos (Qden x) * 1000000) # (Qden x * 1000)).
Definition std (l : list Q) : Q :=
  let m := mean l in
  sqrt_down (mean (map (fun x => mul (sub x m) (sub x m)) l)).

#[global] Instance Q_Float : Float Q := {|
  fzero := 0%Q; fone := 1%Q; ftwo := 2%Q;
  fadd := add; fsub := sub; fmul := mul;
  fsquare := fun x => mul x x;
  fgt_01 := fun x => negb (Qle_bool x (1 # 100));
  feqb := Qeq_bool;
  fmean := mean; fstd := std;
  feqb_zero := eq_refl; feqb_one := eq_refl
|}.

(** per column: [sum(x * y)] *)
Definition prod_sum (x y : list Q) : Q := sum (zip_with mul x y).

Definition columns (M : list (list Q)) : list (list Q) :=
  map (fun j => column j M) (seq 0 (shape M).2).

(** slope [cov(X, Y) / var(X)] per column, zero where [var(X)] is zero;
    intercept [mean(Y) - gamma * mean(X)] if it is fitted, else zero *)
Definition solve_cov_col (fit_offset : bool) (x y : list Q) : Q * Q :=
  if fit_offset then
    let mx := mean x in
    let my := mean y in
    let cxy := sub (mean (zip_with mul x y)) (mul mx my) in
    let cxx := sub (mean (zip_with mul x x)) (mul mx mx) in
    let gamma := if Qeq_bool cxx 0 then 0%Q else div cxy cxx in
    (sub my (mul gamma mx), gamma)
  else
    let sxx := prod_sum x x in
    (0%Q, if Qeq_bool sxx 0 then 0%Q else div (prod_sum x y) sxx).

Definition solve_cov (X Y : list (list Q)) (fit_offset : bool)
    : result (list Q * list Q) :=
  if bool_decide (shape X = shape Y) then
    let r := zip_with (solve_cov_col fit_offset) (columns X) (columns Y) in
    Ok (map fst r, map snd r)
  else Raise broadcast_error.

(** [1 - sum(residual ** 2) / sum(total ** 2)] per column, zero where
    the total is zero *)
Definition R_squared (residual total : list (list Q)) : result (list Q) :=
  if bool_decide (shape residual = shape total) then
    Ok (zip_with (fun r t => let st := prod_sum t t in
                             if Qeq_bool st 0 then 0%Q
                             else sub 1 (div (prod_sum r r) st))
                 (columns residual) (columns total))
  else Raise broadcast_error.

(** the second moments of a dataset whose neighbourhoods are single cells *)
Definition second_order_moments (a : AnnData Q) : result (list (list Q) * list (list Q)) :=
  Ms ← get_layer "Ms" a;
  Mu ← get_layer "Mu" a;
  Mss ← np_zip2 mul (A_ Ms) (A_ Ms);
  Mus ← np_zip2 mul (A_ Ms) (A_ Mu);
  Ok (Mss, Mus).

(** the first moments of a dataset whose neighbourhoods are single cells *)
Definition moments (a : AnnData Q) : result (list (list Q) * list (list Q)) :=
  s ← get_layer "spliced" a;
  u ← get_layer "unspliced" a;
  Ok (A_ s, A_ u).

(** the two-parameter solvers, reduced to the first-order fit through the
    origin: the second-order statistics get weight zero *)
Definition solve2_inv (Ms Mu var_ss cov_us : list (list Q)) (res_std res2_std : list Q)
    (fit_offset fit_offset2 : bool) : result (list Q * list Q * list Q) :=
  '(offset, gamma) ← solve_cov Ms Mu fit_offset;
  Ok (offset, map (fun _ => 0%Q) gamma, gamma).

Definition solve2_mle (Ms Mu Mus Mss : list (list Q)) (fit_offset fit_offset2 : bool)
    : result (list Q * list Q * list Q) :=
  '(offset, gamma) ← solve_cov Ms Mu fit_offset;
  Ok (offset, map (fun _ => 0%Q) gamma, gamma).

Definition collaborators : Collaborators Q :=
  @Build_Collaborators Q solve_cov solve2_inv solve2_mle R_squared
    second_order_moments moments.
End Rational.

(** ** Relations between the state before and after a run *)

Section Relations.
Context {R : Type}.

(** every run of [m] relates the state it starts in to the state it ends in,
    whether it returns or raises *)
Definition steps {A : Type} (Rel : relation (State R)) (m : M R A) : Prop :=
  forall s r s', m s = (r, s') -> Rel s s'.

(** the runs that change the object at [l] only, by the effects they log,
    and log only events [P] allows *)
Definition run (P : Event R -> Prop) (l : loc) : relation (State R) := fun s s' =>
  next s' = next s /\
  (forall l', l' <> l -> heap s' l' = heap s l') /\
  exists t, trace s' = (trace s ++ t)%list /\ Forall P t /\ heap s' l = replay t (heap s l).
End Relations.

(** ** Logs *)

Section LogRelations.
Context {R : Type}.
(** one relation after another *)
Definition seq_rel {S : Type} (A B : relation S) : relation S :=
  fun s s' => exists s1, A s s1 /\ B s1 s'.

(** a layer or an annotation column after the narrowings of a log *)
Definition narrow_layer (ms : list (list bool)) (x : Array2 R) : Array2 R :=
  fold_left (fun x idx => array_cols idx x) ms x.
Definition narrow_var (ms : list (list bool)) (c : VarCol R) : VarCol R :=
  fold_left (fun c idx => varcol_select idx c) ms c.

(** the events that leave the layer [key], or the column [key] of the gene
    table, to the narrowings *)
Definition keeps_layer (key : string) (e : Event R) : Prop :=
  match e with
  | EvEffect _ (SetLayer k _ | SetLayerRows k _) => k <> key
  | EvEffect _ (Moments _ _) => key <> "Ms" /\ key <> "Mu"
  | _ => True
  end.
Definition keeps_var (key : string) (e : Event R) : Prop :=
  match e with
  | EvEffect _ (SetVar k _) => k <> key
  | _ => True
  end.

(** what a call in deterministic mode may log on the object [adata]: calls
    of [moments] and of the functions of the deterministic stage, writes of
    the layer [vkey] alone, and any other effect *)
Definition deterministic_only (adata : loc) (vkey : string) (e : Event R) : Prop :=
  match e with
  | EvCall (f_moments | f_compute_deterministic | f_solve_cov | f_R_squared) => True
  | EvCall _ => False
  | EvEffect l (SetLayer k _ | SetLayerRows k _) => l = adata /\ k = vkey
  | EvEffect l _ => l = adata
  end.

Definition is_narrowing (e : Event R) : bool :=
  match e with
  | EvEffect _ (SubsetVar _) => true
  | _ => false
  end.

End LogRelations.

Section ParameterLog.
Context {R : Type} {F : Float R}.

Definition is_set_var (e : Event R) : bool :=
  match e with
  | EvEffect _ (SetVar _ _) => true
  | _ => false
  end.

(** the writes of lines 160 to 162, for the estimator [velo] *)
Definition pars_events (adata : loc) (vkey : string) (velo : Velocity R) : list (Event R) :=
  omap (fun kp : string * VarCol R =>
          if several_values_col kp.2
          then Some (EvEffect adata (SetVar (vkey +:+ kp.1) kp.2))
          else None)
       (zip get_pars_names (get_pars velo)).
End ParameterLog.

Section NarrowingLog.
Context {R : Type}.

(** a run of the deterministic stage *)
Definition is_deterministic_run (e : Event R) : bool :=
  match e with
  | EvCall f_compute_deterministic => true
  | _ => false
  end.

(** what the driver may log after it has narrowed the genes for the
    stochastic stage: no run of the deterministic stage, no narrowing and
    no write of the columns [key1] and [key2] of the gene table *)
Definition after_narrowing (key1 key2 : string) (e : Event R) : Prop :=
  is_deterministic_run e = false /\ is_narrowing e = false /\
  keeps_var key1 e /\ keeps_var key2 e.
(** a state in which the object at [l] has the layer [key] *)
Definition has_layer (l : loc) (key : string) (s : State R) : Prop :=
  is_Some (layers (heap s l) !! key).
End NarrowingLog.

(** ** Example datasets

    Small datasets on the rational arithmetic, the estimators and the calls of
    the driver the statements below are tried on. *)

Module Example.
Import Rational.

Definition q (z : Z) : Q := inject_Z z.

(** three cells, three genes; the second gene is not correlated *)
Definition spliced : list (list Q) := [[q 1; q 1; q 2]; [q 2; q 0; q 1]; [q 3; q 1; q 4]].
Definition unspliced : list (list Q) := [[q 2; q 0; q 2]; [q 4; q 1; q 1]; [q 7; q 0; q 5]].

(** a dataset with raw counts only *)
Definition raw : AnnData Q :=
  {| obs_names := ["c1"; "c2"; "c3"];
     var_names := ["g1"; "g2"; "g3"];
     layers := <["spliced" := dense spliced]> (<["unspliced" := dense unspliced]> ∅);
     obs := <["clusters" := ["A"; "B"; "A"]]> ∅;
     var := ∅ |}.

(** the same with its first moments *)
Definition smoothed : AnnData Q := apply_effect (Moments spliced unspliced) raw.

(** a dataset an earlier stochastic call left its variance layer in *)
Definition with_variance : AnnData Q :=
  apply_effect (SetLayer "variance_velocity" (dense spliced)) smoothed.

(** a dataset an earlier deterministic call left its fit quality in *)
Definition with_r2 : AnnData Q :=
  apply_effect (SetVar "velocity_r2" (FloatCol [q 1; q 0; q 1])) smoothed.



(** the store that holds [d] at location 0 *)
Definition state_of (d : AnnData Q) : State Q :=
  {| heap := fun _ => d; next := 1; trace := [] |}.

(** collaborators whose second-order moments are not available *)
Definition failing : Collaborators Q :=
  @Build_Collaborators Q solve_cov solve2_inv solve2_mle R_squared
    (fun _ => Raise (OtherError "second_order_moments")) moments.

Definition no_velocity : Velocity Q :=
  {| _adata := RObj 0; _Ms := []; _Mu := []; _residual := None; _residual2 := None;
     _offset := []; _offset2 := []; _gamma := []; _r2 := []; _beta := [];
     _velocity_genes := []; _subset := None |}.

Definition value {A : Type} (default : A) (r : result A * State Q) : A :=
  match r.1 with Ok a => a | Raise _ => default end.

(** an estimator on [smoothed]: constructed, after the deterministic stage,
    after the stochastic stage *)
Definition velo_init : Velocity Q :=
  Eval vm_compute in
    value no_velocity
      (Velocity_init (RObj 0) None None None None false (state_of smoothed)).
Definition velo_det : Velocity Q :=
  Eval vm_compute in
    value no_velocity (compute_deterministic collaborators false velo_init (state_of smoothed)).
Definition velo_sto : Velocity Q :=
  Eval vm_compute in
    value no_velocity
      (compute_stochastic collaborators false false (Some "stochastic") velo_det
         (state_of smoothed)).

(** an estimator on the raw counts of [raw], given two other matrices *)
Definition velo_raw : Velocity Q :=
  Eval vm_compute in
    value no_velocity
      (Velocity_init (RObj 0) (Some (dense [[q 9]])) (Some (dense [[q 9]])) None None true
         (state_of raw)).

(** calls of the driver on the dataset at location 0 *)
Definition call (C : Collaborators Q) (d : AnnData Q) (mode : option string)
    (filter_genes : bool) (groups : Groups) (copy : bool) :=
  velocity C 0 "velocity" mode false false filter_genes groups None None false copy
    (state_of d).
Definition call_body (C : Collaborators Q) (d : AnnData Q) (mode : option string)
    (filter_genes : bool) (groups : Groups) (copy : bool) :=
  velocity_body C 0 "velocity" mode false false filter_genes groups None None false copy
    (state_of d).

(** a stochastic call with gene filtering whose second-order moments fail *)
Definition failed_out := call failing raw (Some "stochastic") true GNone false.
(** a deterministic call with gene filtering *)
Definition filtered_out := call collaborators with_variance None true GNone false.
(** a stochastic call with gene filtering after a deterministic call *)
Definition rebuilt_out := call_body collaborators with_r2 (Some "stochastic") true GNone false.
(** a stochastic call on a copy *)
Definition copy_out := call collaborators raw (Some "stochastic") false GNone true.
(** a deterministic call on the raw counts *)
Definition deterministic_out := call collaborators raw None false GNone false.
(** a stochastic call *)
Definition stochastic_out := call_body collaborators raw (Some "stochastic") false GNone false.
End Example.

(** ** Notions of the further statements

    What the statements about the estimator and the driver beyond the
    sections above are written with. *)

Local Open Scope list_scope.

Section Notions.
Context {R : Type}.

(** a call of a collaborator or of a method of the estimator *)
Definition is_call (e : Event R) : Prop :=
  match e with EvCall _ => True | EvEffect _ _ => False end.

(** the calls the deterministic stage logs when it returns, lines 27 to 32 *)
Definition deterministic_calls : list (Event R) :=
  [EvCall f_compute_deterministic; EvCall f_solve_cov; EvCall f_R_squared].

(** the calls the stochastic stage logs when it returns, lines 36 to 59;
    [fresh_estimator] says that the estimator had no residual yet *)
Definition stochastic_calls (fresh_estimator : bool) (mode : option string)
    : list (Event R) :=
  [EvCall f_compute_stochastic]
  ++ (if fresh_estimator
      then [EvCall f_compute_deterministic; EvCall f_solve_cov; EvCall f_R_squared]
      else [])
  ++ [EvCall f_second_order_moments; EvCall f_solve_cov;
      EvCall (if is_bayes mode then f_solve2_mle else f_solve2_inv)].

(** the content of the dataset an estimator holds *)
Definition content (s : State R) (adata : Ref) : AnnData R :=
  match adata with
  | RObj l => heap s l
  | RRows l rows => take_rows rows (heap s l)
  end.

(** the two-parameter solvers return one estimate per column of the [Ms]
    they are given *)
Definition solvers_per_gene (C : Collaborators R) : Prop :=
  (forall Ms Mu var_ss cov_us res_std res2_std fit_offset fit_offset2 o o2 g,
     solve2_inv C Ms Mu var_ss cov_us res_std res2_std fit_offset fit_offset2
     = Ok (o, o2, g) -> length o = (shape Ms).2) /\
  (forall Ms Mu Mus Mss fit_offset fit_offset2 o o2 g,
     solve2_mle C Ms Mu Mus Mss fit_offset fit_offset2 = Ok (o, o2, g) ->
     length o = (shape Ms).2).

(** the gene filtering that ends a call, lines 169 and 170, on a layer *)
Definition final_filter (filter_genes : bool) (velo : Velocity R) (x : Array2 R) : Array2 R :=
  if filter_genes && several_values Bool.eqb (_velocity_genes velo)
  then array_cols (_velocity_genes velo) x else x.

(** [new] is [old] with the rows [groups] selects replaced by [vals] *)
Definition rows_written (groups : list bool) (old new vals : Matrix R) : Prop :=
  length new = length groups /\ mask_select groups new = vals /\
  forall i, groups !! i = Some false -> new !! i = old !! i.
End Notions.

Section ArithmeticNotions.
Context {R : Type} {F : Float R}.

(** one entry of the first-order residual, lines 29 and 30, 61 and 62:
    [Mu - gamma * Ms], then [-= offset] if [fit_offset] *)
Definition residual_entry (fit_offset : bool) (ms mu o g : R) : R :=
  let x := fsub mu (fmul g ms) in
  if fit_offset then fsub x o else x.

(** the layer [key] as [adata.layers[key][groups] = ...] finds it: the layer
    of the dataset, or the zeros of lines 150, 151 and 157 *)
Definition layer_or_zeros (key : string) (a : AnnData R) : Matrix R :=
  match layers a !! key with
  | Some x => A_ x
  | None => np_zeros2 (adata_shape a)
  end.
End ArithmeticNotions.

(** * [scvelo/preprocessing/utils.py]

    The preprocessing functions see more of an [AnnData] object than the
    estimator does: the matrix [X] and the unstructured annotation [uns].
    [AnnDataFull] adds them to the record above.  The objects live in a
    store of their own, which also logs the calls of the functions the
    module imports. *)

(** what [filter_genes_u] needs of the entries of a layer: numpy's sum of
    one column, the test [x > 0] and the test [x >= n] against an integer
    threshold *)
Class Counts (R : Type) : Type := {
  fsum : list R -> R;
  fgt_0 : R -> bool;
  fge : R -> Z -> bool
}.

(** an argument that is a string or a collection of strings *)
Inductive Names : Type :=
  | NStr (s : string)
  | NList (l : list string).

(** [key in names]: a substring test on a string, membership otherwise *)
Definition name_in (key : string) (names : Names) : bool :=
  match names with
  | NStr s => str_in key s
  | NList l => bool_decide (key ∈ l)
  end.

(** [del d[key]] *)
Definition py_del {V : Type} (key : string) (d : gmap string V) : result (gmap string V) :=
  match d !! key with
  | Some _ => Ok (delete key d)
  | None => Raise (KeyError key)
  end.

(** [list(d.keys())] *)
Definition keys {V : Type} (d : gmap string V) : list string := (map_to_list d).*1.

(** a reduction along axis 0, to any type *)
Definition axis0 {A B : Type} (f : list A -> B) (M : list (list A)) : list B :=
  map (fun j => f (omap (fun row => row !! j) M)) (seq 0 (shape M).2).

(** the first [n] columns of a matrix *)
Definition columns_of {A : Type} (n : nat) (M : list (list A)) : list (list A) :=
  map (fun j => omap (fun row => row !! j) M) (seq 0 n).

(** a table after the loop of lines 47 and 48 has visited the keys [ks] *)
Definition del_keys {V : Type} (keep : Names) (ks : list string) (d : gmap string V)
    : gmap string V :=
  fold_left (fun d key => if name_in key keep then d else delete key d) ks d.

(** the calls the module makes of the functions it imports *)
Inductive Call : Type :=
  | c_filter_genes (min_counts min_cells : option Z)
  | c_normalize_per_cell
  | c_filter_genes_dispersion (n_top_genes : Z)
  | c_plot_filter_genes_dispersion
  | c_log1p
  | c_moments (n_neighbors n_pcs : Z).

Section Objects.
Context {R U : Type}.

Record AnnDataFull : Type := {
  base : AnnData R;
  X : Matrix R;
  uns : gmap string U
}.

Definition with_base (b : AnnData R) (a : AnnDataFull) : AnnDataFull :=
  {| base := b; X := X a; uns := uns a |}.

(** the four tables [cleanup] clears, and how each is replaced *)
Definition set_obs (d : gmap string (list string)) (a : AnnDataFull) : AnnDataFull :=
  with_base {| obs_names := obs_names (base a); var_names := var_names (base a);
               layers := layers (base a); obs := d; var := var (base a) |} a.
Definition set_var_table (d : gmap string (VarCol R)) (a : AnnDataFull) : AnnDataFull :=
  with_base {| obs_names := obs_names (base a); var_names := var_names (base a);
               layers := layers (base a); obs := obs (base a); var := d |} a.
Definition set_layers (d : gmap string (Array2 R)) (a : AnnDataFull) : AnnDataFull :=
  with_base {| obs_names := obs_names (base a); var_names := var_names (base a);
               layers := d; obs := obs (base a); var := var (base a) |} a.
Definition set_uns (d : gmap string U) (a : AnnDataFull) : AnnDataFull :=
  {| base := base a; X := X a; uns := d |}.

(** what [adata._inplace_subset_var(idx)] leaves in [adata] *)
Definition take_cols_full (idx : list bool) (a : AnnDataFull) : AnnDataFull :=
  {| base := take_cols idx (base a); X := map (mask_select idx) (X a); uns := uns a |}.

Record Store : Type := {
  objects : loc -> AnnDataFull;
  fresh : loc;
  calls : list Call
}.

Definition Prep (A : Type) : Type := Store -> result A * Store.

#[global] Instance Prep_ret : MRet Prep := fun A a s => (Ok a, s).
#[global] Instance Prep_bind : MBind Prep := fun A B f m s =>
  match m s with
  | (Ok a, s') => f a s'
  | (Raise e, s') => (Raise e, s')
  end.

Definition prep_lift {A : Type} (r : result A) : Prep A := fun s => (r, s).

Definition get_object (l : loc) : Prep AnnDataFull := fun s => (Ok (objects s l), s).

Definition put_object (l : loc) (a : AnnDataFull) : Prep unit := fun s =>
  (Ok tt, {| objects := fun l' => if Nat.eqb l' l then a else objects s l';
             fresh := fresh s; calls := calls s |}).

(** [data.copy()] *)
Definition copy_object (l : loc) : Prep loc := fun s =>
  (Ok (fresh s), {| objects := fun l' => if Nat.eqb l' (fresh s) then objects s l
                                         else objects s l';
                    fresh := S (fresh s); calls := calls s |}).

Definition log_call (c : Call) : Prep unit := fun s =>
  (Ok tt, {| objects := objects s; fresh := fresh s; calls := calls s ++ [c] |}).

(** a call of a function that works on the object at [l] in place: what it
    leaves there is stored whether it returns or raises *)
Definition inplace (c : Call) (f : AnnDataFull -> result unit * AnnDataFull) (l : loc)
    : Prep unit :=
  log_call c;;
  a ← get_object l;
  put_object l (f a).2;;
  prep_lift (f a).1.

(** a call of a function that returns a value *)
Definition pure_call {A : Type} (c : Call) (r : result A) : Prep A :=
  log_call c;; prep_lift r.

Fixpoint prep_for_each {A : Type} (l : list A) (body : A -> Prep unit) : Prep unit :=
  match l with
  | [] => mret tt
  | x :: l' => body x;; prep_for_each l' body
  end.

(** [adata._inplace_subset_var(idx)] *)
Definition subset_var (l : loc) (idx : list bool) : Prep unit :=
  a ← get_object l;
  if Nat.eqb (length idx) (length (var_names (base a))) then put_object l (take_cols_full idx a)
  else prep_lift (Raise mask_error).

(** ** [cleanup] *)

(** lines 47 and 48, and the same for the other tables:
    [for key in list(d.keys()): if key not in keep: del d[key]] *)
Definition clean_table {V : Type} (get : AnnDataFull -> gmap string V)
    (set : gmap string V -> AnnDataFull -> AnnDataFull) (adata : loc) (keep : Names)
    : Prep unit :=
  a ← get_object adata;
  prep_for_each (keys (get a)) (fun key =>
    if name_in key keep then mret tt
    else
      a ← get_object adata;
      d ← prep_lift (py_del key (get a));
      put_object adata (set d a)).

(** [cleanup(data, clean, keep, copy)] *)
Definition cleanup (data : loc) (clean keep : Names) (copy : bool) : Prep (option loc) :=
  adata ← (if copy then copy_object data else mret data);
  (if name_in "obs" clean || name_in "all" clean
   then clean_table (fun a => obs (base a)) set_obs adata keep else mret tt);;
  (if name_in "var" clean || name_in "all" clean
   then clean_table (fun a => var (base a)) set_var_table adata keep else mret tt);;
  (if name_in "uns" clean || name_in "all" clean
   then clean_table uns set_uns adata keep else mret tt);;
  (if name_in "layers" clean || name_in "all" clean
   then clean_table (fun a => layers (base a)) set_layers adata keep else mret tt);;
  mret (if copy then Some adata else None).

(** the dataset [cleanup] leaves: each table it clears keeps the entries
    whose key is in [keep] *)
Definition kept {V : Type} (keep : Names) (d : gmap string V) : gmap string V :=
  filter (fun kv => name_in kv.1 keep = true) d.

Definition cleaned (clean keep : Names) (a : AnnDataFull) : AnnDataFull :=
  let sel (name : string) := name_in name clean || name_in "all" clean in
  {| base := {| obs_names := obs_names (base a); var_names := var_names (base a);
                layers := if sel "layers" then kept keep (layers (base a))
                          else layers (base a);
                obs := if sel "obs" then kept keep (obs (base a)) else obs (base a);
                var := if sel "var" then kept keep (var (base a)) else var (base a) |};
     X := X a;
     uns := if sel "uns" then kept keep (uns a) else uns a |}.

(** every run of [m] relates the store it starts in to the store it ends in,
    whether it returns or raises *)
Definition prep_steps {A : Type} (Rel : relation Store) (m : Prep A) : Prop :=
  forall s r s', m s = (r, s') -> Rel s s'.

(** a run that allocates nothing and changes the object at [l] alone *)
Definition changes_only (l : loc) (s s' : Store) : Prop :=
  fresh s' = fresh s /\ forall l', l' <> l -> objects s' l' = objects s l'.

(** the same, and the log of calls grows *)
Definition works_on (l : loc) (s s' : Store) : Prop :=
  changes_only l s s' /\ exists t, calls s' = calls s ++ t.
End Objects.

Arguments AnnDataFull R U : clear implicits.
Arguments Store R U : clear implicits.
Arguments Prep R U A : clear implicits.

(** ** [filter_and_normalize] and [recipe_velocity]

    The functions the module imports: [filter_genes], [normalize_per_cell],
    [log1p], [filter_genes_dispersion] and its plot from scanpy, and
    [moments] from the package.  Those that work on a dataset do so in
    place and may raise after they have changed it; [filter_genes] takes
    [min_counts] and [min_cells]; [moments] takes [n_neighbors] and
    [n_pcs]; [gene_subset] is the field of that name of the result of
    [filter_genes_dispersion]. *)

Module pp.
Section Imports.
Context {R U FR : Type}.

Record Imports : Type := {
  filter_genes : option Z -> option Z -> AnnDataFull R U -> result unit * AnnDataFull R U;
  normalize_per_cell : AnnDataFull R U -> result unit * AnnDataFull R U;
  log1p : AnnDataFull R U -> result unit * AnnDataFull R U;
  filter_genes_dispersion : Matrix R -> Z -> result FR;
  gene_subset : FR -> list bool;
  plot_filter_genes_dispersion : FR -> result unit;
  (** Modelled from the spec: [moments] is not in the module; the spec
      gives it as populating the layers of first moments of the dataset it
      is given. *)
  moments : Z -> Z -> AnnDataFull R U -> result unit * AnnDataFull R U
}.
End Imports.
Arguments Imports R U FR : clear implicits.
End pp.

Section FilterAndNormalize.
Context {R U FR : Type} {K : Counts R}.
Variable imp : pp.Imports R U FR.

(** [counts >= threshold], lines 103 to 105 of [filter_genes_u] *)
Definition unspliced_mask (min_counts_u min_cells_u : option Z) (u : Array2 R)
    : result (list bool) :=
  match min_counts_u with
  | Some threshold =>
      let counts := u in
      let counts := if issparse counts then axis0 fsum (A_ counts)
                    else axis0 fsum (A_ counts) in
      Ok (map (fun x => fge x threshold) counts)
  | None =>
      let counts := map (map fgt_0) (A_ u) in
      let counts := if issparse u then axis0 count_true counts
                    else axis0 count_true counts in
      match min_cells_u with
      | Some threshold => Ok (map (fun n => Z.leb threshold (Z.of_nat n)) counts)
      | None => Raise (TypeError "'>=' not supported between instances of 'int' and 'NoneType'")
      end
  end.

(** the inner function [filter_genes_u] *)
Definition filter_genes_u (adata : loc) (min_counts_u min_cells_u : option Z)
    : Prep R U unit :=
  a ← get_object adata;
  u ← prep_lift (get_layer "unspliced" (base a));
  mask ← prep_lift (unspliced_mask min_counts_u min_cells_u u);
  subset_var adata mask.

(** lines 107 to 126, on the object [adata] that line 99 chose *)
Definition filter_and_normalize_on (adata : loc)
    (min_counts min_counts_u min_cells min_cells_u n_top_genes : option Z)
    (log plot : bool) : Prep R U unit :=
  match min_counts with
  | Some c => inplace (c_filter_genes (Some c) None) (pp.filter_genes imp (Some c) None) adata
  | None => mret tt
  end;;
  match min_cells with
  | Some c => inplace (c_filter_genes None (Some c)) (pp.filter_genes imp None (Some c)) adata
  | None => mret tt
  end;;
  a ← get_object adata;
  (if has_key "unspliced" (layers (base a)) then
     match min_counts_u with
     | Some c => filter_genes_u adata (Some c) None
     | None => mret tt
     end;;
     match min_cells_u with
     | Some c => filter_genes_u adata None (Some c)
     | None => mret tt
     end
   else mret tt);;
  a ← get_object adata;
  match n_top_genes with
  | Some n =>
      if Z.ltb n (Z.of_nat (adata_shape (base a)).2) then
        inplace c_normalize_per_cell (pp.normalize_per_cell imp) adata;;
        a ← get_object adata;
        filter_result ← pure_call (c_filter_genes_dispersion n)
                          (pp.filter_genes_dispersion imp (X a) n);
        (if plot
         then pure_call c_plot_filter_genes_dispersion
                (pp.plot_filter_genes_dispersion imp filter_result)
         else mret tt);;
        subset_var adata (pp.gene_subset imp filter_result)
      else mret tt
  | None => mret tt
  end;;
  inplace c_normalize_per_cell (pp.normalize_per_cell imp) adata;;
  if log then inplace c_log1p (pp.log1p imp) adata else mret tt.

(** [filter_and_normalize(data, min_counts, min_counts_u, min_cells,
    min_cells_u, n_top_genes, log, plot, copy)] *)
Definition filter_and_normalize (data : loc)
    (min_counts min_counts_u min_cells min_cells_u n_top_genes : option Z)
    (log plot copy : bool) : Prep R U (option loc) :=
  adata ← (if copy then copy_object data else mret data);
  filter_and_normalize_on adata min_counts min_counts_u min_cells min_cells_u n_top_genes
    log plot;;
  mret (if copy then Some adata else None).

(** [recipe_velocity(adata, min_counts, min_counts_u, n_top_genes, n_pcs,
    n_neighbors, log, copy)] *)
Definition recipe_velocity (adata : loc) (min_counts min_counts_u n_top_genes : option Z)
    (n_pcs n_neighbors : Z) (log copy : bool) : Prep R U (option loc) :=
  filter_and_normalize adata min_counts min_counts_u None None n_top_genes log false false;;
  inplace (c_moments n_neighbors n_pcs) (pp.moments imp n_neighbors n_pcs) adata;;
  mret (if copy then Some adata else None).
End FilterAndNormalize.

(** the calls of a run of [filter_and_normalize] that returns: those of
    [filter_genes], those around the dispersion filter, and the last ones *)
Definition filter_calls (min_counts min_cells : option Z) : list Call :=
  match min_counts with Some c => [c_filter_genes (Some c) None] | None => [] end
  ++ match min_cells with Some c => [c_filter_genes None (Some c)] | None => [] end.
Definition dispersion_calls (n : Z) (plot : bool) : list Call :=
  [c_normalize_per_cell; c_filter_genes_dispersion n]
  ++ (if plot then [c_plot_filter_genes_dispersion] else []).
Definition final_calls (log : bool) : list Call :=
  [c_normalize_per_cell] ++ (if log then [c_log1p] else []).

(** ** Further examples

    The estimators, calls and stores the further statements are tried on;
    the imported preprocessing functions are stand-ins that leave a dataset
    as it is, and a dispersion filter that selects the first genes. *)

Module Sample.
Import Rational Example.

(** an estimator that fits on the first two cells *)
Definition velo_subset : Velocity Q :=
  Eval vm_compute in
    value no_velocity
      (Velocity_init (RObj 0) None None (Some [true; true; false]) None false
         (state_of smoothed)).

(** the estimator after a deterministic stage that found no velocity gene *)
Definition velo_none : Velocity Q :=
  Eval vm_compute in
    {| _adata := _adata velo_det; _Ms := _Ms velo_det; _Mu := _Mu velo_det;
       _residual := _residual velo_det; _residual2 := _residual2 velo_det;
       _offset := _offset velo_det; _offset2 := _offset2 velo_det;
       _gamma := _gamma velo_det; _r2 := _r2 velo_det; _beta := _beta velo_det;
       _velocity_genes := [false; false; false]; _subset := _subset velo_det |}.

(** a deterministic call on the cells of cluster A *)
Definition grouped_out :=
  velocity_body collaborators 0 "velocity" None false false false (GList ["A"]) None None
    false false (state_of smoothed).
(** a deterministic call with gene filtering *)
Definition filtered_body_out := call_body collaborators with_variance None true GNone false.
(** a stochastic call with gene filtering on the raw counts *)
Definition raw_stochastic_out :=
  velocity collaborators 0 "velocity" (Some "stochastic") false false true GNone None None
    true false (state_of raw).

#[global] Instance Q_Counts : Counts Q := {|
  fsum := sum;
  fgt_0 := fun x => negb (Qle_bool x 0);
  fge := fun x n => Qle_bool (inject_Z n) x
|}.

(** a dataset with its matrix [X] and one entry of [uns] *)
Definition full (d : AnnData Q) : AnnDataFull Q string :=
  {| base := d; X := spliced; uns := <["neighbors" := "params"]> ∅ |}.

(** the store that holds [d] at location 0 *)
Definition store_of (d : AnnDataFull Q string) : Store Q string :=
  {| objects := fun _ => d; fresh := 1; calls := [] |}.

Definition scanpy : pp.Imports Q string (list bool) :=
  {| pp.filter_genes := fun _ _ a => (Ok tt, a);
     pp.normalize_per_cell := fun a => (Ok tt, a);
     pp.log1p := fun a => (Ok tt, a);
     pp.filter_genes_dispersion := fun X n =>
       Ok (map (fun j => Z.ltb (Z.of_nat j) n) (seq 0 (shape X).2));
     pp.gene_subset := fun filter_result => filter_result;
     pp.plot_filter_genes_dispersion := fun _ => Ok tt;
     pp.moments := fun _ _ a => (Ok tt, a) |}.

(** [cleanup] with its default arguments, in place and on a copy *)
Definition cleanup_out (copy : bool) :=
  cleanup 0 (NStr "layers") (NList ["spliced"; "unspliced"]) copy (store_of (full smoothed)).
(** [filter_and_normalize] with the thresholds on the unspliced counts *)
Definition normalize_out (n_top_genes : option Z) (plot copy : bool) :=
  filter_and_normalize scanpy 0 (Some 3%Z) (Some 3%Z) None None n_top_genes true plot copy
    (store_of (full raw)).
Definition recipe_out :=
  recipe_velocity scanpy 0 (Some 3%Z) (Some 3%Z) None 30 30 true true (store_of (full raw)).
End Sample.


(** * Properties *)

Local Open Scope list_scope.

(** ** Fallible values *)

Lemma result_bind_Ok {A B : Type} (m : result A) (f : A -> result B) (b : B) :
  m ≫= f = Ok b -> exists a, m = Ok a /\ f a = Ok b.
Proof. destruct m as [a|e]; simpl; [eauto | discriminate]. Qed.

Section ResultFacts.
Context {A B : Type}.

Lemma mapM_Ok (f : A -> result B) (l : list A) (k : list B) :
  mapM f l = Ok k -> Forall2 (fun x y => f x = Ok y) l k.
Proof.
  revert k. induction l as [|x l IH]; intros k; simpl.
  - intros [= <-]. constructor.
  - intros H. apply result_bind_Ok in H as (y & Hy & H).
    apply result_bind_Ok in H as (k' & Hk' & [= <-]).
    constructor; auto.
Qed.

Lemma mapM_Ok_lookup (f : A -> result B) (l : list A) (k : list B) (i : nat) (y : B) :
  mapM f l = Ok k -> k !! i = Some y -> exists x, l !! i = Some x /\ f x = Ok y.
Proof.
  intros H Hy. apply mapM_Ok in H.
  destruct (Forall2_lookup_r _ _ _ _ _ H Hy) as (x & Hx & Hf). eauto.
Qed.

Lemma mapM_Ok_length (f : A -> result B) (l : list A) (k : list B) :
  mapM f l = Ok k -> length k = length l.
Proof. intros H. apply mapM_Ok in H. symmetry. eapply Forall2_length, H. Qed.
End ResultFacts.

(** a tactic that opens the binds of a successful fallible computation *)
Ltac inv_result H :=
  repeat match type of H with
         | _ ≫= _ = Ok _ =>
             let x := fresh "x" in
             let Hx := fresh "H" x in
             apply result_bind_Ok in H as (x & Hx & H)
         end.

(** ** Masks *)

Section MaskFacts.
Context {A : Type}.
Implicit Types (idx : list bool) (l vals : list A).

Lemma mask_scatter_length idx l vals :
  length (mask_scatter idx l vals) = length l.
Proof.
  revert l vals. induction idx as [|b idx IH]; intros [|x l] vals; simpl; auto.
  destruct b; [destruct vals|]; simpl; auto.
Qed.

(** an entry the mask excludes is not written *)
Lemma mask_scatter_excluded idx l vals g :
  idx !! g = Some false -> mask_scatter idx l vals !! g = l !! g.
Proof.
  revert l vals g. induction idx as [|b idx IH]; intros l vals g Hg; [done|].
  destruct l as [|x l]; [done|]. destruct g as [|g]; simpl in *.
  - injection Hg as ->. done.
  - destruct b; [destruct vals|]; simpl; auto.
Qed.

Lemma length_mask_select idx l :
  length idx = length l -> length (mask_select idx l) = count_true idx.
Proof.
  revert l. induction idx as [|b idx IH]; intros [|x l] Hl; simpl in *; try done.
  injection Hl as Hl. destruct b; simpl; auto.
Qed.

(** gathering what was scattered gives the values back *)
Lemma mask_select_scatter idx l vals :
  length idx = length l -> count_true idx = length vals ->
  mask_select idx (mask_scatter idx l vals) = vals.
Proof.
  revert l vals.
  induction idx as [|b idx IH]; intros [|x l] vals Hl Hv; simpl in *; try done.
  - by destruct vals.
  - injection Hl as Hl. destruct b.
    + destruct vals as [|v vals]; [done|]. simpl in *. f_equal. auto.
    + auto.
Qed.

Lemma np_mask_assign_excluded idx l vals l' g :
  np_mask_assign idx l vals = Ok l' -> idx !! g = Some false -> l' !! g = l !! g.
Proof.
  unfold np_mask_assign. intros H Hg.
  destruct (Nat.eqb _ _); [|done]. destruct (Nat.eqb _ _); [|done].
  injection H as <-. by apply mask_scatter_excluded.
Qed.

Lemma np_mask_assign_select idx l vals l' :
  np_mask_assign idx l vals = Ok l' -> np_mask idx l' = Ok vals.
Proof.
  unfold np_mask_assign, np_mask. intros H.
  destruct (Nat.eqb_spec (length idx) (length l)) as [Hl|]; [|done].
  destruct (Nat.eqb_spec (count_true idx) (length vals)) as [Hv|]; [|done].
  injection H as <-. rewrite mask_scatter_length.
  rewrite (proj2 (Nat.eqb_eq _ _) Hl). f_equal. by apply mask_select_scatter.
Qed.
End MaskFacts.

(** ** Python's [set] on a constant vector *)

Section PySetFacts.
Context {A : Type} (eqb : A -> A -> bool).

Lemma py_set_constant (x : A) (n : nat) (s : list A) :
  eqb x x = true -> x ∈ s -> fold_left (set_add eqb) (replicate n x) s = s.
Proof.
  intros Hx Hs. induction n as [|n IH]; simpl; [done|].
  unfold set_add at 2.
  assert (existsb (fun y => eqb y x) s = true) as ->; [|done].
  apply existsb_exists. exists x. split; [|done]. by apply list_elem_of_In.
Qed.

(** a vector that repeats one value does not hold several *)
Lemma several_values_replicate (x : A) (n : nat) :
  eqb x x = true -> several_values eqb (replicate n x) = false.
Proof.
  intros Hx. unfold several_values, py_set. destruct n as [|n]; simpl; [done|].
  rewrite py_set_constant; [done..|]. unfold set_add. simpl. set_solver.
Qed.
End PySetFacts.

(** ** Computations on the store *)

Section MonadFacts.
Context {R : Type}.
Implicit Types (s : State R).

Lemma M_bind_inv {A B : Type} (m : M R A) (f : A -> M R B) (s s' : State R) (r : result B) :
  (m ≫= f) s = (r, s') ->
  (exists a s1, m s = (Ok a, s1) /\ f a s1 = (r, s')) \/
  (exists e, m s = (Raise e, s') /\ r = Raise e).
Proof.
  unfold mbind, M_bind. destruct (m s) as [[a|e] s1]; intros H.
  - left. eauto.
  - right. injection H as <- <-. eauto.
Qed.

Lemma M_bind_Ok {A B : Type} (m : M R A) (f : A -> M R B) (s s' : State R) (b : B) :
  (m ≫= f) s = (Ok b, s') -> exists a s1, m s = (Ok a, s1) /\ f a s1 = (Ok b, s').
Proof.
  intros H. apply M_bind_inv in H as [H | (e & _ & [=])]. exact H.
Qed.

Lemma M_ret_inv {A : Type} (a : A) (s s' : State R) (r : result A) :
  (mret a : M R A) s = (r, s') -> r = Ok a /\ s' = s.
Proof. intros [= <- <-]. done. Qed.

Lemma lift_inv {A : Type} (x : result A) (s s' : State R) (r : result A) :
  lift x s = (r, s') -> x = r /\ s' = s.
Proof. intros [= <- <-]. done. Qed.

Lemma raise_inv {A : Type} (e : Exn) (s s' : State R) (r : result A) :
  raise e s = (r, s') -> r = Raise e /\ s' = s.
Proof. intros [= <- <-]. done. Qed.

Lemma load_inv (l : loc) (s s' : State R) (r : result (AnnData R)) :
  load l s = (r, s') -> r = Ok (heap s l) /\ s' = s.
Proof. intros [= <- <-]. done. Qed.

Lemma call_inv {A : Type} (f : Fn) (x : result A) (s s' : State R) (r : result A) :
  call f x s = (r, s') ->
  x = r /\ s' = {| heap := heap s; next := next s; trace := trace s ++ [EvCall f] |}.
Proof. unfold call, mbind, M_bind, log, lift. destruct x; intros [= <- <-]; done. Qed.

Lemma deref_inv (ref : Ref) (s s' : State R) (r : result (AnnData R)) :
  deref ref s = (r, s') ->
  s' = s /\ r = Ok match ref with
                   | RObj l => heap s l
                   | RRows l rows => take_rows rows (heap s l)
                   end.
Proof. destruct ref; intros [= <- <-]; done. Qed.
End MonadFacts.

(** opening the binds of a computation that succeeded *)
Ltac inv_M H :=
  repeat match type of H with
         | (_ ≫= _) _ = (Ok _, _) =>
             let a := fresh "a" in
             let s := fresh "s" in
             let Ha := fresh "H" a in
             apply M_bind_Ok in H as (a & s & Ha & H)
         | (let '(_, _) := ?x in _) _ = _ => destruct x eqn:?
         end.

Ltac inv_prim :=
  repeat match goal with
         | H : lift _ _ = (_, _) |- _ => apply lift_inv in H as [? ?]
         | H : load _ _ = (_, _) |- _ => apply load_inv in H as [? ?]
         | H : call _ _ _ = (_, _) |- _ => apply call_inv in H as [? ?]
         | H : deref _ _ = (_, _) |- _ => apply deref_inv in H as [? ?]
         | H : mret _ _ = (_, _) |- _ => apply M_ret_inv in H as [? ?]
         | H : raise _ _ = (_, _) |- _ => apply raise_inv in H as [? ?]
         end.

(** ** numpy *)

Lemma lookup_map {A B : Type} (f : A -> B) (l : list A) (i : nat) :
  map f l !! i = f <$> l !! i.
Proof. revert i. induction l as [|x l IH]; intros [|i]; simpl; auto. Qed.

Section NumpyFacts.
Context {A B D : Type} (f : A -> B -> D).

Lemma np_zip_lookup (a : list A) (b : list B) (c : list D) (i : nat) :
  np_zip f a b = Ok c ->
  c !! i = (x ← a !! i; y ← b !! i; Some (f x y)).
Proof.
  unfold np_zip. destruct (Nat.eqb_spec (length a) (length b)) as [Hl|]; [|done].
  intros [= <-]. by rewrite lookup_zip_with.
Qed.

Lemma np_zip_length (a : list A) (b : list B) (c : list D) :
  np_zip f a b = Ok c -> length a = length c /\ length b = length c.
Proof.
  unfold np_zip. destruct (Nat.eqb_spec (length a) (length b)) as [Hl|]; [|done].
  intros [= <-]. rewrite length_zip_with. lia.
Qed.
End NumpyFacts.

Section EntryFacts.
Context {A B D : Type} (f : A -> B -> D).

Lemma np_zip2_entry (a : list (list A)) (b : list (list B)) (c : list (list D)) i j :
  np_zip2 f a b = Ok c ->
  entry c i j = (x ← entry a i j; y ← entry b i j; Some (f x y)).
Proof.
  unfold np_zip2, entry.
  destruct (Nat.eqb_spec (length a) (length b)) as [Hl|]; [|done].
  intros H. destruct (c !! i) as [row|] eqn:Hrow; simpl.
  - destruct (mapM_Ok_lookup _ _ _ _ _ H Hrow) as ([ra rb] & Hab & Hz).
    apply lookup_zip_with_Some in Hab as (ra' & rb' & [= <- <-] & -> & ->). simpl in *.
    rewrite (np_zip_lookup _ _ _ _ j Hz). by destruct (ra !! j).
  - apply mapM_Ok_length in H. rewrite length_zip_with in H.
    apply lookup_ge_None in Hrow.
    rewrite (proj2 (lookup_ge_None a i)) by lia. done.
Qed.

Lemma np_zip_rows_entry (v : list A) (m : list (list B)) (c : list (list D)) i j :
  np_zip_rows f v m = Ok c ->
  entry c i j = (x ← v !! j; y ← entry m i j; Some (f x y)).
Proof.
  unfold np_zip_rows, entry. intros H.
  destruct (c !! i) as [row|] eqn:Hrow; simpl.
  - destruct (mapM_Ok_lookup _ _ _ _ _ H Hrow) as (rb & -> & Hz). simpl.
    by rewrite (np_zip_lookup _ _ _ _ j Hz).
  - apply mapM_Ok_length in H. apply lookup_ge_None in Hrow.
    rewrite (proj2 (lookup_ge_None m i)) by lia. simpl. by destruct (v !! j).
Qed.

Lemma np_rows_zip_entry (m : list (list A)) (v : list B) (c : list (list D)) i j :
  np_rows_zip f m v = Ok c ->
  entry c i j = (x ← entry m i j; y ← v !! j; Some (f x y)).
Proof.
  unfold np_rows_zip, entry. intros H.
  destruct (c !! i) as [row|] eqn:Hrow; simpl.
  - destruct (mapM_Ok_lookup _ _ _ _ _ H Hrow) as (ra & -> & Hz). simpl.
    by rewrite (np_zip_lookup _ _ _ _ j Hz).
  - apply mapM_Ok_length in H. apply lookup_ge_None in Hrow.
    rewrite (proj2 (lookup_ge_None m i)) by lia. done.
Qed.
End EntryFacts.

Lemma map_map_entry {A B : Type} (f : A -> B) (M : list (list A)) i j :
  entry (map (map f) M) i j = f <$> entry M i j.
Proof.
  unfold entry. rewrite lookup_map. destruct (M !! i) as [row|]; simpl; [|done].
  apply lookup_map.
Qed.

Section ScatterFacts.
Context {A : Type}.

Lemma np_mask_assign_cols_rows (idx : list bool) (Z vals M : list (list A)) :
  length Z = length vals ->
  mapM (fun rv => np_mask_assign idx rv.1 rv.2) (zip Z vals) = Ok M ->
  mapM (np_mask idx) M = Ok vals /\
  forall row g, row ∈ M -> idx !! g = Some false ->
                exists z, z ∈ Z /\ length idx = length z /\ row !! g = z !! g.
Proof.
  revert vals M. induction Z as [|z Z IH]; intros [|v vals] M Hl H; simpl in *; try done.
  - injection H as <-. split; [done|]. intros row g Hin. by apply elem_of_nil in Hin.
  - apply result_bind_Ok in H as (row & Hrow & H).
    apply result_bind_Ok in H as (M' & HM' & [= <-]).
    destruct (IH vals M') as [IH1 IH2]; [lia|done|]. split.
    + simpl. rewrite (np_mask_assign_select _ _ _ _ Hrow). simpl. by rewrite IH1.
    + intros row' g Hin Hg. apply elem_of_cons in Hin as [->|Hin].
      * exists z. split; [left|]. split; [|by eapply np_mask_assign_excluded].
        unfold np_mask_assign in Hrow.
        destruct (Nat.eqb_spec (length idx) (length z)); done.
      * destruct (IH2 row' g Hin Hg) as (z' & Hz' & Hlz & Hrz).
        exists z'. split; [by right|done].
Qed.
End ScatterFacts.

Section Formula.
Context {R : Type} {F : Float R}.

Lemma second_order_residual_entry fit_offset fit_offset2 idx
    (Ms_ Mu_ var_ss cov_us : list (list R)) (offset offset2 gamma : list R)
    (residual2_ : list (list R)) i j :
  second_order_residual fit_offset fit_offset2 idx Ms_ Mu_ var_ss cov_us
    offset offset2 gamma = Ok residual2_ ->
  entry residual2_ i j =
    (ms ← entry Ms_ i j; mu ← entry Mu_ i j;
     vss ← entry var_ss i j; cus ← entry cov_us i j;
     g ← mask_select idx gamma !! j;
     o ← (if fit_offset then mask_select idx offset !! j else Some fzero);
     o2 ← (if fit_offset2 then mask_select idx offset2 !! j else Some fzero);
     Some (residual2_entry fit_offset fit_offset2 ms mu vss cus o o2 g)).
Proof.
  unfold second_order_residual. intros H.
  apply result_bind_Ok in H as (MsMu & HMsMu & H).
  apply result_bind_Ok in H as (lhs & Hlhs & H).
  apply result_bind_Ok in H as (gamma_idx & Hgamma & H).
  apply result_bind_Ok in H as (inner & Hinner & H).
  apply result_bind_Ok in H as (rhs & Hrhs & H).
  apply result_bind_Ok in H as (r1 & Hr1 & H).
  apply result_bind_Ok in H as (r2 & Hr2 & H).
  assert (mask_select idx gamma = gamma_idx) as ->.
  { unfold np_mask in Hgamma. destruct (Nat.eqb _ _); by simplify_eq. }
  pose proof (np_zip2_entry _ _ _ _ i j HMsMu) as E1.
  pose proof (np_zip2_entry _ _ _ _ i j Hlhs) as E2.
  pose proof (np_zip2_entry _ _ _ _ i j Hinner) as E3.
  pose proof (np_zip_rows_entry _ _ _ _ i j Hrhs) as E4.
  pose proof (np_zip2_entry _ _ _ _ i j Hr1) as E5.
  unfold twice, squared in *. rewrite !map_map_entry in *.
  assert (forall v w : list R, np_mask idx v = Ok w -> mask_select idx v = w) as Hsel.
  { intros v w. unfold np_mask. destruct (Nat.eqb _ _); by intros [= <-]. }
  unfold residual2_entry.
  destruct fit_offset, fit_offset2; simpl in Hr2, H.
  - apply result_bind_Ok in Hr2 as (offset_idx & Hoff & Hr2).
    apply result_bind_Ok in Hr2 as (oMs & HoMs & Hr2).
    apply result_bind_Ok in H as (offset2_idx & Hoff2 & H).
    rewrite (Hsel _ _ Hoff), (Hsel _ _ Hoff2).
    rewrite (np_rows_zip_entry _ _ _ _ i j H), (np_zip2_entry _ _ _ _ i j Hr2),
      (np_zip_rows_entry _ _ _ _ i j HoMs), E5, E4, E3, E2, E1.
    unfold twice_vec. rewrite lookup_map.
    destruct (entry Ms_ i j), (entry Mu_ i j), (entry var_ss i j), (entry cov_us i j),
      (gamma_idx !! j), (offset_idx !! j), (offset2_idx !! j); done.
  - apply result_bind_Ok in Hr2 as (offset_idx & Hoff & Hr2).
    apply result_bind_Ok in Hr2 as (oMs & HoMs & Hr2).
    injection H as <-. rewrite (Hsel _ _ Hoff).
    rewrite (np_zip2_entry _ _ _ _ i j Hr2),
      (np_zip_rows_entry _ _ _ _ i j HoMs), E5, E4, E3, E2, E1.
    unfold twice_vec. rewrite lookup_map.
    destruct (entry Ms_ i j), (entry Mu_ i j), (entry var_ss i j), (entry cov_us i j),
      (gamma_idx !! j), (offset_idx !! j); done.
  - injection Hr2 as <-.
    apply result_bind_Ok in H as (offset2_idx & Hoff2 & H).
    rewrite (Hsel _ _ Hoff2).
    rewrite (np_rows_zip_entry _ _ _ _ i j H), E5, E4, E3, E2, E1.
    destruct (entry Ms_ i j), (entry Mu_ i j), (entry var_ss i j), (entry cov_us i j),
      (gamma_idx !! j), (offset2_idx !! j); done.
  - injection Hr2 as <-. injection H as <-.
    rewrite E5, E4, E3, E2, E1.
    destruct (entry Ms_ i j), (entry Mu_ i j), (entry var_ss i j), (entry cov_us i j),
      (gamma_idx !! j); done.
Qed.
End Formula.

Section VelocityFacts.
Context {R : Type} {F : Float R} (C : Collaborators R).
Implicit Types (v : Velocity R) (s : State R).

Lemma Velocity_init_Ok adata Ms Mu subset residual use_raw s v s' :
  Velocity_init adata Ms Mu subset residual use_raw s = (Ok v, s') ->
  s' = s /\
  exists a x y,
    deref adata s = (Ok a, s) /\
    (if use_raw then get_layer "spliced" a
     else match Ms with None => get_layer "Ms" a | Some x => Ok x end) = Ok x /\
    (if use_raw then get_layer "unspliced" a
     else match Mu with None => get_layer "Mu" a | Some x => Ok x end) = Ok y /\
    let n_vars := (shape (A_ x)).2 in
    v = {| _adata := adata; _Ms := A_ x; _Mu := A_ y;
           _residual := residual; _residual2 := None;
           _offset := np_zeros n_vars; _offset2 := np_zeros n_vars;
           _gamma := np_zeros n_vars; _r2 := np_zeros n_vars;
           _beta := np_ones fone n_vars; _velocity_genes := np_ones true n_vars;
           _subset := subset |}.
Proof.
  unfold Velocity_init. intros H. inv_M H.
  destruct (deref adata s) as [ra sa] eqn:Hd.
  pose proof Hd as Hd'. apply deref_inv in Hd' as [-> ->]. 
  injection Ha as <- <-. inv_prim. simplify_eq.
  split; [done|]. eexists _, a0, a1. split; [done|]. split; [done|]. split; [done|].
  assert (forall x : Array2 R, densify x = A_ x) as Hden by (by intros [[] ?]).
  rewrite !Hden in *. simpl. unfold shape in Heqp. by simplify_eq.
Qed.

Lemma compute_deterministic_Ok fit_offset v s v' s' :
  compute_deterministic C fit_offset v s = (Ok v', s') ->
  exists X Y offset gamma residual total r2 velocity_genes,
    solve_cov C X Y fit_offset = Ok (offset, gamma) /\
    first_order_residual fit_offset (_Ms v) (_Mu v) offset gamma = Ok residual /\
    R_squared C residual total = Ok r2 /\
    np_zip andb (map fgt_01 r2) (map fgt_01 gamma) = Ok velocity_genes /\
    v' = {| _adata := _adata v; _Ms := _Ms v; _Mu := _Mu v;
            _residual := Some residual; _residual2 := _residual2 v;
            _offset := offset; _offset2 := _offset2 v;
            _gamma := gamma; _r2 := r2;
            _beta := _beta v; _velocity_genes := velocity_genes;
            _subset := _subset v |}.
Proof.
  unfold compute_deterministic. intros H. inv_M H. inv_prim. simplify_eq.
  match goal with
  | Hs : match _subset v with _ => _ end _ = (Ok (?o, ?g), _) |- _ =>
      assert (exists X Y, solve_cov C X Y fit_offset = Ok (o, g)) as (X & Y & Hsolve)
        by (destruct (_subset v); inv_M Hs; inv_prim; eauto)
  end.
  eexists X, Y, _, _, _, _, _, _. eauto 10.
Qed.

(** C3.  The mask of velocity genes is all true when the estimator is
    constructed, with one entry per column of [_Ms]; after
    [compute_deterministic] it has one entry per gene, and the entry of
    gene [g] is [(r2[g] > .01) & (gamma[g] > .01)] for the [gamma] that
    [solve_cov] and the [r2] that [R_squared] returned in that stage. *)
Theorem velocity_genes_rule :
  (forall adata Ms Mu subset residual use_raw s v s',
     Velocity_init adata Ms Mu subset residual use_raw s = (Ok v, s') ->
     _velocity_genes v = replicate (shape (_Ms v)).2 true) /\
  (forall fit_offset v s v' s',
     compute_deterministic C fit_offset v s = (Ok v', s') ->
     (exists X Y offset residual total,
        solve_cov C X Y fit_offset = Ok (offset, _gamma v') /\
        R_squared C residual total = Ok (_r2 v')) /\
     length (_velocity_genes v') = length (_r2 v') /\
     length (_velocity_genes v') = length (_gamma v') /\
     forall g r gm,
       _r2 v' !! g = Some r -> _gamma v' !! g = Some gm ->
       _velocity_genes v' !! g = Some (fgt_01 r && fgt_01 gm)).
Proof.
  split.
  - intros adata Ms Mu subset residual use_raw s v s' H.
    apply Velocity_init_Ok in H as (_ & a & x & y & _ & _ & _ & ->). done.
  - intros fit_offset v s v' s' H.
    apply compute_deterministic_Ok in H
      as (X & Y & offset & gamma & residual & total & r2 & genes & Hs & _ & Hr & Hz & ->).
    cbn [_gamma _r2 _velocity_genes].
    split; [eauto 10|].
    pose proof (np_zip_length _ _ _ _ Hz) as [Hl1 Hl2].
    rewrite !length_map in *. 
    split; [done|]. split; [done|].
    intros g r gm Hg1 Hg2. rewrite (np_zip_lookup _ _ _ _ g Hz).
    rewrite !lookup_map, Hg1, Hg2. done.
Qed.

Lemma compute_stochastic_Ok fit_offset fit_offset2 mode v s v' s' :
  compute_stochastic C fit_offset fit_offset2 mode v s = (Ok v', s') ->
  exists v1 r0 a Ms_ Mu_ Mss_ Mus_ var_ss cov_us o o2 g offset offset2 gamma
         residual residual2_ residual2,
    match _residual v with
    | Some _ => v1 = v
    | None => exists s0 s1, compute_deterministic C fit_offset v s0 = (Ok v1, s1)
    end /\
    _residual v1 = Some r0 /\
    let idx := _velocity_genes v1 in
    let is_subset := several_values Bool.eqb idx in
    (if is_subset then np_mask_cols idx (_Ms v1) else Ok (_Ms v1)) = Ok Ms_ /\
    (if is_subset then np_mask_cols idx (_Mu v1) else Ok (_Mu v1)) = Ok Mu_ /\
    second_order_moments C (if is_subset then take_cols idx a else a) = Ok (Mss_, Mus_) /\
    np_zip2 fsub (twice Mss_) Ms_ = Ok var_ss /\
    np_zip2 fadd (twice Mus_) Mu_ = Ok cov_us /\
    np_mask_assign idx (_offset v1) o = Ok offset /\
    np_mask_assign idx (_offset2 v1) o2 = Ok offset2 /\
    np_mask_assign idx (_gamma v1) g = Ok gamma /\
    first_order_residual fit_offset (_Ms v1) (_Mu v1) offset gamma = Ok residual /\
    second_order_residual fit_offset fit_offset2 idx Ms_ Mu_ var_ss cov_us
      offset offset2 gamma = Ok residual2_ /\
    (if is_subset then np_mask_assign_cols idx (np_zeros2 (shape (_Ms v1))) residual2_
     else Ok residual2_) = Ok residual2 /\
    v' = {| _adata := _adata v1; _Ms := _Ms v1; _Mu := _Mu v1;
            _residual := Some residual; _residual2 := Some residual2;
            _offset := offset; _offset2 := offset2;
            _gamma := gamma; _r2 := _r2 v1;
            _beta := _beta v1; _velocity_genes := _velocity_genes v1;
            _subset := _subset v1 |}.
Proof.
  unfold compute_stochastic. intros H. inv_M H.
  match goal with
  | Hd : match _residual v with _ => _ end _ = (Ok ?v1, _) |- _ =>
      exists v1;
      assert (match _residual v with
              | Some _ => v1 = v
              | None => exists s0 s1, compute_deterministic C fit_offset v s0 = (Ok v1, s1)
              end) as Hv1
        by (destruct (_residual v); [inv_prim; by simplify_eq | eauto]);
      clear Hd
  end.
  inv_prim. simplify_eq.
  match goal with
  | Hr : not_none (_residual ?x) ≫= _ = Ok _ |- _ =>
      destruct (_residual x) as [r0|] eqn:Hres; [|discriminate Hr]
  end.
  exists r0. eexists _, _, _, _, _, _, _, _, _, _, _, _, _, _, _, _.
  repeat (split; [eassumption || reflexivity|]). reflexivity.
Qed.

(** C2.  Let [v1] be the estimator at the end of the deterministic stage:
    the estimator [compute_stochastic] is called on when it has a residual,
    and else what the deterministic stage it runs first makes of it.  If
    the mask of [v1] holds several values and excludes the gene [g], then
    after [compute_stochastic] the entries of [offset], [offset2] and
    [gamma] for [g] are those of [v1], and the second-order residual, which
    has a row for every cell, is zero in column [g]. *)
Theorem stochastic_excluded_gene fit_offset fit_offset2 mode v s v' s' g :
  compute_stochastic C fit_offset fit_offset2 mode v s = (Ok v', s') ->
  exists v1,
    match _residual v with
    | Some _ => v1 = v
    | None => exists s0 s1, compute_deterministic C fit_offset v s0 = (Ok v1, s1)
    end /\
    (several_values Bool.eqb (_velocity_genes v1) = true ->
     _velocity_genes v1 !! g = Some false ->
     _offset v' !! g = _offset v1 !! g /\
     _offset2 v' !! g = _offset2 v1 !! g /\
     _gamma v' !! g = _gamma v1 !! g /\
     exists residual2,
       _residual2 v' = Some residual2 /\
       length residual2 = length (_Ms v1) /\
       forall row, row ∈ residual2 -> row !! g = Some fzero).
Proof.
  intros H. apply compute_stochastic_Ok in H
    as (v1 & r0 & a & Ms_ & Mu_ & Mss_ & Mus_ & var_ss & cov_us & o & o2 & gm
        & offset & offset2 & gamma & residual & residual2_ & residual2
        & Hv1 & Hr0 & HMs & HMu & Hsom & Hvar & Hcov & Ho & Ho2 & Hg
        & Hres & Hres2_ & Hres2 & ->).
  exists v1. split; [done|]. intros Hsub Hidx. cbn.
  rewrite Hsub in Hres2.
  split; [by eapply np_mask_assign_excluded|].
  split; [by eapply np_mask_assign_excluded|].
  split; [by eapply np_mask_assign_excluded|].
  exists residual2. split; [done|].
  unfold np_mask_assign_cols in Hres2.
  destruct (Nat.eqb_spec (length (np_zeros2 (shape (_Ms v1)))) (length residual2_))
    as [Hl|]; [|done].
  split.
  { apply mapM_Ok_length in Hres2. rewrite length_zip_with_l_eq in Hres2 by done.
    rewrite Hres2. unfold np_zeros2. by rewrite length_replicate. }
  intros row Hrow.
  destruct (np_mask_assign_cols_rows _ _ _ _ Hl Hres2) as [_ Hex].
  destruct (Hex row g Hrow Hidx) as (z & Hz & Hlz & ->).
  unfold np_zeros2 in Hz. apply elem_of_replicate in Hz as [-> _].
  unfold np_zeros in *. rewrite length_replicate in Hlz.
  apply lookup_replicate_2. rewrite <- Hlz. by eapply lookup_lt_Some.
Qed.

(** C4.  After [compute_stochastic] the second-order residual restricted to
    the active genes ([residual2_]: its columns under the mask when the
    mask holds several values, all of it otherwise) has, at every cell [i]
    and active gene [j], the entry
    [(cov_us - 2 * Ms * Mu) - gamma * (var_ss - 2 * Ms ** 2)], plus
    [2 * offset * Ms] exactly when [fit_offset], minus [offset2] exactly
    when [fit_offset2], of the entries at [i] and [j] of the operands
    restricted to the active genes, where [var_ss = 2 * Mss - Ms] and
    [cov_us = 2 * Mus + Mu] and [gamma], [offset], [offset2] are the
    vectors the stage ends with. *)
Theorem stochastic_residual2_formula fit_offset fit_offset2 mode v s v' s' :
  compute_stochastic C fit_offset fit_offset2 mode v s = (Ok v', s') ->
  exists v1 a Mss_ Mus_ Ms_ Mu_ var_ss cov_us residual2 residual2_,
    let idx := _velocity_genes v1 in
    let is_subset := several_values Bool.eqb idx in
    match _residual v with
    | Some _ => v1 = v
    | None => exists s0 s1, compute_deterministic C fit_offset v s0 = (Ok v1, s1)
    end /\
    (if is_subset then np_mask_cols idx (_Ms v1) else Ok (_Ms v1)) = Ok Ms_ /\
    (if is_subset then np_mask_cols idx (_Mu v1) else Ok (_Mu v1)) = Ok Mu_ /\
    second_order_moments C (if is_subset then take_cols idx a else a) = Ok (Mss_, Mus_) /\
    (forall i j, entry var_ss i j =
                 (x ← entry Mss_ i j; y ← entry Ms_ i j; Some (fsub (fmul ftwo x) y))) /\
    (forall i j, entry cov_us i j =
                 (x ← entry Mus_ i j; y ← entry Mu_ i j; Some (fadd (fmul ftwo x) y))) /\
    _residual2 v' = Some residual2 /\
    (if is_subset then np_mask_cols idx residual2 else Ok residual2) = Ok residual2_ /\
    forall i j,
      entry residual2_ i j =
        (ms ← entry Ms_ i j; mu ← entry Mu_ i j;
         vss ← entry var_ss i j; cus ← entry cov_us i j;
         g ← mask_select idx (_gamma v') !! j;
         o ← (if fit_offset then mask_select idx (_offset v') !! j else Some fzero);
         o2 ← (if fit_offset2 then mask_select idx (_offset2 v') !! j else Some fzero);
         Some (residual2_entry fit_offset fit_offset2 ms mu vss cus o o2 g)).
Proof.
  intros H. apply compute_stochastic_Ok in H
    as (v1 & r0 & a & Ms_ & Mu_ & Mss_ & Mus_ & var_ss & cov_us & o & o2 & gm
        & offset & offset2 & gamma & residual & residual2_ & residual2
        & Hv1 & Hr0 & HMs & HMu & Hsom & Hvar & Hcov & Ho & Ho2 & Hg
        & Hres & Hres2_ & Hres2 & ->).
  exists v1, a, Mss_, Mus_, Ms_, Mu_, var_ss, cov_us, residual2, residual2_.
  cbn [_residual2 _gamma _offset _offset2].
  repeat (split; [done|]).
  split.
  { intros i j. rewrite (np_zip2_entry _ _ _ _ i j Hvar). unfold twice.
    rewrite map_map_entry. by destruct (entry Mss_ i j). }
  split.
  { intros i j. rewrite (np_zip2_entry _ _ _ _ i j Hcov). unfold twice.
    rewrite map_map_entry. by destruct (entry Mus_ i j). }
  split; [done|]. split.
  { destruct (several_values _ _); [|done].
    unfold np_mask_assign_cols in Hres2.
    destruct (Nat.eqb_spec (length (np_zeros2 (shape (_Ms v1)))) (length residual2_))
      as [Hl|]; [|done].
    by destruct (np_mask_assign_cols_rows _ _ _ _ Hl Hres2). }
  intros i j. by apply second_order_residual_entry.
Qed.

(** C10.  With [use_raw=True] the constructor does the same whatever
    [Ms] and [Mu] it is given, and the working matrices of the estimator it
    returns are the entries of the layers ['spliced'] and ['unspliced'] of
    the dataset. *)
Theorem use_raw_ignores_Ms_Mu adata Ms Mu subset residual s :
  Velocity_init adata Ms Mu subset residual true s
  = Velocity_init adata None None subset residual true s /\
  forall v s',
    Velocity_init adata Ms Mu subset residual true s = (Ok v, s') ->
    exists a x y,
      deref adata s = (Ok a, s) /\
      layers a !! "spliced" = Some x /\ layers a !! "unspliced" = Some y /\
      _Ms v = A_ x /\ _Mu v = A_ y.
Proof.
  split; [done|]. intros v s' H.
  apply Velocity_init_Ok in H as (_ & a & x & y & Hd & Hx & Hy & ->).
  exists a, x, y. unfold get_layer in *.
  destruct (layers a !! "spliced") eqn:E1; [|done].
  destruct (layers a !! "unspliced") eqn:E2; [|done].
  by simplify_eq.
Qed.
End VelocityFacts.

(** ** Runs of the driver, step by step *)

Section Steps.
Context {R : Type}.
Implicit Types (s : State R) (t : list (Event R)) (P : Event R -> Prop).

Section Rules.
Context (Rel : relation (State R)) `{!PreOrder Rel}.

Lemma steps_bind {A B : Type} (m : M R A) (f : A -> M R B) :
  steps Rel m -> (forall a, steps Rel (f a)) -> steps Rel (m ≫= f).
Proof.
  intros Hm Hf s r s' H.
  apply M_bind_inv in H as [(a & s1 & H1 & H2) | (e & H1 & _)].
  - transitivity s1; [by eapply Hm | by eapply Hf].
  - by eapply Hm.
Qed.

Lemma steps_ret {A : Type} (a : A) : steps Rel (mret a : M R A).
Proof. intros s r s' [= <- <-]. reflexivity. Qed.

Lemma steps_lift {A : Type} (x : result A) : steps Rel (lift x : M R A).
Proof. intros s r s' [= <- <-]. reflexivity. Qed.

Lemma steps_raise {A : Type} (e : Exn) : steps Rel (raise e : M R A).
Proof. intros s r s' [= <- <-]. reflexivity. Qed.

Lemma steps_load (l : loc) : steps Rel (load l : M R _).
Proof. intros s r s' [= <- <-]. reflexivity. Qed.

Lemma steps_deref (ref : Ref) : steps Rel (deref ref : M R _).
Proof. intros s r s' H. apply deref_inv in H as [-> _]. reflexivity. Qed.
End Rules.

Lemma replay_app t1 t2 (a : AnnData R) : replay (t1 ++ t2) a = replay t2 (replay t1 a).
Proof. apply fold_left_app. Qed.

#[global] Instance run_preorder P l : PreOrder (run P l).
Proof.
  split.
  - intros s. split; [done|]. split; [done|]. exists []. by rewrite app_nil_r.
  - intros s1 s2 s3 (Hn1 & Hf1 & t1 & Ht1 & HP1 & Hh1) (Hn2 & Hf2 & t2 & Ht2 & HP2 & Hh2).
    split; [congruence|]. split; [intros l' Hl'; rewrite Hf2, Hf1; done|].
    exists (t1 ++ t2). rewrite Ht2, Ht1, app_assoc, replay_app, Hh2, Hh1.
    split; [done|]. split; [by apply Forall_app|done].
Qed.

Lemma steps_log P l (e : Event R) :
  P e -> (forall a : AnnData R, replay [e] a = a) -> steps (run P l) (log e).
Proof.
  intros He Hpure s r s' [= <- <-]. simpl.
  split; [done|]. split; [done|]. exists [e]. split; [done|].
  split; [by constructor|]. by rewrite Hpure.
Qed.

Lemma steps_call {A : Type} P l f (x : result A) :
  P (EvCall f) -> steps (run P l) (call f x).
Proof.
  intros HP. unfold call. apply steps_bind; [apply _|by apply steps_log|].
  intros _. apply steps_lift, _.
Qed.

Lemma steps_perform P l (e : Effect R) :
  P (EvEffect l e) -> steps (run P l) (perform l e).
Proof.
  intros He s r s' [= <- <-]. cbn.
  split; [done|]. split.
  { intros l' Hl'. cbn. destruct (Nat.eqb_spec l' l); [congruence|reflexivity]. }
  exists [EvEffect l e]. cbn. destruct (Nat.eqb_spec l l); [|congruence].
  split; [done|]. split; [by constructor|done].
Qed.
End Steps.

Ltac steps_step :=
  first
    [ apply steps_bind; [apply _| |intros ?]
    | apply steps_ret; apply _
    | apply steps_lift; apply _
    | apply steps_raise; apply _
    | apply steps_load; apply _
    | apply steps_deref; apply _
    | apply steps_call
    | apply steps_perform
    | match goal with
      | |- steps _ (match ?x with _ => _ end) => destruct x eqn:?
      | |- steps _ (for_each _ _) => cbn [for_each]
      end ].

Ltac unfold_driver :=
  unfold velocity_on, ensure_moments, stochastic_branch, deterministic_branch,
    write_pars, inplace_subset_var, set_layer_rows_at, ensure_layer, set_layer_at,
    set_var_at, compute_stochastic, compute_deterministic, Velocity_init,
    get_residuals, get_pars_names, enumerate.

Ltac solve_steps := unfold_driver; cbn [imap]; repeat steps_step.

(** ** Strings *)

Lemma string_length_app (s1 s2 : string) :
  String.length (s1 +:+ s2) = String.length s1 + String.length s2.
Proof. induction s1 as [|c s1 IH]; simpl; [done|]. by rewrite IH. Qed.

Lemma variance_key_neq (vkey : string) : "variance_" +:+ vkey <> vkey.
Proof.
  intros H. apply (f_equal String.length) in H.
  rewrite string_length_app in H. simpl in H. lia.
Qed.

Section SeqSteps.
Context {R : Type} (A B : relation (State R)).

Lemma steps_seq_l {X Y : Type} (m : M R X) (f : X -> M R Y) :
  Transitive A -> Reflexive B ->
  steps A m -> (forall a, steps (seq_rel A B) (f a)) -> steps (seq_rel A B) (m ≫= f).
Proof.
  intros HA HB Hm Hf s r s' H.
  apply M_bind_inv in H as [(a & s1 & H1 & H2) | (e & H1 & _)].
  - destruct (Hf a _ _ _ H2) as (s2 & HA2 & HB2). exists s2. split; [|done].
    transitivity s1; [by eapply Hm|done].
  - exists s'. split; [by eapply Hm|reflexivity].
Qed.

Lemma steps_seq_r {X Y : Type} (m : M R X) (f : X -> M R Y) :
  Transitive B ->
  steps (seq_rel A B) m -> (forall a, steps B (f a)) -> steps (seq_rel A B) (m ≫= f).
Proof.
  intros HB Hm Hf s r s' H.
  apply M_bind_inv in H as [(a & s1 & H1 & H2) | (e & H1 & _)].
  - destruct (Hm _ _ _ H1) as (s2 & HA2 & HB2). exists s2. split; [done|].
    transitivity s1; [done|by eapply Hf].
  - by eapply Hm.
Qed.

Lemma steps_seq_fst {X : Type} (m : M R X) :
  Reflexive B -> steps A m -> steps (seq_rel A B) m.
Proof. intros HB Hm s r s' H. exists s'. split; [by eapply Hm|reflexivity]. Qed.

Lemma steps_seq_snd {X : Type} (m : M R X) :
  Reflexive A -> steps B m -> steps (seq_rel A B) m.
Proof. intros HA Hm s r s' H. exists s. split; [reflexivity|by eapply Hm]. Qed.
End SeqSteps.

Section ReplayFacts.
Context {R : Type}.
Implicit Types (t : list (Event R)) (a : AnnData R).

Lemma masks_app t1 t2 : masks (t1 ++ t2) = masks t1 ++ masks t2.
Proof. unfold masks. apply omap_app. Qed.

Lemma masks_nil t :
  Forall (fun e => match e with EvEffect _ (SubsetVar _) => False | _ => True end) t ->
  masks t = [].
Proof.
  induction 1 as [|e t He _ IH]; [done|].
  by destruct e as [|? []].
Qed.

Lemma layers_replay key t a :
  Forall (keeps_layer key) t ->
  layers (replay t a) !! key = narrow_layer (masks t) <$> layers a !! key.
Proof.
  intros Ht. revert a. induction Ht as [|e t He _ IH]; intros a.
  - simpl. by destruct (layers a !! key).
  - unfold replay in *. simpl. rewrite IH. clear IH.
    destruct e as [f|l [k x|k x|k c|idx|Ms Mu]]; simpl in *; try done.
    + by rewrite lookup_insert_ne.
    + by rewrite lookup_insert_ne.
    + rewrite lookup_fmap. by destruct (layers a !! key).
    + destruct He. by rewrite !lookup_insert_ne.
Qed.

Lemma var_replay key t a :
  Forall (keeps_var key) t ->
  var (replay t a) !! key = narrow_var (masks t) <$> var a !! key.
Proof.
  intros Ht. revert a. induction Ht as [|e t He _ IH]; intros a.
  - simpl. by destruct (var a !! key).
  - unfold replay in *. simpl. rewrite IH. clear IH.
    destruct e as [f|l [k x|k x|k c|idx|Ms Mu]]; simpl in *; try done.
    + by rewrite lookup_insert_ne.
    + rewrite lookup_fmap. by destruct (var a !! key).
Qed.
End ReplayFacts.

Section DriverFacts.
Context {R : Type} {F : Float R} (C : Collaborators R).
Implicit Types (s : State R) (v velo : Velocity R).

Lemma velocity_on_run adata vkey mode fit_offset fit_offset2 filter_genes groups groupby
    subset_for_fitting use_raw :
  steps (run (fun _ => True) adata)
    (velocity_on C adata vkey mode fit_offset fit_offset2 filter_genes groups groupby
       subset_for_fitting use_raw).
Proof. solve_steps; done. Qed.

(** line 121 and line 172 around [velocity_on] *)
Lemma velocity_body_inv data vkey mode fit_offset fit_offset2 filter_genes groups groupby
    subset_for_fitting use_raw copy s r s' :
  velocity_body C data vkey mode fit_offset fit_offset2 filter_genes groups groupby
    subset_for_fitting use_raw copy s = (r, s') ->
  let adata := if copy then next s else data in
  let s1 := if copy
            then {| heap := fun l' => if Nat.eqb l' (next s) then heap s data else heap s l';
                    next := S (next s); trace := trace s |}
            else s in
  exists r1,
    velocity_on C adata vkey mode fit_offset fit_offset2 filter_genes groups groupby
      subset_for_fitting use_raw s1 = (r1, s') /\
    r = match r1 with
        | Ok velo => Ok (if copy then Some adata else None, velo)
        | Raise e => Raise e
        end.
Proof.
  unfold velocity_body, mbind, M_bind, mret, M_ret, AnnData_copy.
  destruct copy; cbn;
    match goal with
    | |- context [velocity_on ?a ?b ?c ?d ?e ?f ?g ?h ?i ?j ?k ?l] =>
        destruct (velocity_on a b c d e f g h i j k l) as [[velo|e'] s2]
    end; intros [= <- <-]; eauto.
Qed.

Lemma velocity_inv data vkey mode fit_offset fit_offset2 filter_genes groups groupby
    subset_for_fitting use_raw copy s r s' :
  velocity C data vkey mode fit_offset fit_offset2 filter_genes groups groupby
    subset_for_fitting use_raw copy s = (r, s') ->
  exists r1,
    velocity_body C data vkey mode fit_offset fit_offset2 filter_genes groups groupby
      subset_for_fitting use_raw copy s = (r1, s') /\
    r = match r1 with Ok x => Ok x.1 | Raise e => Raise e end.
Proof.
  unfold velocity, mbind, M_bind, mret, M_ret.
  destruct (velocity_body _ _ _ _ _ _ _ _ _ _ _ _ _) as [[x|e'] s2];
    intros [= <- <-]; eauto.
Qed.


Lemma velocity_on_phases adata vkey mode fit_offset fit_offset2 filter_genes groups groupby
    subset_for_fitting use_raw :
  steps (seq_rel (run (fun e => is_result_write e = false) adata)
                 (run (fun e => is_fit_call e = false) adata))
    (velocity_on C adata vkey mode fit_offset fit_offset2 filter_genes groups groupby
       subset_for_fitting use_raw).
Proof.
  unfold velocity_on.
  do 5 (apply steps_seq_l; [apply _|apply _|solve_steps; done|intros ?]).
  apply steps_seq_r; [apply _| |intros ?; solve_steps; done].
  destruct (is_stochastic mode).
  - unfold stochastic_branch.
    do 2 (apply steps_seq_l; [apply _|apply _|solve_steps; done|intros ?]).
    apply steps_seq_snd; [apply _|]. solve_steps; done.
  - apply steps_seq_snd; [apply _|]. solve_steps; done.
Qed.

(** C1, amended.  The log of a call splits in two: a first part [t1] without
    a write of a layer or of an annotation column, and a second part [t2]
    without a call of a fitting function; so every such write comes after
    all fitting of the call.  The dataset the call works on holds the
    content of the original changed by the effects logged.  If the call
    stops in a fitting stage (the last event logged is a call of a fitting
    function) then [t2] is empty: the dataset holds no write of a result
    layer or annotation column, and differs from the original by the other
    effects of [t1] alone, which are the layers [Ms] and [Mu] of [moments]
    and the narrowing of the genes. *)
Theorem writes_follow_fitting data vkey mode fit_offset fit_offset2 filter_genes groups
    groupby subset_for_fitting use_raw copy s r s' :
  velocity C data vkey mode fit_offset fit_offset2 filter_genes groups groupby
    subset_for_fitting use_raw copy s = (r, s') ->
  let adata := if copy then next s else data in
  exists t1 t2,
    trace s' = trace s ++ t1 ++ t2 /\
    Forall (fun e => is_result_write e = false) t1 /\
    Forall (fun e => is_fit_call e = false) t2 /\
    heap s' adata = replay (t1 ++ t2) (heap s data) /\
    forall t e, t1 ++ t2 = t ++ [e] -> is_fit_call e = true ->
                t2 = [] /\ heap s' adata = replay t1 (heap s data).
Proof.
  intros H adata.
  apply velocity_inv in H as (r1 & H & ->).
  apply velocity_body_inv in H as (r2 & Hon & ->).
  apply velocity_on_phases in Hon
    as (s1 & (Hn1 & Hf1 & t1 & Ht1 & HP1 & Hh1) & (Hn2 & Hf2 & t2 & Ht2 & HP2 & Hh2)).
  fold adata in Hh1, Hh2.
  assert (heap s' adata = replay (t1 ++ t2) (heap s data)) as Hheap.
  { rewrite replay_app, Hh2, Hh1. subst adata. destruct copy; cbn; [|done].
    by rewrite Nat.eqb_refl. }
  exists t1, t2. split.
  { rewrite Ht2, Ht1. destruct copy; cbn; by rewrite app_assoc. }
  split; [done|]. split; [done|]. split; [done|].
  intros t e Ht He.
  assert (t2 = []) as ->.
  { destruct t2 as [|e2 t2 _] using rev_ind; [done|].
    rewrite app_assoc in Ht. apply app_inj_tail in Ht as [_ ->].
    rewrite Forall_app, Forall_singleton in HP2. destruct HP2. congruence. }
  split; [done|]. by rewrite app_nil_r in Hheap.
Qed.
End DriverFacts.

(** ** The driver: modes, groups and parameter columns *)

Section DriverRuns.
Context {R : Type} {F : Float R} (C : Collaborators R).
Implicit Types (s : State R) (v velo : Velocity R).

Lemma steps_ensure_moments P adata use_raw :
  P (EvCall f_moments) -> (forall Ms Mu, P (EvEffect adata (Moments Ms Mu))) ->
  steps (run P adata) (ensure_moments C adata use_raw).
Proof. intros. solve_steps; done. Qed.

Lemma obs_replay (t : list (Event R)) (a : AnnData R) : obs (replay t a) = obs a.
Proof.
  revert a. induction t as [|e t IH]; intros a; [done|].
  unfold replay in *. simpl. rewrite IH. by destruct e as [|? []].
Qed.

Lemma ensure_moments_inv adata use_raw s r s' :
  ensure_moments C adata use_raw s = (r, s') ->
  run (fun e => is_fit_call e = false) adata s s' /\
  (forall e, r = Raise e ->
             use_raw = false /\ has_key "Ms" (layers (heap s adata)) = false /\
             moments C (heap s adata) = Raise e).
Proof.
  intros H. split.
  { eapply steps_ensure_moments; [| |exact H]; done. }
  intros e ->. unfold ensure_moments in H.
  apply M_bind_inv in H as [(a & s1 & H1 & H2) | (e' & [=] & _)].
  injection H1 as <- <-.
  destruct use_raw; [done|]. destruct (has_key _ _); [done|]. simpl in H2.
  apply M_bind_inv in H2 as [(a & s1 & H1 & H2) | (e' & H1 & [= <-])].
  - by destruct a.
  - apply call_inv in H1 as [-> _]. done.
Qed.


Lemma velocity_on_Ok adata vkey mode fit_offset fit_offset2 filter_genes groups groupby
    subset_for_fitting use_raw s velo s' :
  velocity_on C adata vkey mode fit_offset fit_offset2 filter_genes groups groupby
    subset_for_fitting use_raw s = (Ok velo, s') ->
  exists groups' v0 velo_det s1 s2 s3 s4,
    let adata_ := match groups' with None => RObj adata | Some g => RRows adata g end in
    ensure_moments C adata use_raw s = (Ok tt, s1) /\
    resolve_groups groups groupby (heap s1 adata) = Ok groups' /\
    Velocity_init adata_ None None subset_for_fitting None use_raw s1 = (Ok v0, s1) /\
    compute_deterministic C fit_offset v0 s1 = (Ok velo_det, s2) /\
    (if is_stochastic mode
     then stochastic_branch C adata adata_ groups' vkey mode fit_offset fit_offset2
            filter_genes subset_for_fitting velo_det
     else deterministic_branch adata groups' vkey velo_det) s2 = (Ok velo, s3) /\
    write_pars adata vkey velo s3 = (Ok tt, s4) /\
    (if filter_genes && several_values Bool.eqb (_velocity_genes velo)
     then inplace_subset_var adata (_velocity_genes velo)
     else mret tt) s4 = (Ok tt, s').
Proof.
  unfold velocity_on. intros H.
  apply M_bind_Ok in H as ([] & s1 & H1 & H).
  apply M_bind_Ok in H as (a & s1' & [= <- <-] & H).
  apply M_bind_Ok in H as (groups' & s1' & [= Hg <-] & H).
  apply M_bind_Ok in H as (v0 & s1' & H2 & H).
  pose proof H2 as H2'. apply Velocity_init_Ok in H2' as [-> _].
  apply M_bind_Ok in H as (velo_det & s2 & H3 & H).
  apply M_bind_Ok in H as (velo' & s3 & H4 & H).
  apply M_bind_Ok in H as ([] & s4 & H5 & H).
  apply M_bind_Ok in H as ([] & s5 & H6 & [= <- <-]).
  eexists groups', v0, velo_det, s1, s2, s3, s4. eauto 10.
Qed.

Lemma for_each_cond_perform {A : Type} adata (l : list A) (cond : A -> bool)
    (eff : A -> Effect R) s r s' :
  for_each l (fun x => if cond x then perform adata (eff x) else mret tt) s = (r, s') ->
  let t := omap (fun x => if cond x then Some (EvEffect adata (eff x)) else None) l in
  r = Ok tt /\ next s' = next s /\
  (forall l', l' <> adata -> heap s' l' = heap s l') /\
  trace s' = trace s ++ t /\
  heap s' adata = replay t (heap s adata).
Proof.
  revert s. induction l as [|x l IH]; intros s H; cbn in *.
  - injection H as <- <-. by rewrite app_nil_r.
  - unfold mbind, M_bind in H. destruct (cond x); cbn in H.
    + apply IH in H as (-> & Hn & Hf & Ht & Hh). cbn in *.
      rewrite Nat.eqb_refl in Hh. rewrite <- app_assoc in Ht.
      split; [done|]. split; [done|]. split; [|done].
      intros l' Hl'. rewrite Hf by done. by destruct (Nat.eqb_spec l' adata).
    + by apply IH in H.
Qed.

Lemma write_pars_inv adata vkey velo s r s' :
  write_pars adata vkey velo s = (r, s') ->
  r = Ok tt /\ next s' = next s /\
  (forall l, l <> adata -> heap s' l = heap s l) /\
  trace s' = trace s ++ pars_events adata vkey velo /\
  heap s' adata = replay (pars_events adata vkey velo) (heap s adata).
Proof.
  change (write_pars adata vkey velo)
    with (for_each (zip get_pars_names (get_pars velo))
            (fun kp => if several_values_col kp.2
                       then perform adata (SetVar (vkey +:+ kp.1) kp.2)
                       else mret tt)).
  apply for_each_cond_perform.
Qed.

Lemma stochastic_branch_Ok adata adata_ groups vkey mode fit_offset fit_offset2
    filter_genes subset_for_fitting velo_det s velo s' :
  stochastic_branch C adata adata_ groups vkey mode fit_offset fit_offset2 filter_genes
    subset_for_fitting velo_det s = (Ok velo, s') ->
  exists v_in sa sb,
    (if filter_genes && several_values Bool.eqb (_velocity_genes velo_det)
     then inplace_subset_var adata (_velocity_genes velo_det) s = (Ok tt, sa) /\
          exists residual,
            Velocity_init adata_ None None subset_for_fitting (Some residual) false sa
            = (Ok v_in, sa)
     else v_in = velo_det /\ sa = s) /\
    compute_stochastic C fit_offset fit_offset2 mode v_in sa = (Ok velo, sb) /\
    run (fun e => is_fit_call e = false /\ is_set_var e = false /\ is_narrowing e = false)
        adata sb s'.
Proof.
  unfold stochastic_branch. intros H.
  apply M_bind_Ok in H as (v_in & sa & H1 & H).
  apply M_bind_Ok in H as (velo' & sb & H2 & H).
  apply M_bind_Ok in H as ([] & sc & H3 & [= <- <-]).
  exists v_in, sa, sb. split; [|split; [done|]].
  - destruct (filter_genes && _).
    + apply M_bind_Ok in H1 as ([] & s1 & H1 & H4).
      apply M_bind_Ok in H4 as (residual & s1' & [_ <-]%lift_inv & H4).
      pose proof H4 as H4'. apply Velocity_init_Ok in H4' as [-> _]. eauto.
    + by injection H1 as <- <-.
  - revert H3. match goal with |- ?m sb = _ -> _ => 
      assert (steps (run (fun e => is_fit_call e = false /\ is_set_var e = false
                                   /\ is_narrowing e = false) adata) m) as Hst
        by (solve_steps; done) end.
    apply Hst.
Qed.

Lemma deterministic_branch_Ok adata groups vkey velo_det s velo s' :
  deterministic_branch adata groups vkey velo_det s = (Ok velo, s') ->
  velo = velo_det /\
  run (fun e => is_fit_call e = false /\ is_set_var e = false /\ is_narrowing e = false)
      adata s s'.
Proof.
  unfold deterministic_branch. intros H.
  apply M_bind_Ok in H as ([] & sc & H3 & [= <- <-]). split; [done|].
  revert H3. match goal with |- ?m s = _ -> _ => 
    assert (steps (run (fun e => is_fit_call e = false /\ is_set_var e = false
                                 /\ is_narrowing e = false) adata) m) as Hst
      by (solve_steps; done) end.
  apply Hst.
Qed.

Lemma run_weaken (P Q : Event R -> Prop) l s s' :
  (forall e, P e -> Q e) -> run P l s s' -> run Q l s s'.
Proof.
  intros HPQ (Hn & Hf & t & Ht & HP & Hh). split; [done|]. split; [done|].
  exists t. split; [done|]. split; [|done]. eapply Forall_impl; eauto.
Qed.

Lemma steps_compute_deterministic P l fit_offset v :
  P (EvCall f_compute_deterministic) -> P (EvCall f_solve_cov) -> P (EvCall f_R_squared) ->
  steps (run P l) (compute_deterministic C fit_offset v).
Proof. intros. solve_steps; done. Qed.

Lemma steps_compute_stochastic P l fit_offset fit_offset2 mode v :
  (_residual v = None ->
   P (EvCall f_compute_deterministic) /\ P (EvCall f_R_squared)) ->
  P (EvCall f_compute_stochastic) -> P (EvCall f_second_order_moments) ->
  P (EvCall f_solve_cov) -> P (EvCall f_solve2_inv) -> P (EvCall f_solve2_mle) ->
  steps (run P l) (compute_stochastic C fit_offset fit_offset2 mode v).
Proof.
  intros Hdet **. unfold compute_stochastic.
  apply steps_bind; [apply _|by apply steps_call|intros _].
  apply steps_bind; [apply _| |intros ?; solve_steps; done].
  destruct (_residual v); [apply steps_ret, _|].
  destruct Hdet; [done|]. by apply steps_compute_deterministic.
Qed.

Lemma steps_inplace_subset_var P l idx :
  P (EvEffect l (SubsetVar idx)) -> steps (run P l) (inplace_subset_var (R:=R) l idx).
Proof. intros. solve_steps; done. Qed.

(** the parameter vectors are written between two stretches of the log that
    write no annotation column *)
Lemma velocity_on_Ok_pars adata vkey mode fit_offset fit_offset2 filter_genes groups
    groupby subset_for_fitting use_raw s velo s' :
  velocity_on C adata vkey mode fit_offset fit_offset2 filter_genes groups groupby
    subset_for_fitting use_raw s = (Ok velo, s') ->
  exists t_pre t_fin,
    trace s' = trace s ++ t_pre ++ pars_events adata vkey velo ++ t_fin /\
    Forall (fun e => is_set_var e = false) t_pre /\
    Forall (fun e => is_set_var e = false) t_fin.
Proof.
  intros H. apply velocity_on_Ok in H
    as (groups' & v0 & velo_det & s1 & s2 & s3 & s4 & H1 & _ & _ & H3 & H4 & H5 & H6).
  assert (run (fun e => is_set_var e = false) adata s s1) as R1
    by (eapply steps_ensure_moments; [| |exact H1]; done).
  assert (run (fun e => is_set_var e = false) adata s1 s2) as R2
    by (eapply steps_compute_deterministic; [| | |exact H3]; done).
  assert (run (fun e => is_set_var e = false) adata s2 s3) as R3.
  { revert H4. match goal with |- ?m s2 = _ -> _ =>
      assert (steps (run (fun e => is_set_var e = false) adata) m) as Hst
        by (destruct (is_stochastic mode); solve_steps; done) end.
    apply Hst. }
  assert (run (fun e => is_set_var e = false) adata s4 s') as R4.
  { revert H6. match goal with |- ?m s4 = _ -> _ =>
      assert (steps (run (fun e => is_set_var e = false) adata) m) as Hst
        by (solve_steps; done) end.
    apply Hst. }
  apply write_pars_inv in H5 as (_ & _ & _ & Ht5 & _).
  destruct (transitivity R1 (transitivity R2 R3)) as (_ & _ & t_pre & Htp & HPp & _).
  destruct R4 as (_ & _ & t_fin & Htf & HPf & _).
  exists t_pre, t_fin. split; [|done].
  rewrite Htf, Ht5, Htp. by rewrite <- !app_assoc.
Qed.

Lemma compute_deterministic_beta fit_offset v s v' s' :
  compute_deterministic C fit_offset v s = (Ok v', s') -> _beta v' = _beta v.
Proof.
  intros H. apply compute_deterministic_Ok in H
    as (? & ? & ? & ? & ? & ? & ? & ? & _ & _ & _ & _ & ->). done.
Qed.

Lemma compute_stochastic_beta fit_offset fit_offset2 mode v s v' s' :
  compute_stochastic C fit_offset fit_offset2 mode v s = (Ok v', s') -> _beta v' = _beta v.
Proof.
  intros H. apply compute_stochastic_Ok in H
    as (v1 & r0 & a & Ms_ & Mu_ & Mss_ & Mus_ & var_ss & cov_us & o & o2 & gm
        & offset & offset2 & gamma & residual & residual2_ & residual2
        & Hv1 & _ & _ & _ & _ & _ & _ & _ & _ & _ & _ & _ & _ & ->).
  cbn. destruct (_residual v); [by subst|].
  destruct Hv1 as (s0 & s1 & Hd). by eapply compute_deterministic_beta.
Qed.

Lemma velocity_on_Ok_beta adata vkey mode fit_offset fit_offset2 filter_genes groups
    groupby subset_for_fitting use_raw s velo s' :
  velocity_on C adata vkey mode fit_offset fit_offset2 filter_genes groups groupby
    subset_for_fitting use_raw s = (Ok velo, s') ->
  exists n, _beta velo = replicate n fone.
Proof.
  intros H. apply velocity_on_Ok in H
    as (groups' & v0 & velo_det & s1 & s2 & s3 & s4 & _ & _ & H2 & H3 & H4 & _ & _).
  apply Velocity_init_Ok in H2 as (_ & a & x & y & _ & _ & _ & Hv0).
  apply compute_deterministic_beta in H3. rewrite Hv0 in H3. cbn in H3.
  destruct (is_stochastic mode).
  - apply stochastic_branch_Ok in H4 as (v_in & sa & sb & Hin & Hcs & _).
    apply compute_stochastic_beta in Hcs. rewrite Hcs.
    destruct (filter_genes && _).
    + destruct Hin as (_ & residual & Hinit).
      apply Velocity_init_Ok in Hinit as (_ & a' & x' & y' & _ & _ & _ & ->).
      by eexists.
    + destruct Hin as [-> _]. by eexists.
  - apply deterministic_branch_Ok in H4 as [-> _]. by eexists.
Qed.

Lemma pars_names_NoDup : NoDup get_pars_names.
Proof. by apply (bool_decide_unpack _). Qed.

Lemma elem_of_pars_events adata vkey velo l k c :
  EvEffect l (SetVar k c) ∈ pars_events adata vkey velo <->
  l = adata /\ several_values_col c = true /\
  exists i key, get_pars_names !! i = Some key /\ get_pars velo !! i = Some c /\
                k = vkey +:+ key.
Proof.
  unfold pars_events. rewrite list_elem_of_omap. split.
  - intros ([key par] & Hin & Hev). cbn in Hev.
    destruct (several_values_col par) eqn:Hpar; [|done].
    injection Hev as <- <- <-.
    apply list_elem_of_lookup in Hin as (i & Hi).
    apply lookup_zip_with_Some in Hi as (key' & par' & [= <- <-] & Hk & Hp).
    eauto 10.
  - intros (-> & Hc & i & key & Hk & Hp & ->).
    exists (key, c). split.
    + apply list_elem_of_lookup. exists i. apply lookup_zip_with_Some. eauto.
    + cbn [fst snd]. by rewrite Hc.
Qed.

(** C7.  In a call that returns, let [velo] be the estimator it ends with.
    For each of the six names, the log of the call holds a write of the
    column [vkey + name] of the gene table exactly when the parameter
    vector of that name holds several values ([len(set(...)) > 1]), and
    what is written is that vector; the column [vkey + '_beta'] is not
    written. *)
Theorem parameter_columns data vkey mode fit_offset fit_offset2 filter_genes groups
    groupby subset_for_fitting use_raw copy s ret velo s' :
  velocity_body C data vkey mode fit_offset fit_offset2 filter_genes groups groupby
    subset_for_fitting use_raw copy s = (Ok (ret, velo), s') ->
  let adata := if copy then next s else data in
  exists t,
    trace s' = trace s ++ t /\
    (forall i key par,
       get_pars_names !! i = Some key -> get_pars velo !! i = Some par ->
       (several_values_col par = true <->
        exists c, EvEffect adata (SetVar (vkey +:+ key) c) ∈ t) /\
       (forall c, EvEffect adata (SetVar (vkey +:+ key) c) ∈ t -> c = par)) /\
    (forall c, EvEffect adata (SetVar (vkey +:+ "_beta") c) ∉ t).
Proof.
  intros H adata.
  apply velocity_body_inv in H as (r2 & Hon & Hr). fold adata in Hon.
  destruct r2 as [velo'|]; [|done]. injection Hr as _ <-.
  pose proof (velocity_on_Ok_beta _ _ _ _ _ _ _ _ _ _ _ _ _ Hon) as [n Hbeta].
  apply velocity_on_Ok_pars in Hon as (t_pre & t_fin & Ht & Hpre & Hfin).
  assert (forall k c, EvEffect adata (SetVar k c) ∈ t_pre ++ pars_events adata vkey velo ++ t_fin
                      <-> EvEffect adata (SetVar k c) ∈ pars_events adata vkey velo) as Hin.
  { intros k c. rewrite !elem_of_app. split; [|tauto].
    rewrite Forall_forall in Hpre, Hfin.
    intros [Hp|[Hp|Hp]]; [|done|].
    - by apply Hpre in Hp.
    - by apply Hfin in Hp. }
  assert (forall i key par c,
            get_pars_names !! i = Some key -> get_pars velo !! i = Some par ->
            EvEffect adata (SetVar (vkey +:+ key) c) ∈ pars_events adata vkey velo ->
            c = par /\ several_values_col par = true) as Huniq.
  { intros i key par c Hk Hp (_ & Hc & j & key' & Hk' & Hp' & Heq)%elem_of_pars_events.
    apply (inj (String.app vkey)) in Heq as <-.
    assert (i = j) as <- by (eapply NoDup_lookup; eauto using pars_names_NoDup).
    rewrite Hp in Hp'. by injection Hp' as <-. }
  exists (t_pre ++ pars_events adata vkey velo ++ t_fin).
  split; [by destruct copy|]. split.
  - intros i key par Hk Hp. split; [split|].
    + intros Hs. exists par. apply Hin, elem_of_pars_events. eauto 10.
    + intros [c Hc]. apply Hin in Hc. by destruct (Huniq _ _ _ _ Hk Hp Hc).
    + intros c Hc. apply Hin in Hc. by destruct (Huniq _ _ _ _ Hk Hp Hc).
  - intros c Hc. apply Hin in Hc.
    destruct (Huniq 2 "_beta" (FloatCol (_beta velo)) c eq_refl eq_refl Hc) as [_ Hs].
    change (several_values feqb (_beta velo) = true) in Hs.
    rewrite Hbeta, several_values_replicate in Hs; [done|]. apply feqb_one.
Qed.
End DriverRuns.

(** ** The estimator rebuilt after the genes are narrowed *)

Section Rebuild.
Context {R : Type} {F : Float R} (C : Collaborators R).
Implicit Types (s : State R) (v velo : Velocity R).

Lemma compute_deterministic_state fit_offset v s v' s' :
  compute_deterministic C fit_offset v s = (Ok v', s') ->
  s' = {| heap := heap s; next := next s;
          trace := trace s ++ [EvCall f_compute_deterministic; EvCall f_solve_cov;
                               EvCall f_R_squared] |}.
Proof.
  unfold compute_deterministic. intros H. inv_M H.
  match goal with
  | Hs : match _subset v with _ => _ end _ = (Ok _, ?s1) |- _ =>
      assert (s1 = {| heap := heap s; next := next s;
                      trace := trace s ++ [EvCall f_compute_deterministic;
                                           EvCall f_solve_cov] |})
        by (destruct (_subset v); inv_M Hs; inv_prim;
            repeat match goal with
                   | Hl : log _ _ = (_, _) |- _ => injection Hl as <-
                   end; subst; cbn; by rewrite <- ?app_assoc)
  end.
  inv_prim. subst. cbn. by rewrite <- app_assoc.
Qed.

Lemma inplace_subset_var_Ok l idx s s' :
  inplace_subset_var (R:=R) l idx s = (Ok tt, s') ->
  s' = {| heap := fun l' => if Nat.eqb l' l then take_cols idx (heap s l) else heap s l';
          next := next s; trace := trace s ++ [EvEffect l (SubsetVar idx)] |}.
Proof.
  unfold inplace_subset_var. intros H.
  apply M_bind_Ok in H as (a & s1 & [= <- <-] & H).
  destruct (Nat.eqb _ _); [|done]. by injection H as <-.
Qed.

Lemma pars_events_after_narrowing adata vkey velo n :
  _r2 velo = np_zeros n -> _velocity_genes velo = np_ones true n ->
  Forall (after_narrowing (vkey +:+ "_r2") (vkey +:+ "_genes"))
         (pars_events adata vkey velo).
Proof.
  intros Hr2 Hgenes. apply Forall_forall. intros e He.
  assert (exists l k c, e = EvEffect l (SetVar k c)) as (l & k & c & ->).
  { unfold pars_events in He. apply list_elem_of_omap in He as ([key par] & _ & He).
    cbn in He. destruct (several_values_col par); [|done]. injection He as <-. eauto. }
  apply elem_of_pars_events in He as (-> & Hc & i & key & Hk & Hp & ->).
  split; [done|]. split; [done|].
  assert (key <> "_r2" /\ key <> "_genes") as [H1 H2].
  { split; intros ->.
    - assert (i = 4) as -> by (eapply NoDup_lookup; eauto using pars_names_NoDup).
      injection Hp as <-. cbn in Hc.
      change (several_values feqb (_r2 velo) = true) in Hc.
      rewrite Hr2 in Hc. unfold np_zeros in Hc.
      rewrite several_values_replicate in Hc; [done|apply feqb_zero].
    - assert (i = 5) as -> by (eapply NoDup_lookup; eauto using pars_names_NoDup).
      injection Hp as <-.
      change (several_values Bool.eqb (_velocity_genes velo) = true) in Hc.
      rewrite Hgenes in Hc. unfold np_ones in Hc.
      rewrite several_values_replicate in Hc; done. }
  split; cbn; intros Heq; by apply (inj (String.app vkey)) in Heq.
Qed.

Lemma after_narrowing_log key1 key2 (t : list (Event R)) :
  Forall (after_narrowing key1 key2) t ->
  List.filter is_deterministic_run t = [] /\ masks t = [] /\
  Forall (keeps_var key1) t /\ Forall (keeps_var key2) t.
Proof.
  induction 1 as [|e t (H1 & H2 & H3 & H4) _ (IH1 & IH2 & IH3 & IH4)]; [done|].
  cbn. rewrite H1. split; [done|]. split; [|by split; constructor].
  rewrite <- IH2. by destruct e as [|? []].
Qed.

(** the same call, on the object it works on *)
Lemma velocity_on_rebuild adata vkey mode fit_offset fit_offset2 groups groupby
    subset_for_fitting use_raw s velo s' :
  is_stochastic mode = true ->
  velocity_on C adata vkey mode fit_offset fit_offset2 true groups groupby
    subset_for_fitting use_raw s = (Ok velo, s') ->
  exists groups' v0 s1 s2 velo_det t,
    ensure_moments C adata use_raw s = (Ok tt, s1) /\
    resolve_groups groups groupby (heap s1 adata) = Ok groups' /\
    Velocity_init (match groups' with None => RObj adata | Some g => RRows adata g end)
      None None subset_for_fitting None use_raw s1 = (Ok v0, s1) /\
    compute_deterministic C fit_offset v0 s1 = (Ok velo_det, s2) /\
    trace s' = trace s ++ t /\
    (several_values Bool.eqb (_velocity_genes velo_det) = true ->
     let idx := _velocity_genes velo_det in
     let n := (shape (_Ms velo)).2 in
     length (List.filter is_deterministic_run t) = 1 /\
     _r2 velo = np_zeros n /\
     _velocity_genes velo = np_ones true n /\
     masks t = [idx] /\
     forall key, key = "_r2" \/ key = "_genes" ->
       (forall l c, EvEffect l (SetVar (vkey +:+ key) c) ∉ t) /\
       var (heap s' adata) !! (vkey +:+ key)
       = varcol_select idx <$> var (heap s adata) !! (vkey +:+ key)).
Proof.
  intros Hmode H.
  pose proof H as Hrun. apply velocity_on_run in Hrun as (_ & _ & t & Ht & _ & Hheap).
  apply velocity_on_Ok in H
    as (groups' & v0 & velo_det & s1 & s2 & s3 & s4 & H1 & Hg & H2 & H3 & H4 & H5 & H6).
  exists groups', v0, s1, s2, velo_det, t.
  repeat (split; [done|]).
  intros Hmask idx n. rewrite Hmode in H4.
  set (P := after_narrowing (R:=R) (vkey +:+ "_r2") (vkey +:+ "_genes")).
  (* before the narrowing *)
  assert (run P adata s s1) as (_ & _ & t1 & Ht1 & HP1 & _)
    by (eapply steps_ensure_moments; [| |exact H1]; done).
  apply compute_deterministic_state in H3.
  (* the narrowing and the estimator rebuilt on it *)
  apply stochastic_branch_Ok in H4 as (v_in & sa & sb & Hin & Hcs & Rwr).
  cbn [andb] in Hin. rewrite Hmask in Hin. destruct Hin as (Hsub & residual & Hinit).
  apply inplace_subset_var_Ok in Hsub.
  apply Velocity_init_Ok in Hinit as (_ & a & x & y & _ & _ & _ & Hv_in).
  assert (_residual v_in <> None) as Hres by (by rewrite Hv_in).
  assert (run P adata sa sb) as (_ & _ & t2 & Ht2 & HP2 & _).
  { eapply steps_compute_stochastic; [| | | | | |exact Hcs]; done. }
  assert (_r2 velo = np_zeros n /\ _velocity_genes velo = np_ones true n) as [Hr2 Hgenes].
  { apply compute_stochastic_Ok in Hcs
      as (v1 & r0 & a' & Ms_ & Mu_ & Mss_ & Mus_ & var_ss & cov_us & o & o2 & gm
          & offset & offset2 & gamma & residual' & residual2_ & residual2
          & Hv1 & _ & _ & _ & _ & _ & _ & _ & _ & _ & _ & _ & _ & Hvelo).
    destruct (_residual v_in); [|done]. subst v1 n. rewrite Hvelo, Hv_in. done. }
  (* the writes *)
  assert (run P adata sb s3) as (_ & _ & t3 & Ht3 & HP3 & _).
  { eapply run_weaken; [|exact Rwr]. intros e (Hf & Hv & Hn).
    split; [by destruct e as [[]|]|]. split; [done|].
    split; by destruct e as [|? []]. }
  apply write_pars_inv in H5 as (_ & _ & _ & Ht4 & _).
  pose proof (pars_events_after_narrowing adata vkey velo n Hr2 Hgenes) as HP4.
  (* no second narrowing *)
  assert (s' = s4) as ->.
  { rewrite Hgenes in H6. unfold np_ones in H6.
    rewrite several_values_replicate in H6 by done. by injection H6. }
  assert (t = t1 ++ [EvCall f_compute_deterministic; EvCall f_solve_cov; EvCall f_R_squared]
              ++ [EvEffect adata (SubsetVar idx)] ++ t2 ++ t3 ++ pars_events adata vkey velo)
    as Ht_eq.
  { apply (app_inv_head (trace s)). rewrite <- Ht, Ht4, Ht3, Ht2, Hsub, H3, Ht1. cbn.
    by rewrite <- !app_assoc. }
  destruct (after_narrowing_log _ _ _ HP1) as (Hd1 & Hm1 & Hk1 & Hk1').
  destruct (after_narrowing_log _ _ _ HP2) as (Hd2 & Hm2 & Hk2 & Hk2').
  destruct (after_narrowing_log _ _ _ HP3) as (Hd3 & Hm3 & Hk3 & Hk3').
  destruct (after_narrowing_log _ _ _ HP4) as (Hd4 & Hm4 & Hk4 & Hk4').
  split.
  { rewrite Ht_eq, !List.filter_app, Hd1, Hd2, Hd3, Hd4. done. }
  split; [done|]. split; [done|].
  assert (masks t = [idx]) as Hmasks.
  { rewrite Ht_eq, !masks_app, Hm1, Hm2, Hm3, Hm4. done. }
  split; [done|].
  assert (forall key, key = "_r2" \/ key = "_genes" -> Forall (keeps_var (vkey +:+ key)) t)
    as Hkeep.
  { intros key Hkey. rewrite Ht_eq. rewrite !Forall_app.
    destruct Hkey as [-> | ->]; repeat split; try done; by repeat constructor. }
  intros key Hkey. split.
  - intros l c Hin. specialize (Hkeep key Hkey). rewrite Forall_forall in Hkeep.
    by apply Hkeep in Hin.
  - rewrite Hheap, (var_replay _ _ _ (Hkeep key Hkey)), Hmasks. done.
Qed.
End Rebuild.

(** ** The layers a call leaves *)

Section Present.
Context {R : Type} {F : Float R} (C : Collaborators R).
Implicit Types (s : State R) (v velo : Velocity R).

Lemma layer_present_effect key (e : Effect R) (a : AnnData R) :
  is_Some (layers a !! key) -> is_Some (layers (apply_effect e a) !! key).
Proof.
  intros Ha. destruct e as [k x|k x|k c|idx|Ms Mu]; cbn; try done.
  - destruct (decide (k = key)) as [->|]; [rewrite lookup_insert_eq|rewrite lookup_insert_ne]; done.
  - destruct (decide (k = key)) as [->|]; [rewrite lookup_insert_eq|rewrite lookup_insert_ne]; done.
  - rewrite lookup_fmap. by apply fmap_is_Some.
  - destruct (decide ("Mu" = key)) as [<-|]; [by rewrite lookup_insert_eq|].
    rewrite lookup_insert_ne by done.
    destruct (decide ("Ms" = key)) as [<-|]; [by rewrite lookup_insert_eq|].
    by rewrite lookup_insert_ne.
Qed.

Lemma layer_present_replay key (t : list (Event R)) (a : AnnData R) :
  is_Some (layers a !! key) -> is_Some (layers (replay t a) !! key).
Proof.
  revert a. induction t as [|e t IH]; intros a Ha; [done|].
  unfold replay in *. cbn. apply IH. destruct e; [done|]. by apply layer_present_effect.
Qed.

Lemma has_layer_run P l key s s' :
  run P l s s' -> has_layer l key s -> has_layer l key s'.
Proof.
  intros (_ & _ & t & _ & _ & Hh). unfold has_layer. rewrite Hh.
  apply layer_present_replay.
Qed.

Lemma set_layer_at_Ok l key value s s' :
  set_layer_at l key value s = (Ok tt, s') ->
  run (fun _ => True) l s s' /\ has_layer l key s'.
Proof.
  unfold set_layer_at. intros H. destruct value as [m|]; [|done]. split.
  - eapply steps_perform; [|exact H]. done.
  - injection H as <-. unfold has_layer. cbn. rewrite Nat.eqb_refl. cbn.
    by rewrite lookup_insert_eq.
Qed.

Lemma set_layer_rows_at_Ok l key groups value s s' :
  set_layer_rows_at l key groups value s = (Ok tt, s') ->
  run (fun _ => True) l s s' /\ has_layer l key s'.
Proof.
  unfold set_layer_rows_at. intros H. split.
  - revert H. match goal with |- ?m s = _ -> _ =>
      assert (steps (run (fun _ => True) l) m) as Hst by (solve_steps; done) end.
    apply Hst.
  - inv_M H. inv_prim. subst. injection H as <-. unfold has_layer. cbn.
    rewrite Nat.eqb_refl. cbn. by rewrite lookup_insert_eq.
Qed.

Lemma ensure_layer_run l key s r s' :
  ensure_layer (F:=F) l key s = (r, s') -> run (fun _ => True) l s s'.
Proof.
  revert s r s'. change (steps (run (fun _ => True) l) (ensure_layer (F:=F) l key)).
  solve_steps; done.
Qed.

Lemma deterministic_branch_layer adata groups vkey velo_det s velo s' :
  deterministic_branch adata groups vkey velo_det s = (Ok velo, s') ->
  has_layer adata vkey s'.
Proof.
  unfold deterministic_branch, get_residuals. intros H.
  apply M_bind_Ok in H as ([] & s1 & H & [= _ <-]).
  destruct groups as [g|].
  - apply M_bind_Ok in H as ([] & s2 & _ & H).
    by apply set_layer_rows_at_Ok in H as [_ H].
  - by apply set_layer_at_Ok in H as [_ H].
Qed.

Lemma stochastic_branch_layer adata adata_ groups vkey mode fit_offset fit_offset2
    filter_genes subset_for_fitting velo_det s velo s' :
  stochastic_branch C adata adata_ groups vkey mode fit_offset fit_offset2 filter_genes
    subset_for_fitting velo_det s = (Ok velo, s') ->
  has_layer adata vkey s' /\ has_layer adata ("variance_" +:+ vkey) s'.
Proof.
  unfold stochastic_branch, get_residuals. intros H.
  apply M_bind_Ok in H as (v_in & sa & _ & H).
  apply M_bind_Ok in H as (velo' & sb & _ & H).
  apply M_bind_Ok in H as ([] & s1 & H & [= _ <-]).
  destruct groups as [g|].
  - apply M_bind_Ok in H as ([] & s2 & _ & H).
    apply M_bind_Ok in H as ([] & s3 & _ & H).
    apply M_bind_Ok in H as ([] & s4 & H1 & H2).
    apply set_layer_rows_at_Ok in H1 as [_ H1].
    apply set_layer_rows_at_Ok in H2 as [R2 H2].
    split; [by eapply has_layer_run|done].
  - apply M_bind_Ok in H as ([] & s2 & H1 & H2).
    apply set_layer_at_Ok in H1 as [_ H1].
    apply set_layer_at_Ok in H2 as [R2 H2].
    split; [by eapply has_layer_run|done].
Qed.

(** a call that returns leaves the layer [vkey] in the object it worked on,
    and in stochastic mode the layer ['variance_' + vkey] as well *)
Lemma velocity_on_Ok_layers adata vkey mode fit_offset fit_offset2 filter_genes groups
    groupby subset_for_fitting use_raw s velo s' :
  velocity_on C adata vkey mode fit_offset fit_offset2 filter_genes groups groupby
    subset_for_fitting use_raw s = (Ok velo, s') ->
  has_layer adata vkey s' /\
  (is_stochastic mode = true -> has_layer adata ("variance_" +:+ vkey) s').
Proof.
  intros H. apply velocity_on_Ok in H
    as (groups' & v0 & velo_det & s1 & s2 & s3 & s4 & _ & _ & _ & _ & H4 & H5 & H6).
  assert (run (fun _ => True) adata s3 s') as Hrest.
  { transitivity s4.
    - apply write_pars_inv in H5 as (_ & Hn & Hf & Ht & Hh).
      split; [done|]. split; [done|]. eexists. split; [done|]. split; [|done].
      by apply Forall_forall.
    - revert H6. match goal with |- ?m s4 = _ -> _ =>
        assert (steps (run (fun _ => True) adata) m) as Hst by (solve_steps; done) end.
      apply Hst. }
  destruct (is_stochastic mode).
  - apply stochastic_branch_layer in H4 as [H4 H4'].
    split; [|intros _]; by eapply has_layer_run.
  - apply deterministic_branch_layer in H4. split; [|done]. by eapply has_layer_run.
Qed.
End Present.

(** ** The driver as a whole *)

Section Driver.
Context {R : Type} {F : Float R} (C : Collaborators R).
Implicit Types (s : State R) (v velo : Velocity R).

(** C8.  A call with [copy=True] leaves the caller's dataset, and every
    other object of the store, as it was, whether the call returns or
    raises; what it returns is a new object, which holds the content of the
    original changed by the effects [t] the call logs, the layer [vkey]
    among them.  A call with [copy=False] applies the same effects to the
    caller's object itself, touches no other object, and returns [None]. *)
Theorem velocity_copy data vkey mode fit_offset fit_offset2 filter_genes groups groupby
    subset_for_fitting use_raw copy s r s' :
  data < next s ->
  velocity C data vkey mode fit_offset fit_offset2 filter_genes groups groupby
    subset_for_fitting use_raw copy s = (r, s') ->
  exists t,
    trace s' = trace s ++ t /\
    if copy then
      heap s' data = heap s data /\
      (forall l, l < next s -> heap s' l = heap s l) /\
      heap s' (next s) = replay t (heap s data) /\
      (forall x, r = Ok x -> x = Some (next s) /\ has_layer (next s) vkey s')
    else
      (forall l, l <> data -> heap s' l = heap s l) /\
      heap s' data = replay t (heap s data) /\
      (forall x, r = Ok x -> x = None /\ has_layer data vkey s').
Proof.
  intros Hdata H.
  apply velocity_inv in H as (r1 & H & ->).
  apply velocity_body_inv in H as (r2 & Hon & ->).
  pose proof Hon as Hrun.
  apply velocity_on_run in Hrun as (Hn & Hf & t & Ht & _ & Hh).
  assert (forall velo, r2 = Ok velo -> has_layer (if copy then next s else data) vkey s')
    as Hlayer.
  { intros velo ->. by apply (velocity_on_Ok_layers C) in Hon as [Hl _]. }
  exists t. destruct copy; cbn in *.
  - split; [done|].
    assert (forall l, l < next s -> heap s' l = heap s l) as Hlt.
    { intros l Hl. rewrite Hf by lia. destruct (Nat.eqb_spec l (next s)); [lia|done]. }
    split; [by apply Hlt|]. split; [done|].
    split; [by rewrite Hh, Nat.eqb_refl|].
    intros x Hx. destruct r2 as [velo|]; [|done]. injection Hx as <-. eauto.
  - split; [done|]. split; [done|]. split; [done|].
    intros x Hx. destruct r2 as [velo|]; [|done]. injection Hx as <-. eauto.
Qed.

(** lines 122 to 170 in deterministic mode: what comes before the gene
    filtering that ends the call logs calls of [moments] and of the
    deterministic stage and writes of the layer [vkey], and no narrowing; a
    call that raises ends there, and a call that returns ends with the
    filtering of lines 169 and 170 on the estimator of the deterministic
    stage *)
Lemma velocity_on_deterministic_inv adata vkey mode fit_offset fit_offset2 filter_genes
    groups groupby subset_for_fitting use_raw s r s' :
  is_stochastic mode = false ->
  velocity_on C adata vkey mode fit_offset fit_offset2 filter_genes groups groupby
    subset_for_fitting use_raw s = (r, s') ->
  exists s4,
    run (fun e => deterministic_only adata vkey e /\ is_narrowing e = false) adata s s4 /\
    match r with
    | Ok velo =>
        (exists v0 sa sb, compute_deterministic C fit_offset v0 sa = (Ok velo, sb)) /\
        (if filter_genes && several_values Bool.eqb (_velocity_genes velo)
         then inplace_subset_var adata (_velocity_genes velo)
         else mret tt) s4 = (Ok tt, s')
    | Raise _ => s' = s4
    end.
Proof.
  intros Hmode H. unfold velocity_on in H. rewrite Hmode in H.
  set (P := fun e : Event R => deterministic_only adata vkey e /\ is_narrowing e = false).
  assert (forall X (m : M R X) s0 r0 s1,
            steps (run P adata) m -> m s0 = (r0, s1) -> run P adata s0 s1) as Hp
    by (intros X m s0 r0 s1 Hst Hm; exact (Hst _ _ _ Hm)).
  apply M_bind_inv in H as [(a1 & s1 & H1 & H) | (e & H1 & ->)];
    [|exists s'; split; [|done]; eapply Hp; [|exact H1]; subst P; solve_steps; done].
  assert (run P adata s s1) as R1 by (eapply Hp; [|exact H1]; subst P; solve_steps; done).
  clear H1.
  apply M_bind_inv in H as [(a & s1' & [= <- <-] & H) | (e & [=] & _)].
  apply M_bind_inv in H as [(groups' & s1' & [= Hg <-] & H) | (e & [= _ <-] & ->)];
    [|by exists s1].
  apply M_bind_inv in H as [(v0 & s1' & H2 & H) | (e & H2 & ->)];
    [|exists s'; split; [|done]; etransitivity; [exact R1|];
      eapply Hp; [|exact H2]; subst P; solve_steps; done].
  assert (run P adata s s1') as R2
    by (etransitivity; [exact R1|]; eapply Hp; [|exact H2]; subst P; solve_steps; done).
  clear R1 H2.
  apply M_bind_inv in H as [(velo & s2 & H3 & H) | (e & H3 & ->)];
    [|exists s'; split; [|done]; etransitivity; [exact R2|];
      eapply Hp; [|exact H3]; subst P; solve_steps; done].
  assert (run P adata s s2) as R3
    by (etransitivity; [exact R2|]; eapply Hp; [|exact H3]; subst P; solve_steps; done).
  clear R2.
  apply M_bind_inv in H as [(velo' & s3 & H4 & H) | (e & H4 & ->)];
    [|exists s'; split; [|done]; etransitivity; [exact R3|];
      eapply Hp; [|exact H4]; subst P; solve_steps; done].
  assert (run P adata s s3) as R4
    by (etransitivity; [exact R3|]; eapply Hp; [|exact H4]; subst P; solve_steps; done).
  apply deterministic_branch_Ok in H4 as [-> _]. clear R3.
  apply M_bind_inv in H as [([] & s4 & H5 & H) | (e & H5 & ->)];
    [|exists s'; split; [|done]; etransitivity; [exact R4|];
      eapply Hp; [|exact H5]; subst P; solve_steps; done].
  assert (run P adata s s4) as R5
    by (etransitivity; [exact R4|]; eapply Hp; [|exact H5]; subst P; solve_steps; done).
  clear R4 H5. exists s4. split; [done|].
  apply M_bind_inv in H as [([] & s5 & H6 & [= <- <-]) | (e & H6 & ->)].
  - split; [eauto|done].
  - destruct (filter_genes && _); [|done].
    unfold inplace_subset_var in H6.
    apply M_bind_inv in H6 as [(a' & s5 & [= <- <-] & H6) | (e' & [=] & _)].
    destruct (Nat.eqb _ _); [done|]. by injection H6 as <- <-.
Qed.

(** C6, amended.  When [mode] is [None], or a string that is not
    stochastic-like (the test of line 139 fails), the call logs only calls
    of [moments] and of the functions of the deterministic stage, and the
    only layer the driver assigns is [vkey], which a call that returns
    leaves in the dataset.  The layer ['variance_' + vkey] is never created
    and never assigned.  A call that raises narrows nothing and leaves that
    layer as it was.  A call that returns ends with the estimator [velo] of
    the deterministic stage: if [filter_genes] is set and the mask of
    velocity genes of [velo] holds several values, the one narrowing of the
    call is by that mask, and the layer is that of the input restricted to
    the columns the mask selects; otherwise the call narrows nothing and
    the layer is left as it was.  ([velocity] returns the first component
    of what [velocity_body] returns.) *)
Theorem deterministic_mode data vkey mode fit_offset fit_offset2 filter_genes groups
    groupby subset_for_fitting use_raw copy s r s' :
  is_stochastic mode = false ->
  velocity_body C data vkey mode fit_offset fit_offset2 filter_genes groups groupby
    subset_for_fitting use_raw copy s = (r, s') ->
  let adata := if copy then next s else data in
  let vkey2 := "variance_" +:+ vkey in
  let old := layers (heap s data) !! vkey2 in
  exists t,
    trace s' = trace s ++ t /\
    Forall (deterministic_only adata vkey) t /\
    match r with
    | Ok (ret, velo) =>
        let idx := _velocity_genes velo in
        has_layer adata vkey s' /\
        (exists v0 sa sb, compute_deterministic C fit_offset v0 sa = (Ok velo, sb)) /\
        if filter_genes && several_values Bool.eqb idx
        then masks t = [idx] /\
             layers (heap s' adata) !! vkey2 = array_cols idx <$> old
        else masks t = [] /\ layers (heap s' adata) !! vkey2 = old
    | Raise _ => masks t = [] /\ layers (heap s' adata) !! vkey2 = old
    end.
Proof.
  intros Hmode H adata vkey2 old.
  apply velocity_body_inv in H as (r2 & Hon & ->). fold adata in Hon.
  assert (forall velo, r2 = Ok velo -> has_layer adata vkey s') as Hlayer.
  { intros velo ->. by apply (velocity_on_Ok_layers C) in Hon as [Hl _]. }
  apply (velocity_on_deterministic_inv _ vkey) in Hon
    as (s4 & (Hn & Hf & t1 & Ht1 & HP1 & Hh1) & Hfin); [|done].
  assert (heap s4 adata = replay t1 (heap s data)) as Hh4.
  { rewrite Hh1. subst adata. destruct copy; cbn; [|done]. by rewrite Nat.eqb_refl. }
  assert (trace s4 = trace s ++ t1) as Ht4 by (rewrite Ht1; by destruct copy).
  clear Hh1 Ht1 Hn Hf.
  assert (Forall (deterministic_only adata vkey) t1) as HD1
    by (eapply Forall_impl; [exact HP1|]; by intros e [? ?]).
  assert (masks t1 = []) as Hm1.
  { apply masks_nil. eapply Forall_impl; [exact HP1|].
    intros [|? []] [_ He]; done. }
  assert (layers (heap s4 adata) !! vkey2 = old) as Hold.
  { rewrite Hh4, (layers_replay vkey2 t1), Hm1; [subst old; by destruct (layers _ !! _)|].
    eapply Forall_impl; [exact HD1|].
    intros [[]|l [k x|k x|k c|idx|Ms Mu]]; simpl; try done.
    - intros [_ ->] Heq. by apply (variance_key_neq vkey).
    - intros [_ ->] Heq. by apply (variance_key_neq vkey). }
  destruct r2 as [velo|e].
  - destruct Hfin as [Hdet Hfin]. cbv zeta. set (idx := _velocity_genes velo) in *.
    destruct (filter_genes && several_values Bool.eqb idx).
    + apply inplace_subset_var_Ok in Hfin as ->. cbn.
      exists (t1 ++ [EvEffect adata (SubsetVar idx)]).
      split; [by rewrite Ht4, app_assoc|]. split.
      { apply Forall_app. split; [done|]. by apply Forall_singleton. }
      split.
      { specialize (Hlayer velo eq_refl). exact Hlayer. }
      split; [done|]. split; [by rewrite masks_app, Hm1|].
      rewrite Nat.eqb_refl. cbn. by rewrite lookup_fmap, Hold.
    + injection Hfin as <-. exists t1. cbn. eauto 10.
  - subst s'. exists t1. eauto.
Qed.

(** C9, amended.  In a call in stochastic mode with [filter_genes=True]
    that returns, let [velo_det] be the estimator after the deterministic
    stage.  If its mask holds several values, the genes are narrowed to it
    and the estimator is rebuilt; then the log of the call holds one run of
    the deterministic stage; the estimator the call ends with has an [r2]
    vector of zeros and a mask of ones; the call writes neither the column
    [vkey + '_r2'] nor the column [vkey + '_genes'], so that the output has
    such a column only if the input had it, and then the column of the
    input restricted to the genes kept; and the log holds the one mask of
    the narrowing: the genes are not filtered again when the call ends. *)
Theorem stochastic_filter_rebuild data vkey mode fit_offset fit_offset2 groups groupby
    subset_for_fitting use_raw copy s ret velo s' :
  is_stochastic mode = true ->
  velocity_body C data vkey mode fit_offset fit_offset2 true groups groupby
    subset_for_fitting use_raw copy s = (Ok (ret, velo), s') ->
  let adata := if copy then next s else data in
  exists groups' v0 s0 s1 s2 velo_det t,
    s0 = (if copy
          then {| heap := fun l' => if Nat.eqb l' (next s) then heap s data else heap s l';
                  next := S (next s); trace := trace s |}
          else s) /\
    ensure_moments C adata use_raw s0 = (Ok tt, s1) /\
    resolve_groups groups groupby (heap s1 adata) = Ok groups' /\
    Velocity_init (match groups' with None => RObj adata | Some g => RRows adata g end)
      None None subset_for_fitting None use_raw s1 = (Ok v0, s1) /\
    compute_deterministic C fit_offset v0 s1 = (Ok velo_det, s2) /\
    trace s' = trace s ++ t /\
    (several_values Bool.eqb (_velocity_genes velo_det) = true ->
     let idx := _velocity_genes velo_det in
     let n := (shape (_Ms velo)).2 in
     length (List.filter is_deterministic_run t) = 1 /\
     _r2 velo = np_zeros n /\
     _velocity_genes velo = np_ones true n /\
     masks t = [idx] /\
     forall key, key = "_r2" \/ key = "_genes" ->
       (forall l c, EvEffect l (SetVar (vkey +:+ key) c) ∉ t) /\
       var (heap s' adata) !! (vkey +:+ key)
       = varcol_select idx <$> var (heap s data) !! (vkey +:+ key)).
Proof.
  intros Hmode H adata.
  apply velocity_body_inv in H as (r2 & Hon & Hr). fold adata in Hon.
  destruct r2 as [velo'|]; [|done]. injection Hr as _ <-.
  apply velocity_on_rebuild in Hon
    as (groups' & v0 & s1 & s2 & velo_det & t & H1 & Hg & H2 & H3 & Ht & Himp); [|done].
  eexists groups', v0, _, s1, s2, velo_det, t.
  split; [reflexivity|]. repeat (split; [done|]).
  split; [by destruct copy|].
  intros Hmask. specialize (Himp Hmask). cbn zeta in Himp |- *.
  destruct Himp as (Hc & Hr2 & Hgenes & Hmasks & Hcols).
  repeat (split; [done|]).
  intros key Hkey. destruct (Hcols key Hkey) as [Hno Hvar]. split; [done|].
  rewrite Hvar. subst adata. destruct copy; cbn; [|done]. by rewrite Nat.eqb_refl.
Qed.
End Driver.

(** ** The statements at work on the examples *)

Section Witnesses.
Import Rational Example.

Lemma velocity_genes_rule_witness :
  _velocity_genes velo_init = [true; true; true] /\
  _velocity_genes velo_det !! 1 = Some false.
Proof.
  destruct (velocity_genes_rule collaborators) as [Hinit Hdet]. split.
  - assert (Velocity_init (RObj 0) None None None None false (state_of smoothed)
            = (Ok velo_init, state_of smoothed)) as Hrun by (vm_compute; reflexivity).
    rewrite (Hinit _ _ _ _ _ _ _ _ _ Hrun). reflexivity.
  - assert (exists s', compute_deterministic collaborators false velo_init (state_of smoothed)
                       = (Ok velo_det, s')) as [s' Hrun]
      by (eexists; vm_compute; reflexivity).
    destruct (Hdet _ _ _ _ _ Hrun) as (_ & _ & _ & Hrule).
    exact (Hrule 1 (-1 # 2)%Q 0%Q eq_refl eq_refl).
Defined.

Lemma stochastic_excluded_gene_witness :
  several_values Bool.eqb (_velocity_genes velo_det) = true /\
  _velocity_genes velo_det !! 1 = Some false /\
  _gamma velo_sto !! 1 = _gamma velo_det !! 1 /\
  exists residual2,
    _residual2 velo_sto = Some residual2 /\
    forall row, row ∈ residual2 -> row !! 1 = Some 0%Q.
Proof.
  assert (exists s', compute_stochastic collaborators false false (Some "stochastic")
                       velo_det (state_of smoothed) = (Ok velo_sto, s')) as [s' Hrun]
    by (eexists; vm_compute; reflexivity).
  destruct (stochastic_excluded_gene collaborators _ _ _ _ _ _ _ 1 Hrun)
    as (v1 & Hv1 & Himp).
  cbn in Hv1. subst v1.
  destruct (Himp eq_refl eq_refl) as (_ & _ & Hgamma & residual2 & Hres & _ & Hzero).
  split; [reflexivity|]. split; [reflexivity|]. split; [exact Hgamma|].
  exists residual2. split; [exact Hres|exact Hzero].
Defined.

Lemma stochastic_residual2_formula_witness :
  exists residual2 residual2_,
    _residual2 velo_sto = Some residual2 /\
    np_mask_cols (_velocity_genes velo_det) residual2 = Ok residual2_ /\
    entry residual2_ 0 0 = Some (59 # 14)%Q.
Proof.
  assert (exists s', compute_stochastic collaborators false false (Some "stochastic")
                       velo_det (state_of smoothed) = (Ok velo_sto, s')) as [s' Hrun]
    by (eexists; vm_compute; reflexivity).
  destruct (stochastic_residual2_formula collaborators _ _ _ _ _ _ _ Hrun)
    as (v1 & a & Mss_ & Mus_ & Ms_ & Mu_ & var_ss & cov_us & residual2 & residual2_
        & Hv1 & HMs & HMu & Hsom & Hvar & Hcov & Hres & Hsel & Hformula).
  cbn in Hv1. subst v1.
  exists residual2, residual2_. split; [exact Hres|]. split; [exact Hsel|].
  cbn in Hres. injection Hres as <-.
  vm_compute in Hsel. injection Hsel as <-. reflexivity.
Defined.

Lemma use_raw_ignores_Ms_Mu_witness :
  _Ms velo_raw = spliced /\ _Mu velo_raw = unspliced.
Proof.
  assert (Velocity_init (RObj 0) (Some (dense [[q 9]])) (Some (dense [[q 9]])) None None true
            (state_of raw) = (Ok velo_raw, state_of raw)) as Hrun
    by (vm_compute; reflexivity).
  destruct (use_raw_ignores_Ms_Mu (F:=Q_Float) (RObj 0) (Some (dense [[q 9]]))
              (Some (dense [[q 9]])) None None (state_of raw)) as [_ H].
  destruct (H _ _ Hrun) as (a & x & y & Hd & Hx & Hy & HMs & HMu).
  injection Hd as <-.
  vm_compute in Hx. injection Hx as <-. vm_compute in Hy. injection Hy as <-.
  split; [exact HMs|exact HMu].
Defined.

Lemma velocity_copy_witness :
  0 < next (state_of raw) /\ heap copy_out.2 0 = raw.
Proof.
  assert (0 < next (state_of raw)) as Hlt by (vm_compute; lia).
  assert (velocity collaborators 0 "velocity" (Some "stochastic") false false false GNone
            None None false true (state_of raw) = (copy_out.1, copy_out.2)) as Hrun
    by (vm_compute; reflexivity).
  pose proof (velocity_copy collaborators 0 "velocity" (Some "stochastic") false false false
                GNone None None false true (state_of raw) copy_out.1 copy_out.2 Hlt Hrun)
    as (t & _ & Hdata & _).
  split; [exact Hlt|exact Hdata].
Defined.

Lemma writes_follow_fitting_witness :
  exists t1 t2,
    trace failed_out.2 = t1 ++ t2 /\
    Forall (fun e => is_result_write e = false) t1 /\
    Forall (fun e => is_fit_call e = false) t2 /\
    heap failed_out.2 0 = replay (t1 ++ t2) raw.
Proof.
  assert (velocity failing 0 "velocity" (Some "stochastic") false false true GNone
            None None false false (state_of raw) = (failed_out.1, failed_out.2)) as Hrun
    by (vm_compute; reflexivity).
  pose proof (writes_follow_fitting failing 0 "velocity" (Some "stochastic") false false true
                GNone None None false false (state_of raw) failed_out.1 failed_out.2 Hrun)
    as (t1 & t2 & Ht & H1 & H2 & Hheap & _).
  exists t1, t2. split; [exact Ht|]. split; [exact H1|]. split; [exact H2|exact Hheap].
Defined.


Lemma deterministic_mode_witness :
  is_stochastic None = false /\
  exists t,
    trace (call_body collaborators with_variance None true GNone false).2 = t /\
    masks t = [[true; false; true]] /\
    layers (heap (call_body collaborators with_variance None true GNone false).2 0)
      !! "variance_velocity"
    = array_cols [true; false; true] <$> layers with_variance !! "variance_velocity".
Proof.
  set (out := call_body collaborators with_variance None true GNone false).
  assert (exists ret velo,
            velocity_body collaborators 0 "velocity" None false false true GNone None None
              false false (state_of with_variance) = (Ok (ret, velo), out.2)
            /\ _velocity_genes velo = [true; false; true]) as (ret & velo & Hrun & Hmask)
    by (eexists _, _; vm_compute; split; reflexivity).
  pose proof (deterministic_mode collaborators 0 "velocity" None false false true GNone
                None None false false (state_of with_variance) (Ok (ret, velo)) out.2
                eq_refl Hrun) as (t & Ht & _ & _ & _ & Hif).
  cbv zeta in Hif. rewrite Hmask in Hif. destruct Hif as [Hmasks Hlayer].
  split; [reflexivity|]. exists t. split; [exact Ht|]. split; [exact Hmasks|exact Hlayer].
Defined.

Lemma parameter_columns_witness :
  exists t, trace stochastic_out.2 = t /\
            forall c, EvEffect 0 (SetVar "velocity_beta" c) ∉ t.
Proof.
  assert (exists ret velo,
            velocity_body collaborators 0 "velocity" (Some "stochastic") false false false
              GNone None None false false (state_of raw)
            = (Ok (ret, velo), stochastic_out.2)) as (ret & velo & Hrun)
    by (eexists _, _; vm_compute; reflexivity).
  pose proof (parameter_columns collaborators 0 "velocity" (Some "stochastic") false false
                false GNone None None false false (state_of raw) ret velo stochastic_out.2
                Hrun) as (t & Ht & _ & Hbeta).
  exists t. split; [exact Ht|exact Hbeta].
Defined.

Lemma stochastic_filter_rebuild_witness :
  exists ret velo s',
    velocity_body collaborators 0 "velocity" (Some "stochastic") false false true GNone None
      None false false (state_of with_r2) = (Ok (ret, velo), s') /\
    _r2 velo = [0%Q; 0%Q] /\ _velocity_genes velo = [true; true] /\
    var (heap s' 0) !! "velocity_r2"
    = varcol_select [true; false; true] <$> var with_r2 !! "velocity_r2".
Proof.
  assert (exists ret velo s',
            velocity_body collaborators 0 "velocity" (Some "stochastic") false false true
              GNone None None false false (state_of with_r2) = (Ok (ret, velo), s')
            /\ (shape (_Ms velo)).2 = 2) as (ret & velo & s' & Hrun & Hn)
    by (eexists _, _, _; vm_compute; split; reflexivity).
  pose proof (stochastic_filter_rebuild collaborators 0 "velocity" (Some "stochastic") false
                false GNone None None false false (state_of with_r2) ret velo s' eq_refl
                Hrun)
    as (groups' & v0 & s0 & s1 & s2 & velo_det & t & -> & H1 & Hg & H2 & H3 & Ht & Himp).
  vm_compute in H1. injection H1 as <-.
  vm_compute in Hg. injection Hg as <-.
  vm_compute in H2. injection H2 as <-.
  vm_compute in H3. injection H3 as <- <-.
  destruct (Himp eq_refl) as (_ & Hr2 & Hgenes & _ & Hcols).
  destruct (Hcols "_r2" (or_introl eq_refl)) as [_ Hvar].
  rewrite Hn in Hr2, Hgenes.
  exists ret, velo, s'. split; [exact Hrun|]. split; [exact Hr2|]. split; [exact Hgenes|].
  exact Hvar.
Defined.

(** ** What the code does not meet as the specification words it *)

(** C1: the stochastic stage raises, and the dataset has the layers of
    [moments] and has lost a gene *)
Lemma atomicity_counterexample :
  failed_out.1 = Raise (OtherError "second_order_moments") /\
  last (trace failed_out.2) = Some (EvCall f_second_order_moments) /\
  layers raw !! "Ms" = None /\
  is_Some (layers (heap failed_out.2 0) !! "Ms") /\
  var_names raw = ["g1"; "g2"; "g3"] /\
  var_names (heap failed_out.2 0) = ["g1"; "g3"] /\
  heap failed_out.2 0 <> heap (state_of raw) 0.
Proof.
  repeat split; try (vm_compute; reflexivity).
  - vm_compute. eexists. reflexivity.
  - intros H. apply (f_equal var_names) in H. vm_compute in H. discriminate H.
Qed.


(** C6: a deterministic call with gene filtering narrows the variance layer
    an earlier call left; and a deterministic call on a dataset without
    first moments leaves the layer ['Ms'] of [moments] in it, a layer that
    is not [vkey] *)
Lemma variance_layer_counterexample :
  is_stochastic None = false /\
  filtered_out.1 = Ok None /\
  layers (heap filtered_out.2 0) !! "variance_velocity"
  <> layers with_variance !! "variance_velocity" /\
  deterministic_out.1 = Ok None /\
  layers raw !! "Ms" = None /\
  is_Some (layers (heap deterministic_out.2 0) !! "Ms").
Proof.
  repeat split; try (vm_compute; reflexivity).
  - intros H. vm_compute in H. discriminate H.
  - vm_compute. eexists. reflexivity.
Qed.

(** C9: the column an earlier deterministic call wrote is in the output *)
Lemma stale_r2_counterexample :
  is_stochastic (Some "stochastic") = true /\
  (exists velo, rebuilt_out.1 = Ok (None, velo)) /\
  masks (trace rebuilt_out.2) = [[true; false; true]] /\
  var (heap rebuilt_out.2 0) !! "velocity_r2" = Some (FloatCol [1%Q; 1%Q]).
Proof.
  repeat split; try (vm_compute; reflexivity).
  vm_compute. eexists. reflexivity.
Qed.
End Witnesses.

(** * Further properties of the estimator and the driver *)

(** ** The mode *)


Lemma prefix_spec (s item : string) :
  String.prefix s item = true <-> exists post, item = s +:+ post.
Proof.
  revert item. induction s as [|c s IH]; intros item; simpl.
  - split; [intros _; by exists item|by destruct item].
  - destruct item as [|c' item]; simpl.
    + split; [done|]. by intros [post H].
    + destruct (Ascii.ascii_dec c c') as [->|Hne].
      * rewrite IH. split; intros [post H]; exists post; [by rewrite H|by injection H].
      * split; [done|]. intros [post H]. injection H as -> _. done.
Qed.

Lemma str_in_spec (s item : string) :
  str_in s item = true <-> exists pre post, item = pre +:+ s +:+ post.
Proof.
  induction item as [|c item IH]; cbn [str_in].
  - rewrite orb_false_r, prefix_spec. split.
    + intros [post H]. by exists "", post.
    + intros (pre & post & H). destruct pre; [|done]. eauto.
  - rewrite orb_true_iff, prefix_spec, IH. split.
    + intros [[post H]|(pre & post & H)].
      * by exists "", post.
      * exists (String c pre), post. simpl. by rewrite H.
    + intros (pre & post & H). destruct pre as [|c' pre]; simpl in H.
      * left. eauto.
      * right. injection H as _ H. eauto.
Qed.

(** X1.  The test of line 139 selects the stochastic branch exactly when
    [mode] is a string that occurs, as a run of consecutive characters,
    in one of 'stochastic', 'bayes' and 'alpha'.  So the empty string
    selects it, and 'deterministic' does not. *)
Theorem stochastic_mode_substring (mode : option string) :
  (is_stochastic mode = true <->
   exists m item pre post,
     mode = Some m /\ item ∈ ["stochastic"; "bayes"; "alpha"] /\
     item = pre +:+ m +:+ post) /\
  is_stochastic (Some "") = true /\
  is_stochastic (Some "deterministic") = false.
Proof.
  split; [|done]. unfold is_stochastic. rewrite existsb_exists. split.
  - intros (item & Hin & H). destruct mode as [m|]; [|done].
    apply str_in_spec in H as (pre & post & H).
    exists m, item, pre, post. by rewrite list_elem_of_In.
  - intros (m & item & pre & post & -> & Hin & H).
    exists item. rewrite <- list_elem_of_In. split; [done|].
    apply str_in_spec. eauto.
Qed.

Section FirstOrderFormula.
Context {R : Type} {F : Float R}.

Lemma first_order_residual_entry fit_offset (Ms Mu : Matrix R) (offset gamma : Vec R)
    (residual : Matrix R) i j :
  first_order_residual fit_offset Ms Mu offset gamma = Ok residual ->
  entry residual i j =
    (ms ← entry Ms i j; mu ← entry Mu i j; g ← gamma !! j;
     o ← (if fit_offset then offset !! j else Some fzero);
     Some (residual_entry fit_offset ms mu o g)).
Proof.
  unfold first_order_residual. intros H.
  apply result_bind_Ok in H as (gMs & HgMs & H).
  apply result_bind_Ok in H as (res & Hres & H).
  pose proof (np_zip_rows_entry _ _ _ _ i j HgMs) as E1.
  pose proof (np_zip2_entry _ _ _ _ i j Hres) as E2.
  unfold residual_entry. destruct fit_offset.
  - rewrite (np_rows_zip_entry _ _ _ _ i j H), E2, E1.
    destruct (entry Ms i j), (entry Mu i j), (gamma !! j), (offset !! j); done.
  - injection H as <-. rewrite E2, E1.
    destruct (entry Ms i j), (entry Mu i j), (gamma !! j); done.
Qed.

Lemma first_order_residual_length fit_offset (Ms Mu : Matrix R) (offset gamma : Vec R)
    (residual : Matrix R) :
  first_order_residual fit_offset Ms Mu offset gamma = Ok residual ->
  length residual = length Mu /\ length residual = length Ms /\
  Forall (fun row => length row = length gamma) residual.
Proof.
  unfold first_order_residual. intros H.
  apply result_bind_Ok in H as (gMs & HgMs & H).
  apply result_bind_Ok in H as (res & Hres & H).
  assert (length gMs = length Ms) as Hl1 by (by apply mapM_Ok_length in HgMs).
  assert (Forall (fun row => length row = length gamma) gMs) as Hw1.
  { apply mapM_Ok in HgMs. apply list.Forall_forall. intros row Hrow.
    apply list_elem_of_lookup in Hrow as (k & Hk).
    destruct (Forall2_lookup_r _ _ _ _ _ HgMs Hk) as (x & _ & Hz).
    apply np_zip_length in Hz as [Hz _]. done. }
  assert (length res = length Mu /\ length Mu = length gMs /\
          Forall (fun row => length row = length gamma) res) as (Hl2 & Hl3 & Hw2).
  { unfold np_zip2 in Hres.
    destruct (Nat.eqb_spec (length Mu) (length gMs)) as [Hl|]; [|done].
    split; [|split; [done|]].
    - apply mapM_Ok_length in Hres. rewrite length_zip_with in Hres. lia.
    - apply mapM_Ok in Hres. apply list.Forall_forall. intros row Hrow.
      apply list_elem_of_lookup in Hrow as (k & Hk).
      destruct (Forall2_lookup_r _ _ _ _ _ Hres Hk) as ([a b] & Hab & Hz).
      apply lookup_zip_with_Some in Hab as (a' & b' & [= <- <-] & Ha & Hb).
      apply np_zip_length in Hz as [_ Hz]. cbn in Hz. rewrite <- Hz.
      rewrite list.Forall_forall in Hw1. apply Hw1.
      apply list_elem_of_lookup. eauto. }
  destruct fit_offset.
  - assert (length residual = length res) as Hl4 by (by apply mapM_Ok_length in H).
    split; [lia|]. split; [lia|].
    apply mapM_Ok in H. apply list.Forall_forall. intros row Hrow.
    apply list_elem_of_lookup in Hrow as (k & Hk).
    destruct (Forall2_lookup_r _ _ _ _ _ H Hk) as (x & Hx & Hz).
    apply np_zip_length in Hz as [Hz _]. rewrite <- Hz.
    rewrite list.Forall_forall in Hw2. apply Hw2. apply list_elem_of_lookup. eauto.
  - injection H as <-. split; [lia|]. split; [lia|done].
Qed.
End FirstOrderFormula.

(** ** The deterministic stage *)

Section EstimatorFacts.
Context {R : Type} {F : Float R} (C : Collaborators R).
Implicit Types (v : Velocity R) (s : State R).

(** X2.  After [compute_deterministic], and after [compute_stochastic],
    the first-order residual has a row for every cell and, at cell [i] and
    gene [j], the entry [Mu - gamma * Ms], minus [offset] exactly when
    [fit_offset], for the [gamma] and [offset] the stage ends with; the
    matrices [_Ms] and [_Mu] are those the stage started with. *)
Theorem velocity_residual_formula :
  (forall fit_offset v s v' s',
     compute_deterministic C fit_offset v s = (Ok v', s') ->
     _Ms v' = _Ms v /\ _Mu v' = _Mu v /\
     exists residual,
       _residual v' = Some residual /\ length residual = length (_Mu v) /\
       forall i j,
         entry residual i j =
           (ms ← entry (_Ms v) i j; mu ← entry (_Mu v) i j; g ← _gamma v' !! j;
            o ← (if fit_offset then _offset v' !! j else Some fzero);
            Some (residual_entry fit_offset ms mu o g))) /\
  (forall fit_offset fit_offset2 mode v s v' s',
     compute_stochastic C fit_offset fit_offset2 mode v s = (Ok v', s') ->
     _Ms v' = _Ms v /\ _Mu v' = _Mu v /\
     exists residual,
       _residual v' = Some residual /\ length residual = length (_Mu v) /\
       forall i j,
         entry residual i j =
           (ms ← entry (_Ms v) i j; mu ← entry (_Mu v) i j; g ← _gamma v' !! j;
            o ← (if fit_offset then _offset v' !! j else Some fzero);
            Some (residual_entry fit_offset ms mu o g))).
Proof.
  split.
  - intros fit_offset v s v' s' H.
    apply compute_deterministic_Ok in H
      as (X & Y & offset & gamma & residual & total & r2 & genes & _ & Hres & _ & _ & ->).
    cbn. split; [done|]. split; [done|]. exists residual. split; [done|].
    split; [by apply first_order_residual_length in Hres as [? _]|].
    intros i j. by apply first_order_residual_entry.
  - intros fit_offset fit_offset2 mode v s v' s' H.
    apply compute_stochastic_Ok in H
      as (v1 & r0 & a & Ms_ & Mu_ & Mss_ & Mus_ & var_ss & cov_us & o & o2 & gm
          & offset & offset2 & gamma & residual & residual2_ & residual2
          & Hv1 & _ & _ & _ & _ & _ & _ & _ & _ & _ & Hres & _ & _ & ->).
    assert (_Ms v1 = _Ms v /\ _Mu v1 = _Mu v) as [HMs HMu].
    { destruct (_residual v); [by subst|]. destruct Hv1 as (s0 & s1 & Hd).
      apply compute_deterministic_Ok in Hd
        as (? & ? & ? & ? & ? & ? & ? & ? & _ & _ & _ & _ & ->). done. }
    cbn. rewrite HMs, HMu in *. split; [done|]. split; [done|].
    exists residual. split; [done|].
    split; [by apply first_order_residual_length in Hres as [? _]|].
    intros i j. by apply first_order_residual_entry.
Qed.

(** X3.  When the estimator has a [subset], [compute_deterministic] fits on
    the rows of [_Ms] and [_Mu] the subset selects: [offset] and [gamma]
    are what [solve_cov] returns for them, while the residual has a row for
    every cell.  A subset that has not one entry per row of [_Ms] makes the
    stage raise the [IndexError] of the boolean index before [solve_cov]
    is called. *)
Theorem deterministic_fit_on_subset fit_offset v s subset :
  _subset v = Some subset ->
  (length subset <> length (_Ms v) ->
   compute_deterministic C fit_offset v s
   = (Raise mask_error,
      {| heap := heap s; next := next s;
         trace := trace s ++ [EvCall f_compute_deterministic] |})) /\
  forall v' s',
    compute_deterministic C fit_offset v s = (Ok v', s') ->
    length subset = length (_Ms v) /\ length subset = length (_Mu v) /\
    solve_cov C (mask_select subset (_Ms v)) (mask_select subset (_Mu v)) fit_offset
    = Ok (_offset v', _gamma v') /\
    exists residual, _residual v' = Some residual /\ length residual = length (_Mu v).
Proof.
  intros Hsub. split.
  - intros Hlen. unfold compute_deterministic. rewrite Hsub. unfold np_mask.
    rewrite (proj2 (Nat.eqb_neq _ _) Hlen). reflexivity.
  - intros v' s' H. unfold compute_deterministic in H. rewrite Hsub in H.
    inv_M H. inv_prim. simplify_eq.
    match goal with Hs : (lift _ ≫= _) _ = _ |- _ => inv_M Hs end.
    inv_prim. simplify_eq. cbn.
    repeat match goal with
           | Hm : np_mask _ _ = Ok _ |- _ =>
               unfold np_mask in Hm;
               match type of Hm with
               | context [Nat.eqb ?a ?b] => destruct (Nat.eqb_spec a b); [|done]
               end;
               injection Hm as <-
           end.
    split; [done|]. split; [done|]. split; [congruence|].
    eexists. split; [done|].
    match goal with
    | Hr : first_order_residual _ _ _ _ _ = Ok _ |- _ =>
        by apply first_order_residual_length in Hr as [? _]
    end.
Qed.
End EstimatorFacts.

(** ** What the estimator calls and what it leaves alone *)

Section CallFacts.
Context {R : Type} {F : Float R} (C : Collaborators R).
Implicit Types (v : Velocity R) (s : State R).

Lemma replay_calls (t : list (Event R)) (a : AnnData R) :
  Forall is_call t -> replay t a = a.
Proof.
  intros Ht. revert a. induction Ht as [|e t He _ IH]; intros a; [done|].
  unfold replay in *. cbn. rewrite IH. by destruct e.
Qed.

Lemma run_calls l s s' :
  run is_call l s s' ->
  heap s' l = heap s l /\ next s' = next s /\
  exists t, trace s' = trace s ++ t /\ Forall is_call t.
Proof.
  intros (Hn & _ & t & Ht & HP & Hh). rewrite Hh, replay_calls by done. eauto.
Qed.

Lemma steps_Velocity_init P l adata Ms Mu subset residual use_raw :
  steps (run P l) (Velocity_init (F:=F) adata Ms Mu subset residual use_raw).
Proof. solve_steps; done. Qed.

(** X4.  The constructor leaves the store as it is, and the two stages
    leave every dataset of the store as it is, allocate nothing and log
    calls only, whether they return or raise. *)
Theorem estimator_never_writes :
  (forall adata Ms Mu subset residual use_raw s r s',
     Velocity_init adata Ms Mu subset residual use_raw s = (r, s') -> s' = s) /\
  (forall fit_offset v s r s',
     compute_deterministic C fit_offset v s = (r, s') ->
     (forall l, heap s' l = heap s l) /\ next s' = next s /\
     exists t, trace s' = trace s ++ t /\ Forall is_call t) /\
  (forall fit_offset fit_offset2 mode v s r s',
     compute_stochastic C fit_offset fit_offset2 mode v s = (r, s') ->
     (forall l, heap s' l = heap s l) /\ next s' = next s /\
     exists t, trace s' = trace s ++ t /\ Forall is_call t).
Proof.
  split; [|split].
  - intros adata Ms Mu subset residual use_raw s r s' H.
    unfold Velocity_init in H.
    apply M_bind_inv in H as [(a & s1 & H1 & H) | (e & H1 & _)];
      apply deref_inv in H1 as [-> _]; [|done].
    apply M_bind_inv in H as [(a1 & s1 & [_ ->]%lift_inv & H) | (e & [_ ->]%lift_inv & _)];
      [|done].
    apply M_bind_inv in H as [(a2 & s1 & [_ ->]%lift_inv & H) | (e & [_ ->]%lift_inv & _)];
      [|done].
    destruct (shape _). by injection H.
  - intros fit_offset v s r s' H.
    assert (forall l, run is_call l s s') as Hrun.
    { intros l. eapply steps_compute_deterministic; [| | |exact H]; done. }
    split; [intros l; by apply run_calls|]. by apply (run_calls 0).
  - intros fit_offset fit_offset2 mode v s r s' H.
    assert (forall l, run is_call l s s') as Hrun.
    { intros l. eapply steps_compute_stochastic; [| | | | | |exact H]; done. }
    split; [intros l; by apply run_calls|]. by apply (run_calls 0).
Qed.

Lemma compute_stochastic_trace fit_offset fit_offset2 mode v s v' s' :
  compute_stochastic C fit_offset fit_offset2 mode v s = (Ok v', s') ->
  trace s' = trace s ++ stochastic_calls (bool_decide (_residual v = None)) mode.
Proof.
  unfold compute_stochastic. intros H. inv_M H.
  match goal with
  | Hd : match _residual v with _ => _ end ?s0 = (Ok _, ?s1) |- _ =>
      assert (trace s1 = trace s0 ++
                (if bool_decide (_residual v = None)
                 then [EvCall f_compute_deterministic; EvCall f_solve_cov;
                       EvCall f_R_squared]
                 else [])) as Hdet
        by (destruct (_residual v);
            [inv_prim; subst; cbn; by rewrite app_nil_r
            |apply compute_deterministic_state in Hd; by subst]);
      clear Hd
  end.
  repeat match goal with
         | Hl : log _ _ = (_, _) |- _ => injection Hl as <-
         end.
  match goal with
  | Hs : (if is_bayes mode then _ else _) ?s0 = (Ok _, ?s1) |- _ =>
      assert (trace s1 = trace s0 ++
                [EvCall (if is_bayes mode then f_solve2_mle else f_solve2_inv)])
        as Hsolve
        by (destruct (is_bayes mode); apply call_inv in Hs as [_ ->]; done);
      clear Hs
  end.
  inv_prim. subst. cbn in *. unfold stochastic_calls.
  rewrite Hsolve. cbn. rewrite Hdet. cbn. by rewrite <- !app_assoc.
Qed.
End CallFacts.

(** ** The fitting calls of the driver *)

Section DriverCalls.
Context {R : Type} {F : Float R} (C : Collaborators R).
Implicit Types (v velo : Velocity R) (s : State R).

Lemma filter_none {A : Type} (f : A -> bool) (l : list A) :
  Forall (fun x => f x = false) l -> List.filter f l = [].
Proof. induction 1 as [|x l Hx _ IH]; [done|]. cbn. by rewrite Hx. Qed.

Lemma pars_events_no_call adata vkey velo :
  Forall (fun e : Event R => is_fit_call e = false) (pars_events adata vkey velo).
Proof.
  apply list.Forall_forall. intros e He. unfold pars_events in He.
  apply list_elem_of_omap in He as ([key par] & _ & He). cbn in He.
  destruct (several_values_col par); [|done]. by injection He as <-.
Qed.

Lemma velocity_on_Ok_calls adata vkey mode fit_offset fit_offset2 filter_genes groups
    groupby subset_for_fitting use_raw s velo s' :
  velocity_on C adata vkey mode fit_offset fit_offset2 filter_genes groups groupby
    subset_for_fitting use_raw s = (Ok velo, s') ->
  exists t0 t1 t2,
    trace s' = trace s ++ t0 ++ deterministic_calls ++ t1
               ++ (if is_stochastic mode then stochastic_calls false mode else []) ++ t2 /\
    Forall (fun e => is_fit_call e = false) t0 /\
    Forall (fun e => is_fit_call e = false) t1 /\
    Forall (fun e => is_fit_call e = false) t2.
Proof.
  intros H. apply velocity_on_Ok in H
    as (groups' & v0 & velo_det & s1 & s2 & s3 & s4 & H1 & _ & _ & H3 & H4 & H5 & H6).
  apply ensure_moments_inv in H1 as [(_ & _ & t0 & Ht0 & HP0 & _) _].
  pose proof H3 as H3'. apply compute_deterministic_state in H3'.
  apply compute_deterministic_Ok in H3
    as (? & ? & ? & ? & res & ? & ? & ? & _ & _ & _ & _ & Hdet).
  apply write_pars_inv in H5 as (_ & _ & _ & Ht5 & _).
  assert (exists t6, trace s' = trace s4 ++ t6 /\ Forall (fun e => is_fit_call e = false) t6)
    as (t6 & Ht6 & HP6).
  { revert H6. match goal with |- ?m s4 = _ -> _ =>
      assert (steps (run (fun e => is_fit_call e = false) adata) m) as Hst
        by (solve_steps; done) end.
    intros H6. apply Hst in H6 as (_ & _ & t6 & ? & ? & _). eauto. }
  assert (exists t1 t4,
            trace s3 = trace s2 ++ t1
                       ++ (if is_stochastic mode then stochastic_calls false mode else [])
                       ++ t4 /\
            Forall (fun e => is_fit_call e = false) t1 /\
            Forall (fun e => is_fit_call e = false) t4) as (t1 & t4 & Ht4 & HP1 & HP4).
  { destruct (is_stochastic mode).
    - apply stochastic_branch_Ok in H4 as (v_in & sa & sb & Hin & Hcs & Rwr).
      destruct Rwr as (_ & _ & t4 & Ht4 & HP4 & _).
      assert (exists t1, trace sa = trace s2 ++ t1 /\
                         Forall (fun e => is_fit_call e = false) t1 /\
                         _residual v_in <> None) as (t1 & Ht1 & HP1 & Hres).
      { destruct (filter_genes && _).
        - destruct Hin as (Hsub & residual & Hinit).
          apply inplace_subset_var_Ok in Hsub.
          apply Velocity_init_Ok in Hinit as (_ & a & xs & ys & _ & _ & _ & ->).
          eexists. split; [by rewrite Hsub|]. split; [|done]. by repeat constructor.
        - destruct Hin as [-> ->]. exists []. rewrite app_nil_r.
          split; [done|]. split; [done|]. by rewrite Hdet. }
      apply compute_stochastic_trace in Hcs.
      rewrite bool_decide_eq_false_2 in Hcs by done.
      exists t1, t4. split; [|split; [done|]].
      + rewrite Ht4, Hcs, Ht1. by rewrite <- !app_assoc.
      + eapply Forall_impl; [exact HP4|]. by intros e (? & _).
    - apply deterministic_branch_Ok in H4 as [_ (_ & _ & t4 & Ht4 & HP4 & _)].
      exists [], t4. split; [by rewrite Ht4|]. split; [done|].
      eapply Forall_impl; [exact HP4|]. by intros e (? & _). }
  exists t0, t1, (t4 ++ pars_events adata vkey velo ++ t6). split.
  - rewrite Ht6, Ht5, Ht4, H3'. cbn [trace]. rewrite Ht0. unfold deterministic_calls.
    by rewrite <- !app_assoc.
  - split; [done|]. split; [done|].
    rewrite !Forall_app. split; [done|]. split; [apply pars_events_no_call|done].
Qed.

(** X5.  In a call of the driver that returns, the fitting functions run in
    this order: the deterministic stage once ([compute_deterministic],
    [solve_cov], [R_squared]) and, in stochastic mode,
    [compute_stochastic], [second_order_moments], [solve_cov] and one of
    the two solvers; the deterministic stage is not run again.
    [solve2_mle] is called exactly when [mode] is 'bayes', and
    [solve2_inv] exactly when the mode is stochastic and is not 'bayes'. *)
Theorem fitting_calls_by_mode data vkey mode fit_offset fit_offset2 filter_genes groups
    groupby subset_for_fitting use_raw copy s x s' :
  velocity C data vkey mode fit_offset fit_offset2 filter_genes groups groupby
    subset_for_fitting use_raw copy s = (Ok x, s') ->
  exists t,
    trace s' = trace s ++ t /\
    List.filter is_fit_call t
    = deterministic_calls
      ++ (if is_stochastic mode then stochastic_calls false mode else []) /\
    (EvCall f_solve2_mle ∈ t <-> mode = Some "bayes") /\
    (EvCall f_solve2_inv ∈ t <-> is_stochastic mode = true /\ mode <> Some "bayes").
Proof.
  intros H.
  apply velocity_inv in H as (r1 & H & Hr).
  apply velocity_body_inv in H as (r2 & Hon & ->).
  destruct r2 as [velo|]; [|done].
  apply velocity_on_Ok_calls in Hon as (t0 & t1 & t2 & Ht & HP0 & HP1 & HP2).
  eexists. split; [destruct copy; exact Ht|].
  assert (List.filter is_fit_call
            (t0 ++ deterministic_calls ++ t1
             ++ (if is_stochastic mode then stochastic_calls false mode else []) ++ t2)
          = deterministic_calls
            ++ (if is_stochastic mode then stochastic_calls (R:=R) false mode else []))
    as Hfilter.
  { rewrite !List.filter_app.
    rewrite (filter_none _ t0), (filter_none _ t1), (filter_none _ t2) by done.
    rewrite app_nil_r. destruct (is_stochastic mode); [|done].
    unfold stochastic_calls. by destruct (is_bayes mode). }
  split; [done|].
  assert (forall f, is_fit_call (R:=R) (EvCall f) = true ->
            (EvCall f ∈ t0 ++ deterministic_calls ++ t1
               ++ (if is_stochastic mode then stochastic_calls false mode else []) ++ t2
             <-> EvCall f ∈ deterministic_calls
                   ++ (if is_stochastic mode then stochastic_calls (R:=R) false mode else [])))
    as Hin.
  { intros f Hf. rewrite <- Hfilter, !list_elem_of_In, filter_In. tauto. }
  assert (is_bayes mode = true <-> mode = Some "bayes") as Hbayes.
  { destruct mode as [m|]; cbn; [|done]. rewrite String.eqb_eq. split; congruence. }
  split.
  - rewrite Hin by done. rewrite <- Hbayes. split.
    + intros Hm. apply elem_of_app in Hm as [Hm|Hm];
        [by repeat (apply elem_of_cons in Hm as [?|Hm]; [done|]); apply elem_of_nil in Hm|].
      destruct (is_stochastic mode); [|by apply elem_of_nil in Hm].
      unfold stochastic_calls in Hm. cbn in Hm. destruct (is_bayes mode); [done|].
      by repeat (apply elem_of_cons in Hm as [?|Hm]; [done|]); apply elem_of_nil in Hm.
    + intros Hb. apply elem_of_app. right.
      assert (is_stochastic mode = true) as ->.
      { apply Hbayes in Hb as ->. done. }
      unfold stochastic_calls. rewrite Hb. cbn.
      repeat first [apply list_elem_of_here|apply list_elem_of_further].
  - rewrite Hin by done. rewrite <- Hbayes. split.
    + intros Hm. apply elem_of_app in Hm as [Hm|Hm];
        [by repeat (apply elem_of_cons in Hm as [?|Hm]; [done|]); apply elem_of_nil in Hm|].
      destruct (is_stochastic mode); [|by apply elem_of_nil in Hm]. split; [done|].
      unfold stochastic_calls in Hm. cbn in Hm. destruct (is_bayes mode); [|done].
      by repeat (apply elem_of_cons in Hm as [?|Hm]; [done|]); apply elem_of_nil in Hm.
    + intros [-> Hb]. apply elem_of_app. right.
      unfold stochastic_calls. destruct (is_bayes mode); [done|]. cbn.
      repeat first [apply list_elem_of_here|apply list_elem_of_further].
Qed.
End DriverCalls.

(** ** The constructor *)

Section Constructor.
Context {R : Type} {F : Float R} (C : Collaborators R).
Implicit Types (v : Velocity R) (s : State R).

(** the constructor as a function of the content of the dataset *)
Lemma Velocity_init_run (adata : Ref) (Ms Mu : option (Array2 R)) subset residual
    (use_raw : bool) s :
  Velocity_init adata Ms Mu subset residual use_raw s
  = (x ← (if use_raw then get_layer "spliced" (content s adata)
          else match Ms with None => get_layer "Ms" (content s adata) | Some x => Ok x end);
     y ← (if use_raw then get_layer "unspliced" (content s adata)
          else match Mu with None => get_layer "Mu" (content s adata) | Some x => Ok x end);
     let n_vars := (shape (A_ x)).2 in
     Ok {| _adata := adata; _Ms := A_ x; _Mu := A_ y;
           _residual := residual; _residual2 := None;
           _offset := np_zeros n_vars; _offset2 := np_zeros n_vars;
           _gamma := np_zeros n_vars; _r2 := np_zeros n_vars;
           _beta := np_ones fone n_vars; _velocity_genes := np_ones true n_vars;
           _subset := subset |}, s).
Proof.
  unfold Velocity_init.
  assert (deref adata s = (Ok (content s adata), s)) as Hd by (by destruct adata).
  unfold mbind at 1, M_bind. rewrite Hd.
  generalize (content s adata). intros a.
  assert (forall x : Array2 R, densify x = A_ x) as Hden by (by intros [[] ?]).
  unfold mbind, M_bind, result_bind, lift, mret, M_ret.
  destruct (if use_raw then get_layer "spliced" a else _) as [x|e]; [|done].
  destruct (if use_raw then get_layer "unspliced" a else _) as [y|e]; [|done].
  rewrite !Hden. unfold shape. done.
Qed.

(** X6.  The constructor reads the layers ['spliced'] and ['unspliced']
    when [use_raw], and else the matrices it is given, or the layers ['Ms']
    and ['Mu'] in their place.  If the first one it needs is missing it
    raises [KeyError] of that key, else if the second is missing [KeyError]
    of that one, and else it returns an estimator on the entries of the
    two; the store is unchanged in every case. *)
Theorem constructor_layers (adata : Ref) (Ms Mu : option (Array2 R)) subset residual
    (use_raw : bool) s :
  let a := content s adata in
  let key_s := if use_raw then "spliced" else "Ms" in
  let key_u := if use_raw then "unspliced" else "Mu" in
  let read (given : option (Array2 R)) (key : string) :=
    if use_raw then layers a !! key
    else match given with Some x => Some x | None => layers a !! key end in
  let run := Velocity_init adata Ms Mu subset residual use_raw s in
  match read Ms key_s, read Mu key_u with
  | None, _ => run = (Raise (KeyError key_s), s)
  | Some _, None => run = (Raise (KeyError key_u), s)
  | Some x, Some y =>
      exists v, run = (Ok v, s) /\ _Ms v = A_ x /\ _Mu v = A_ y /\
                _residual v = residual /\ _subset v = subset
  end.
Proof.
  cbn zeta. rewrite Velocity_init_run. unfold get_layer.
  generalize (content s adata). intros a.
  destruct use_raw.
  - destruct (layers a !! "spliced") as [x|]; [|done].
    destruct (layers a !! "unspliced") as [y|]; [|done]. cbn. eauto 10.
  - destruct Ms as [x|]; [|destruct (layers a !! "Ms") as [x|]; [|done]];
      (destruct Mu as [y|]; [|destruct (layers a !! "Mu") as [y|]; [|done]]);
      cbn; eauto 10.
Qed.
End Constructor.

(** ** The stochastic stage *)

Section LengthFacts.
Context {A B D : Type} (f : A -> B -> D).

Lemma np_zip2_length (a : list (list A)) (b : list (list B)) (c : list (list D)) :
  np_zip2 f a b = Ok c -> length c = length a /\ length a = length b.
Proof.
  unfold np_zip2. destruct (Nat.eqb_spec (length a) (length b)) as [Hl|]; [|done].
  intros H. apply mapM_Ok_length in H. rewrite length_zip_with in H. lia.
Qed.
End LengthFacts.

Section StochasticFacts.
Context {R : Type} {F : Float R} (C : Collaborators R).
Implicit Types (v : Velocity R) (s : State R).

Lemma np_mask_assign_length {A : Type} idx (l vals l' : list A) :
  np_mask_assign idx l vals = Ok l' -> length l' = length l.
Proof.
  unfold np_mask_assign. destruct (Nat.eqb _ _); [|done]. destruct (Nat.eqb _ _); [|done].
  intros [= <-]. apply mask_scatter_length.
Qed.

Lemma second_order_residual_length fit_offset fit_offset2 idx
    (Ms_ Mu_ var_ss cov_us : Matrix R) (offset offset2 gamma : Vec R) residual2_ :
  second_order_residual fit_offset fit_offset2 idx Ms_ Mu_ var_ss cov_us
    offset offset2 gamma = Ok residual2_ ->
  length residual2_ = length Ms_.
Proof.
  unfold second_order_residual. intros H.
  apply result_bind_Ok in H as (MsMu & HMsMu & H).
  apply result_bind_Ok in H as (lhs & Hlhs & H).
  apply result_bind_Ok in H as (gamma_idx & Hgamma & H).
  apply result_bind_Ok in H as (inner & Hinner & H).
  apply result_bind_Ok in H as (rhs & Hrhs & H).
  apply result_bind_Ok in H as (r1 & Hr1 & H).
  apply result_bind_Ok in H as (r2 & Hr2 & H).
  apply np_zip2_length in HMsMu as [E1 E1'], Hlhs as [E2 E2'], Hr1 as [E3 E3'].
  unfold twice in *. rewrite length_map in *.
  assert (length r2 = length r1) as E4.
  { destruct fit_offset; [|by injection Hr2 as <-].
    apply result_bind_Ok in Hr2 as (oi & _ & Hr2).
    apply result_bind_Ok in Hr2 as (oMs & _ & Hr2).
    by apply np_zip2_length in Hr2 as [? _]. }
  assert (length residual2_ = length r2) as E5.
  { destruct fit_offset2; [|by injection H as <-].
    apply result_bind_Ok in H as (oi & _ & H). by apply mapM_Ok_length in H. }
  lia.
Qed.

(** X7.  On an estimator that has a residual, [compute_stochastic] keeps the
    dataset, [_Ms], [_Mu], the subset, [r2], the mask of velocity genes and
    [beta], keeps the lengths of [offset], [offset2] and [gamma], and
    leaves a first-order and a second-order residual with one row per row
    of [_Ms]. *)
Theorem stochastic_stage_frame fit_offset fit_offset2 mode v s v' s' r0 :
  _residual v = Some r0 ->
  compute_stochastic C fit_offset fit_offset2 mode v s = (Ok v', s') ->
  _adata v' = _adata v /\ _Ms v' = _Ms v /\ _Mu v' = _Mu v /\ _subset v' = _subset v /\
  _r2 v' = _r2 v /\ _velocity_genes v' = _velocity_genes v /\ _beta v' = _beta v /\
  length (_offset v') = length (_offset v) /\
  length (_offset2 v') = length (_offset2 v) /\
  length (_gamma v') = length (_gamma v) /\
  exists residual residual2,
    _residual v' = Some residual /\ _residual2 v' = Some residual2 /\
    length residual = length (_Ms v) /\ length residual2 = length (_Ms v).
Proof.
  intros Hr0 H. apply compute_stochastic_Ok in H
    as (v1 & r0' & a & Ms_ & Mu_ & Mss_ & Mus_ & var_ss & cov_us & o & o2 & gm
        & offset & offset2 & gamma & residual & residual2_ & residual2
        & Hv1 & _ & HMs & HMu & Hsom & Hvar & Hcov & Ho & Ho2 & Hg
        & Hres & Hres2_ & Hres2 & ->).
  rewrite Hr0 in Hv1. subst v1. cbn.
  repeat (split; [done|]).
  split; [by eapply np_mask_assign_length|].
  split; [by eapply np_mask_assign_length|].
  split; [by eapply np_mask_assign_length|].
  exists residual, residual2. split; [done|]. split; [done|].
  split; [by apply first_order_residual_length in Hres as (_ & ? & _)|].
  apply second_order_residual_length in Hres2_.
  destruct (several_values Bool.eqb (_velocity_genes v)).
  - unfold np_mask_assign_cols in Hres2.
    destruct (Nat.eqb_spec (length (np_zeros2 (shape (_Ms v)))) (length residual2_))
      as [Hl|]; [|done].
    apply mapM_Ok_length in Hres2. rewrite length_zip_with_l_eq in Hres2 by done.
    rewrite Hres2. unfold np_zeros2. by rewrite length_replicate.
  - injection Hres2 as <-. injection HMs as <-. done.
Qed.

Lemma several_values_all_false (n : nat) :
  several_values Bool.eqb (replicate n false) = false.
Proof. by apply several_values_replicate. Qed.

(** X8.  When the mask of velocity genes is all false, on two genes or
    more, and the solvers return one estimate per gene, [compute_stochastic]
    raises: the mask holds one value, so all genes are fitted, and the
    estimates cannot be assigned to the entries the mask selects, which
    are none. *)
Theorem stochastic_no_velocity_gene fit_offset fit_offset2 mode v s r s' r0 n :
  solvers_per_gene C ->
  _residual v = Some r0 ->
  _velocity_genes v = replicate n false ->
  (shape (_Ms v)).2 = n ->
  1 < n ->
  compute_stochastic C fit_offset fit_offset2 mode v s = (r, s') ->
  exists e, r = Raise e.
Proof.
  intros [Hinv Hmle] Hr0 Hmask Hshape Hn H.
  destruct r as [v'|e]; [|eauto]. exfalso.
  unfold compute_stochastic in H. rewrite Hr0 in H.
  inv_M H. inv_prim. simplify_eq.
  rewrite ?Hmask, ?several_values_all_false in *. simplify_eq.
  match goal with
  | Hs : (if is_bayes mode then _ else _) _ = (Ok (?o, _, _), _),
    Ha : np_mask_assign _ (_offset _) ?o = Ok _ |- _ =>
      assert (length o = (shape (_Ms v)).2) as Hlen
        by (destruct (is_bayes mode); apply call_inv in Hs as [Hs _];
            [by apply Hmle in Hs|by apply Hinv in Hs]);
      unfold np_mask_assign in Ha;
      destruct (Nat.eqb _ _); [|done];
      destruct (Nat.eqb_spec (count_true (replicate (shape (_Ms v)).2 false)) (length o))
        as [Hc|]; [|done]
  end.
  assert (forall k, count_true (replicate k false) = 0) as Hcount
    by (induction k; [done|by cbn]).
  rewrite Hcount in Hc. lia.
Qed.
End StochasticFacts.

(** ** The layers the driver writes *)

Section LayerFacts.
Context {R : Type} {F : Float R} (C : Collaborators R).
Implicit Types (v velo : Velocity R) (s : State R).

Lemma compute_stochastic_genes fit_offset fit_offset2 mode v s v' s' :
  _residual v <> None ->
  compute_stochastic C fit_offset fit_offset2 mode v s = (Ok v', s') ->
  _velocity_genes v' = _velocity_genes v.
Proof.
  intros Hr0 H. apply compute_stochastic_Ok in H
    as (v1 & r0' & a & Ms_ & Mu_ & Mss_ & Mus_ & var_ss & cov_us & o & o2 & gm
        & offset & offset2 & gamma & residual & residual2_ & residual2
        & Hv1 & _ & _ & _ & _ & _ & _ & _ & _ & _ & _ & _ & _ & ->).
  destruct (_residual v); [by subst|done].
Qed.

Lemma compute_stochastic_heap fit_offset fit_offset2 mode v s r s' :
  compute_stochastic C fit_offset fit_offset2 mode v s = (r, s') ->
  forall l, heap s' l = heap s l.
Proof.
  intros H l.
  assert (run is_call l s s') as Hrun
    by (eapply steps_compute_stochastic; [| | | | | |exact H]; done).
  by apply run_calls in Hrun as [? _].
Qed.

Lemma compute_deterministic_heap fit_offset v s r s' :
  compute_deterministic C fit_offset v s = (r, s') ->
  forall l, heap s' l = heap s l.
Proof.
  intros H l.
  assert (run is_call l s s') as Hrun
    by (eapply steps_compute_deterministic; [| | |exact H]; done).
  by apply run_calls in Hrun as [? _].
Qed.

(** in stochastic mode the test of line 169 fails *)
Lemma stochastic_branch_mask adata adata_ groups vkey mode fit_offset fit_offset2
    filter_genes subset_for_fitting velo_det s velo s' :
  _residual velo_det <> None ->
  stochastic_branch C adata adata_ groups vkey mode fit_offset fit_offset2 filter_genes
    subset_for_fitting velo_det s = (Ok velo, s') ->
  filter_genes && several_values Bool.eqb (_velocity_genes velo) = false.
Proof.
  intros Hres H.
  apply stochastic_branch_Ok in H as (v_in & sa & sb & Hin & Hcs & _).
  destruct (filter_genes && several_values Bool.eqb (_velocity_genes velo_det)) eqn:Hc.
  - destruct Hin as (_ & residual & Hinit).
    apply Velocity_init_Ok in Hinit as (_ & a & x & y & _ & _ & _ & Hv).
    apply compute_stochastic_genes in Hcs; [|by rewrite Hv].
    rewrite Hcs, Hv. cbn [_velocity_genes]. unfold np_ones. rewrite several_values_replicate by done.
    apply andb_false_r.
  - destruct Hin as [-> ->]. by rewrite (compute_stochastic_genes _ _ _ _ _ _ _ Hres Hcs).
Qed.

Lemma replay_set_vars (t : list (Event R)) (a : AnnData R) :
  Forall (fun e => is_set_var e = true) t ->
  layers (replay t a) = layers a /\ var_names (replay t a) = var_names a /\
  obs_names (replay t a) = obs_names a.
Proof.
  intros Ht. revert a. induction Ht as [|e t He _ IH]; intros a; [done|].
  unfold replay in *. cbn. destruct (IH (match e with
                                         | EvCall _ => a
                                         | EvEffect _ eff => apply_effect eff a
                                         end)) as (-> & -> & ->).
  by destruct e as [|? []].
Qed.

Lemma pars_events_set_var adata vkey velo :
  Forall (fun e : Event R => is_set_var e = true) (pars_events adata vkey velo).
Proof.
  apply list.Forall_forall. intros e He. unfold pars_events in He.
  apply list_elem_of_omap in He as ([key par] & _ & He). cbn in He.
  destruct (several_values_col par); [|done]. by injection He as <-.
Qed.

(** what lines 160 to 170 leave of the layers and of the names *)
Lemma velocity_on_Ok_tail adata vkey filter_genes velo s3 s4 s' :
  write_pars adata vkey velo s3 = (Ok tt, s4) ->
  (if filter_genes && several_values Bool.eqb (_velocity_genes velo)
   then inplace_subset_var adata (_velocity_genes velo)
   else mret tt) s4 = (Ok tt, s') ->
  let c := filter_genes && several_values Bool.eqb (_velocity_genes velo) in
  (forall key, layers (heap s' adata) !! key
               = final_filter filter_genes velo <$> layers (heap s3 adata) !! key) /\
  var_names (heap s' adata)
  = (if c then mask_select (_velocity_genes velo) (var_names (heap s3 adata))
     else var_names (heap s3 adata)) /\
  obs_names (heap s' adata) = obs_names (heap s3 adata) /\
  (c = true -> length (_velocity_genes velo) = length (var_names (heap s3 adata))).
Proof.
  intros H5 H6 c. apply write_pars_inv in H5 as (_ & _ & _ & _ & Hh4).
  destruct (replay_set_vars _ (heap s3 adata) (pars_events_set_var adata vkey velo))
    as (Hl & Hv & Ho).
  rewrite <- Hh4 in Hl, Hv, Ho. unfold final_filter. fold c. subst c.
  destruct (filter_genes && _).
  - pose proof H6 as H6'. apply inplace_subset_var_Ok in H6' as ->. cbn.
    rewrite Nat.eqb_refl. cbn. rewrite Hl, Hv, Ho.
    split; [intros key; by rewrite lookup_fmap|]. split; [done|]. split; [done|].
    intros _. unfold inplace_subset_var in H6.
    apply M_bind_Ok in H6 as (a & s1 & [= <- <-] & H6).
    destruct (Nat.eqb_spec (length (_velocity_genes velo)) (length (var_names (heap s4 adata))));
      [congruence|done].
  - injection H6 as <-. rewrite Hl, Hv, Ho. split; [|done].
    intros key. by destruct (layers (heap s3 adata) !! key).
Qed.

Lemma set_layer_at_inv l key value s s' :
  set_layer_at l key value s = (Ok tt, s') ->
  exists m, value = Some m /\
            heap s' l = set_layer key (dense m) (heap s l) /\
            (forall l', l' <> l -> heap s' l' = heap s l').
Proof.
  unfold set_layer_at. destruct value as [m|]; [|done]. intros [= <-]. cbn.
  exists m. rewrite Nat.eqb_refl. split; [done|]. split; [done|].
  intros l' Hl'. by destruct (Nat.eqb_spec l' l).
Qed.

(** X9.  In a call without [groups] that returns, the layer [vkey] holds the
    first-order residual of the estimator the call ends with, narrowed to
    its velocity genes when the genes are filtered at the end of the call
    (line 169).  In stochastic mode the test of line 169 fails, and the
    layer ['variance_' + vkey] holds the second-order residual. *)
Theorem velocity_layer_content data vkey mode fit_offset fit_offset2 filter_genes groupby
    subset_for_fitting use_raw copy s ret velo s' :
  velocity_body C data vkey mode fit_offset fit_offset2 filter_genes GNone groupby
    subset_for_fitting use_raw copy s = (Ok (ret, velo), s') ->
  let adata := if copy then next s else data in
  (exists residual,
     _residual velo = Some residual /\
     layers (heap s' adata) !! vkey
     = Some (final_filter filter_genes velo (dense residual))) /\
  (is_stochastic mode = true ->
   filter_genes && several_values Bool.eqb (_velocity_genes velo) = false /\
   exists residual2,
     _residual2 velo = Some residual2 /\
     layers (heap s' adata) !! ("variance_" +:+ vkey) = Some (dense residual2)).
Proof.
  intros H adata.
  apply velocity_body_inv in H as (r2 & Hon & Hr). fold adata in Hon.
  destruct r2 as [velo'|]; [|done]. injection Hr as _ <-.
  apply velocity_on_Ok in Hon
    as (groups' & v0 & velo_det & s1 & s2 & s3 & s4 & _ & Hg & _ & H3 & H4 & H5 & H6).
  injection Hg as <-.
  destruct (velocity_on_Ok_tail _ _ _ _ _ _ _ H5 H6) as (Hlayers & _).
  apply compute_deterministic_Ok in H3
    as (? & ? & ? & ? & res & ? & ? & ? & _ & _ & _ & _ & Hdet).
  destruct (is_stochastic mode).
  - pose proof H4 as Hmask. apply stochastic_branch_mask in Hmask; [|by rewrite Hdet].
    unfold stochastic_branch, get_residuals in H4.
    apply M_bind_Ok in H4 as (v_in & sa & _ & H4).
    apply M_bind_Ok in H4 as (velo' & sb & _ & H4).
    apply M_bind_Ok in H4 as ([] & sc & H4 & [= -> ->]).
    apply M_bind_Ok in H4 as ([] & sd & Hw1 & Hw2).
    apply set_layer_at_inv in Hw1 as (m1 & Hm1 & Hh1 & _).
    apply set_layer_at_inv in Hw2 as (m2 & Hm2 & Hh2 & _).
    assert (layers (heap s3 adata) !! vkey = Some (dense m1) /\
            layers (heap s3 adata) !! ("variance_" +:+ vkey) = Some (dense m2)) as [E1 E2].
    { rewrite Hh2, Hh1. cbn. rewrite lookup_insert_eq.
      rewrite lookup_insert_ne by apply variance_key_neq. by rewrite lookup_insert_eq. }
    split.
    + exists m1. by rewrite Hlayers, E1.
    + intros _. split; [done|]. exists m2. rewrite Hlayers, E2. unfold final_filter.
      by rewrite Hmask.
  - split; [|done].
    unfold deterministic_branch, get_residuals in H4.
    apply M_bind_Ok in H4 as ([] & sc & Hw1 & [= -> ->]).
    apply set_layer_at_inv in Hw1 as (m1 & Hm1 & Hh1 & _).
    exists m1. split; [done|]. rewrite Hlayers, Hh1. cbn. by rewrite lookup_insert_eq.
Qed.
End LayerFacts.

(** ** Groups of cells *)

Section GroupFacts.
Context {R : Type} {F : Float R} (C : Collaborators R).
Implicit Types (v velo : Velocity R) (s : State R).

Lemma ensure_layer_inv l key s s' :
  ensure_layer (F:=F) l key s = (Ok tt, s') ->
  heap s' l = (if has_key key (layers (heap s l)) then heap s l
               else set_layer key (dense (np_zeros2 (adata_shape (heap s l)))) (heap s l)).
Proof.
  unfold ensure_layer. intros H.
  apply M_bind_Ok in H as (a & s1 & [= <- <-] & H).
  destruct (has_key key (layers (heap s l))); [by injection H as <-|].
  apply set_layer_at_inv in H as (m & [= <-] & Hh & _). done.
Qed.

Lemma ensure_layer_layer l key s s' :
  ensure_layer (F:=F) l key s = (Ok tt, s') ->
  (exists x, layers (heap s' l) !! key = Some x /\ A_ x = layer_or_zeros key (heap s l)) /\
  (forall k, k <> key -> layers (heap s' l) !! k = layers (heap s l) !! k) /\
  adata_shape (heap s' l) = adata_shape (heap s l).
Proof.
  intros H. apply ensure_layer_inv in H. rewrite H. unfold has_key, layer_or_zeros.
  destruct (layers (heap s l) !! key) as [x|] eqn:E.
  - split; [eauto|done].
  - cbn. rewrite lookup_insert_eq. split; [eauto|]. split; [|done].
    intros k Hk. by rewrite lookup_insert_ne.
Qed.

Lemma set_layer_rows_at_inv l key groups value s s' :
  set_layer_rows_at l key groups value s = (Ok tt, s') ->
  exists x vals L,
    layers (heap s l) !! key = Some x /\ value = Some vals /\
    rows_written groups (A_ x) (A_ L) vals /\
    heap s' l = set_layer key L (heap s l).
Proof.
  unfold set_layer_rows_at. intros H.
  apply M_bind_Ok in H as (a & s1 & [[= ->] ->]%load_inv & H).
  apply M_bind_Ok in H as (x & s2 & [Hx ->]%lift_inv & H).
  apply M_bind_Ok in H as (vals & s3 & [Hv ->]%lift_inv & H).
  apply M_bind_Ok in H as (rows & s4 & [Hr ->]%lift_inv & H).
  injection H as <-. cbn. rewrite Nat.eqb_refl.
  unfold get_layer in Hx. destruct (layers (heap s l) !! key) as [x'|] eqn:E; [|done].
  injection Hx as ->.
  destruct value as [vals'|]; [|done]. injection Hv as ->.
  unfold np_mask_assign_rows in Hr. destruct (forallb _ _); [|done].
  pose proof (np_mask_assign_select _ _ _ _ Hr) as Hsel.
  pose proof (np_mask_assign_length _ _ _ _ Hr) as Hlen.
  assert (forall i, groups !! i = Some false -> rows !! i = A_ x !! i) as Hex
    by (intros i Hi; by eapply np_mask_assign_excluded).
  unfold np_mask_assign in Hr.
  destruct (Nat.eqb_spec (length groups) (length (A_ x))) as [Hl|]; [|done].
  exists x, vals, {| issparse := issparse x; A_ := rows |}.
  split; [done|]. split; [done|]. split; [|done]. cbn.
  split; [congruence|]. split; [|done].
  unfold np_mask in Hsel. rewrite Hlen, (proj2 (Nat.eqb_eq _ _) Hl) in Hsel.
  by injection Hsel.
Qed.

Lemma names_replay (t : list (Event R)) (a : AnnData R) :
  Forall (fun e => is_narrowing e = false) t ->
  var_names (replay t a) = var_names a /\ obs_names (replay t a) = obs_names a.
Proof.
  intros Ht. revert a. induction Ht as [|e t He _ IH]; intros a; [done|].
  unfold replay in *. cbn.
  destruct (IH (match e with
                | EvCall _ => a
                | EvEffect _ eff => apply_effect eff a
                end)) as (-> & ->).
  by destruct e as [|? []].
Qed.

(** what line 122 leaves of the dataset *)
Lemma ensure_moments_frame adata use_raw s r s' :
  ensure_moments C adata use_raw s = (r, s') ->
  (forall key, key <> "Ms" -> key <> "Mu" ->
               layers (heap s' adata) !! key = layers (heap s adata) !! key) /\
  var_names (heap s' adata) = var_names (heap s adata) /\
  obs_names (heap s' adata) = obs_names (heap s adata) /\
  obs (heap s' adata) = obs (heap s adata) /\
  (use_raw = true -> s' = s).
Proof.
  intros H.
  assert (forall key, key <> "Ms" -> key <> "Mu" ->
            run (fun e => keeps_layer key e /\ is_narrowing e = false) adata s s') as Hrun.
  { intros key H1 H2. eapply steps_ensure_moments; [| |exact H]; done. }
  split; [|split; [|split; [|split]]].
  - intros key H1 H2. destruct (Hrun key H1 H2) as (_ & _ & t & _ & HP & ->).
    rewrite layers_replay by (eapply Forall_impl; [exact HP|]; by intros e [? _]).
    rewrite masks_nil; [by destruct (layers (heap s adata) !! key)|].
    eapply Forall_impl; [exact HP|]. by intros [|? []] [_ ?].
  - destruct (Hrun "" ltac:(done) ltac:(done)) as (_ & _ & t & _ & HP & ->).
    apply names_replay. eapply Forall_impl; [exact HP|]. by intros e [_ ?].
  - destruct (Hrun "" ltac:(done) ltac:(done)) as (_ & _ & t & _ & HP & ->).
    apply names_replay. eapply Forall_impl; [exact HP|]. by intros e [_ ?].
  - destruct (Hrun "" ltac:(done) ltac:(done)) as (_ & _ & t & _ & HP & ->).
    apply obs_replay.
  - intros ->. unfold ensure_moments in H.
    apply M_bind_inv in H as [(a & s1 & [= <- <-] & H) | (e & [=] & _)].
    by injection H.
Qed.

Lemma resolve_groups_obs groups groupby (a b : AnnData R) :
  obs a = obs b -> resolve_groups groups groupby a = resolve_groups groups groupby b.
Proof. unfold resolve_groups, resolve_groupby. by intros ->. Qed.

Lemma variance_key_not_moments (vkey : string) :
  "variance_" +:+ vkey <> "Ms" /\ "variance_" +:+ vkey <> "Mu".
Proof. done. Qed.

Lemma layer_or_zeros_eq key (a b : AnnData R) :
  layers a !! key = layers b !! key -> adata_shape a = adata_shape b ->
  layer_or_zeros key a = layer_or_zeros key b.
Proof. unfold layer_or_zeros. by intros -> ->. Qed.

(** X10.  In a call with [groups] and without gene filtering that returns,
    where [vkey] is neither 'Ms' nor 'Mu': the layer [vkey] has the rows of
    the residual at the cells the groups select, and at every other cell
    the row the layer had before the call, or a row of zeros if the
    dataset had no such layer.  In stochastic mode the same holds of the
    layer ['variance_' + vkey] and the second-order residual. *)
Theorem groups_rows_only data vkey mode fit_offset fit_offset2 groups groupby
    subset_for_fitting use_raw copy s ret velo s' g :
  vkey <> "Ms" -> vkey <> "Mu" ->
  resolve_groups groups groupby (heap s data) = Ok (Some g) ->
  velocity_body C data vkey mode fit_offset fit_offset2 false groups groupby
    subset_for_fitting use_raw copy s = (Ok (ret, velo), s') ->
  let adata := if copy then next s else data in
  (exists residual L,
     _residual velo = Some residual /\ layers (heap s' adata) !! vkey = Some L /\
     rows_written g (layer_or_zeros vkey (heap s data)) (A_ L) residual) /\
  (is_stochastic mode = true ->
   exists residual2 L2,
     _residual2 velo = Some residual2 /\
     layers (heap s' adata) !! ("variance_" +:+ vkey) = Some L2 /\
     rows_written g (layer_or_zeros ("variance_" +:+ vkey) (heap s data)) (A_ L2) residual2).
Proof.
  intros HMs HMu Hg H adata.
  apply velocity_body_inv in H as (r2 & Hon & Hr). fold adata in Hon.
  destruct r2 as [velo'|]; [|done]. injection Hr as _ <-.
  set (s0 := if copy then _ else s) in *.
  assert (heap s0 adata = heap s data) as Hh0.
  { subst adata s0. destruct copy; cbn; [|done]. by rewrite Nat.eqb_refl. }
  clearbody s0 adata.
  apply velocity_on_Ok in Hon
    as (groups' & v0 & velo_det & s1 & s2 & s3 & s4 & H1 & Hg' & _ & H3 & H4 & H5 & H6).
  apply ensure_moments_frame in H1 as (Hl1 & Hv1 & Ho1 & Hobs1 & _).
  rewrite Hh0 in Hl1, Hv1, Ho1, Hobs1.
  rewrite (resolve_groups_obs _ _ _ _ Hobs1), Hg in Hg'. injection Hg' as <-.
  pose proof (compute_deterministic_heap _ _ _ _ _ _ H3 adata) as Hh2.
  destruct (velocity_on_Ok_tail adata vkey false velo s3 s4 s' H5 H6) as (Hlayers & _).
  assert (forall key, layers (heap s' adata) !! key = layers (heap s3 adata) !! key) as Hfin.
  { intros key. rewrite Hlayers. unfold final_filter. cbn.
    by destruct (layers (heap s3 adata) !! key). }
  assert (forall key, key <> "Ms" -> key <> "Mu" ->
            layer_or_zeros key (heap s2 adata) = layer_or_zeros key (heap s data)) as Hold.
  { intros key K1 K2. rewrite Hh2. apply layer_or_zeros_eq; [auto|].
    unfold adata_shape. by rewrite Hv1, Ho1. }
  clear Hlayers H5 H6 H3.
  destruct (is_stochastic mode).
  - unfold stochastic_branch, get_residuals in H4. cbn [andb] in H4.
    apply M_bind_Ok in H4 as (v_in & sa & [= -> ->] & H4).
    apply M_bind_Ok in H4 as (velo' & sb & Hcs & H4).
    apply M_bind_Ok in H4 as ([] & sc & H4 & [= -> ->]).
    pose proof (compute_stochastic_heap C _ _ _ _ _ _ _ Hcs adata) as Hhb.
    apply M_bind_Ok in H4 as ([] & sd & He1 & H4).
    apply M_bind_Ok in H4 as ([] & se & He2 & H4).
    apply M_bind_Ok in H4 as ([] & sf & Hw1 & Hw2).
    apply ensure_layer_layer in He1 as ((x1 & Hx1 & Ex1) & Hk1 & Hs1).
    apply ensure_layer_layer in He2 as ((x2 & Hx2 & Ex2) & Hk2 & Hs2).
    apply set_layer_rows_at_inv in Hw1 as (y1 & vals1 & L1 & Hy1 & Hv1' & Hr1 & Hh_f).
    apply set_layer_rows_at_inv in Hw2 as (y2 & vals2 & L2 & Hy2 & Hv2' & Hr2 & Hh_3).
    pose proof (variance_key_neq vkey) as Hne.
    pose proof (variance_key_not_moments vkey) as [K1 K2].
    assert (y1 = x1) as ->.
    { rewrite Hk2 in Hy1 by done. congruence. }
    assert (y2 = x2) as ->.
    { rewrite Hh_f in Hy2. cbn in Hy2. rewrite lookup_insert_ne in Hy2 by done. congruence. }
    assert (A_ x1 = layer_or_zeros vkey (heap s data)) as Hold1.
    { rewrite Ex1, Hhb. by apply Hold. }
    assert (A_ x2 = layer_or_zeros ("variance_" +:+ vkey) (heap s data)) as Hold2.
    { rewrite Ex2, <- Hold by done. rewrite <- Hhb.
      apply layer_or_zeros_eq; [by apply Hk1|done]. }
    split.
    + exists vals1, L1. split; [done|]. split; [|by rewrite <- Hold1].
      rewrite Hfin, Hh_3. cbn. rewrite lookup_insert_ne by done.
      rewrite Hh_f. cbn. by rewrite lookup_insert_eq.
    + intros _. exists vals2, L2. split; [done|]. split; [|by rewrite <- Hold2].
      rewrite Hfin, Hh_3. cbn. by rewrite lookup_insert_eq.
  - split; [|done].
    unfold deterministic_branch, get_residuals in H4.
    apply M_bind_Ok in H4 as ([] & sc & H4 & [= -> ->]).
    apply M_bind_Ok in H4 as ([] & sd & He1 & Hw1).
    apply ensure_layer_layer in He1 as ((x1 & Hx1 & Ex1) & Hk1 & Hs1).
    apply set_layer_rows_at_inv in Hw1 as (y1 & vals1 & L1 & Hy1 & Hv1' & Hr1 & Hh_f).
    assert (y1 = x1) as -> by congruence.
    exists vals1, L1. split; [done|]. split.
    + rewrite Hfin, Hh_f. cbn. by rewrite lookup_insert_eq.
    + rewrite <- Hold by done. by rewrite <- Ex1.
Qed.
End GroupFacts.

(** ** The genes a call keeps *)

Section FilterFacts.
Context {R : Type} {F : Float R} (C : Collaborators R).
Implicit Types (v velo : Velocity R) (s : State R).

(** X11.  In a call in deterministic mode that returns, the cells are those
    of the input; the genes are those the mask of velocity genes selects
    when [filter_genes] is set and the mask holds several values, and
    then the mask has one entry per gene of the input; otherwise the genes
    are those of the input.  In particular no gene is removed when no gene
    is a velocity gene. *)
Theorem deterministic_gene_filter data vkey mode fit_offset fit_offset2 filter_genes
    groups groupby subset_for_fitting use_raw copy s ret velo s' :
  is_stochastic mode = false ->
  velocity_body C data vkey mode fit_offset fit_offset2 filter_genes groups groupby
    subset_for_fitting use_raw copy s = (Ok (ret, velo), s') ->
  let adata := if copy then next s else data in
  let idx := _velocity_genes velo in
  obs_names (heap s' adata) = obs_names (heap s data) /\
  (if filter_genes && several_values Bool.eqb idx
   then length idx = length (var_names (heap s data)) /\
        var_names (heap s' adata) = mask_select idx (var_names (heap s data))
   else var_names (heap s' adata) = var_names (heap s data)) /\
  (forall n, idx = replicate n false ->
             var_names (heap s' adata) = var_names (heap s data)).
Proof.
  intros Hmode H adata idx.
  apply velocity_body_inv in H as (r2 & Hon & Hr). fold adata in Hon.
  destruct r2 as [velo'|]; [|done]. injection Hr as _ <-.
  set (s0 := if copy then _ else s) in *.
  assert (heap s0 adata = heap s data) as Hh0.
  { subst adata s0. destruct copy; cbn; [|done]. by rewrite Nat.eqb_refl. }
  clearbody s0 adata.
  apply velocity_on_Ok in Hon
    as (groups' & v0 & velo_det & s1 & s2 & s3 & s4 & H1 & _ & _ & H3 & H4 & H5 & H6).
  apply ensure_moments_frame in H1 as (_ & Hv1 & Ho1 & _ & _).
  pose proof (compute_deterministic_heap _ _ _ _ _ _ H3 adata) as Hh2.
  rewrite Hmode in H4.
  apply deterministic_branch_Ok in H4 as [_ (_ & _ & t & _ & HP & Hh3)].
  destruct (names_replay t (heap s2 adata)) as [Hv3 Ho3].
  { eapply Forall_impl; [exact HP|]. by intros e (_ & _ & ?). }
  rewrite <- Hh3, Hh2, Hv1, Hh0 in Hv3. rewrite <- Hh3, Hh2, Ho1, Hh0 in Ho3.
  destruct (velocity_on_Ok_tail adata vkey filter_genes velo s3 s4 s' H5 H6)
    as (_ & Hv & Ho & Hlen).
  rewrite Hv3 in Hv, Hlen. rewrite Ho3 in Ho. fold idx in Hv, Hlen.
  split; [done|]. split.
  - destruct (filter_genes && several_values Bool.eqb idx); [auto|done].
  - intros n Hn. rewrite Hn in Hv. rewrite several_values_all_false in Hv.
    by rewrite andb_false_r in Hv.
Qed.
End FilterFacts.

Section RebuildFacts.
Context {R : Type} {F : Float R} (C : Collaborators R).
Implicit Types (v velo : Velocity R) (s : State R).

Lemma mapM_Ok_intro {A B : Type} (f : A -> result B) (l : list A) :
  Forall (fun x => exists y, f x = Ok y) l -> exists k, mapM f l = Ok k.
Proof.
  induction 1 as [|x l [y Hy] _ [k IH]]; [by exists []|].
  exists (y :: k). cbn. by rewrite Hy, IH.
Qed.

(** the residual of the deterministic stage has one column per entry of the
    mask of that stage *)
Lemma compute_deterministic_residual_cols fit_offset v s v' s' :
  compute_deterministic C fit_offset v s = (Ok v', s') ->
  exists residual cols,
    _residual v' = Some residual /\
    np_mask_cols (_velocity_genes v') residual = Ok cols.
Proof.
  intros H. apply compute_deterministic_Ok in H
    as (X & Y & offset & gamma & residual & total & r2 & genes & _ & Hres & _ & Hz & ->).
  cbn. apply first_order_residual_length in Hres as (_ & _ & Hw).
  apply np_zip_length in Hz as [_ Hz]. rewrite length_map in Hz.
  destruct (mapM_Ok_intro (np_mask genes) residual) as [cols Hcols].
  { eapply Forall_impl; [exact Hw|]. intros row Hrow. unfold np_mask.
    rewrite (proj2 (Nat.eqb_eq _ _)) by congruence. eauto. }
  eauto.
Qed.

Lemma content_layer_narrowed key idx adata_ adata s s' :
  adata_ = RObj adata \/ (exists g, adata_ = RRows adata g) ->
  heap s' adata = take_cols idx (heap s adata) ->
  layers (heap s adata) !! key = None ->
  layers (content s' adata_) !! key = None.
Proof.
  intros [->|[g ->]] Hh Hl; cbn; rewrite Hh; cbn; by rewrite !lookup_fmap, Hl.
Qed.

Lemma steps_stochastic_branch_plain P adata adata_ groups vkey mode fit_offset fit_offset2
    filter_genes subset_for_fitting velo_det :
  filter_genes && several_values Bool.eqb (_velocity_genes velo_det) = false ->
  _residual velo_det <> None ->
  (forall f, P (EvCall f)) ->
  (forall k x, P (EvEffect adata (SetLayer k x))) ->
  (forall k x, P (EvEffect adata (SetLayerRows k x))) ->
  steps (run P adata)
    (stochastic_branch C adata adata_ groups vkey mode fit_offset fit_offset2
       filter_genes subset_for_fitting velo_det).
Proof.
  intros Hc Hres HP1 HP2 HP3. unfold stochastic_branch. rewrite Hc.
  apply steps_bind; [apply _|apply steps_ret, _|intros v].
  apply steps_bind; [apply _|by apply steps_compute_stochastic|intros v'].
  solve_steps; done.
Qed.

Lemma masks_no_narrowing (t : list (Event R)) :
  Forall (fun e => is_narrowing e = false) t -> masks t = [].
Proof. intros Ht. apply masks_nil. eapply Forall_impl; [exact Ht|]. by intros [|? []]. Qed.

(** the narrowing of line 144 and the estimator of line 145, on a dataset
    without the layer ['Ms'] *)
Lemma rebuild_without_Ms adata adata_ groups vkey mode fit_offset fit_offset2
    subset_for_fitting velo_det residual cols s r s' :
  adata_ = RObj adata \/ (exists g, adata_ = RRows adata g) ->
  several_values Bool.eqb (_velocity_genes velo_det) = true ->
  _residual velo_det = Some residual ->
  np_mask_cols (_velocity_genes velo_det) residual = Ok cols ->
  layers (heap s adata) !! "Ms" = None ->
  stochastic_branch C adata adata_ groups vkey mode fit_offset fit_offset2 true
    subset_for_fitting velo_det s = (r, s') ->
  (r = Raise mask_error /\ s' = s) \/
  (r = Raise (KeyError "Ms") /\
   trace s' = trace s ++ [EvEffect adata (SubsetVar (_velocity_genes velo_det))]).
Proof.
  intros Hview Hc Hres Hcols HMs H.
  unfold stochastic_branch in H. cbn [andb] in H. rewrite Hc, Hres in H.
  assert (not_none (Some residual)
          ≫= (fun r => np_mask_cols (_velocity_genes velo_det) r) = Ok cols) as Hcols'
    by exact Hcols.
  rewrite Hcols' in H.
  assert (forall sn residual',
            inplace_subset_var adata (_velocity_genes velo_det) s = (Ok tt, sn) ->
            Velocity_init adata_ None None subset_for_fitting residual' false sn
            = (Raise (KeyError "Ms"), sn)) as Hinit.
  { intros sn residual' Hsub. apply inplace_subset_var_Ok in Hsub.
    rewrite Velocity_init_run. unfold get_layer.
    erewrite (content_layer_narrowed "Ms" _ adata_ adata s sn); try done.
    by rewrite Hsub; cbn; rewrite Nat.eqb_refl. }
  apply M_bind_inv in H as [(v_in & sa & H1 & _) | (e & H1 & ->)].
  - exfalso. apply M_bind_Ok in H1 as ([] & sn & Hsub & H1).
    apply M_bind_Ok in H1 as (res' & sn' & [_ ->]%lift_inv & H1).
    by rewrite (Hinit _ _ Hsub) in H1.
  - apply M_bind_inv in H1 as [([] & sn & Hsub & H1) | (e' & Hsub & ->)].
    + right.
      apply M_bind_inv in H1
        as [(res' & sn' & [_ ->]%lift_inv & H1) | (e' & [[=] _]%lift_inv & _)].
      rewrite (Hinit _ _ Hsub) in H1. injection H1 as <- <-.
      apply inplace_subset_var_Ok in Hsub. by rewrite Hsub.
    + left. unfold inplace_subset_var in Hsub.
      apply M_bind_inv in Hsub as [(a & s1 & [= <- <-] & Hsub) | (e'' & [=] & _)].
      destruct (Nat.eqb _ _); [done|]. by injection Hsub as <- <-.
Qed.

Lemma velocity_on_rebuild_raw adata vkey mode fit_offset fit_offset2 groups groupby
    subset_for_fitting s r s' :
  is_stochastic mode = true ->
  layers (heap s adata) !! "Ms" = None ->
  velocity_on C adata vkey mode fit_offset fit_offset2 true groups groupby
    subset_for_fitting true s = (r, s') ->
  exists t : list (Event R),
    trace s' = trace s ++ t /\
    (masks t <> [] -> r = Raise (KeyError "Ms") /\ EvCall f_compute_stochastic ∉ t).
Proof.
  intros Hmode HMs Hon.
  unfold velocity_on in Hon. rewrite Hmode in Hon.
  apply M_bind_inv in Hon as [([] & s1 & H1 & Hon) | (e & H1 & _)];
    apply ensure_moments_frame in H1 as (_ & _ & _ & _ & Hs1);
    specialize (Hs1 eq_refl); subst;
    [|exists []; by rewrite app_nil_r].
  apply M_bind_inv in Hon as [(a & s1 & [= <- <-] & Hon) | (e & [=] & _)].
  apply M_bind_inv in Hon
    as [(groups' & s1 & [_ ->]%lift_inv & Hon) | (e & [_ ->]%lift_inv & _)];
    [|exists []; by rewrite app_nil_r].
  set (adata_ := match groups' with None => RObj adata | Some g => RRows adata g end) in *.
  assert (adata_ = RObj adata \/ (exists g, adata_ = RRows adata g)) as Hview
    by (subst adata_; destruct groups'; eauto).
  clearbody adata_.
  apply M_bind_inv in Hon as [(v0 & s1 & H2 & Hon) | (e & H2 & _)];
    rewrite Velocity_init_run in H2; injection H2 as _ <-;
    [|exists []; by rewrite app_nil_r].
  apply M_bind_inv in Hon as [(velo_det & s2 & H3 & Hon) | (e & H3 & ->)].
  2:{ assert (run is_call adata s s') as Hrun
        by (eapply steps_compute_deterministic; [| | |exact H3]; done).
      apply run_calls in Hrun as (_ & _ & t & Ht & HP). exists t. split; [done|].
      intros Hm. exfalso. apply Hm. apply masks_nil.
      eapply Forall_impl; [exact HP|]. by intros [|]. }
  pose proof (compute_deterministic_state _ _ _ _ _ _ H3) as Hs2.
  pose proof (compute_deterministic_residual_cols _ _ _ _ _ H3)
    as (residual & cols & Hres & Hcols).
  assert (layers (heap s2 adata) !! "Ms" = None) as HMs2 by (by rewrite Hs2).
  assert (trace s2 = trace s ++ deterministic_calls) as Ht2 by (by rewrite Hs2).
  clear Hs2 H3.
  apply M_bind_inv in Hon as [(velo & s3 & H4 & Hon) | (e & H4 & ->)].
  - (* the branch returns: the genes were not narrowed *)
    destruct (several_values Bool.eqb (_velocity_genes velo_det)) eqn:Hc.
    { by eapply rebuild_without_Ms in H4 as [[[=] _]|[[=] _]]. }
    pose proof H4 as Hfin. apply stochastic_branch_mask in Hfin; [|by rewrite Hres].
    assert (run (fun e => is_narrowing e = false) adata s2 s3)
      as (_ & _ & t3 & Ht3 & HP3 & _).
    { eapply steps_stochastic_branch_plain; [| | | | |exact H4]; try done.
      by rewrite Hres. }
    rewrite Hfin in Hon.
    apply M_bind_inv in Hon as [([] & s4 & H5 & H6) | (e & H5 & _)];
      apply write_pars_inv in H5 as (Hr5 & _ & _ & Ht5 & _); [|done].
    injection H6 as <- <-.
    eexists. split; [rewrite Ht5, Ht3, Ht2; by rewrite <- !app_assoc|].
    intros Hm. exfalso. apply Hm. rewrite !masks_app.
    rewrite (masks_no_narrowing t3) by done. cbn.
    apply masks_no_narrowing.
    eapply Forall_impl; [apply pars_events_set_var|]. by intros [|? []].
  - destruct (several_values Bool.eqb (_velocity_genes velo_det)) eqn:Hc.
    + eapply rebuild_without_Ms in H4 as [[-> ->]|[-> Ht4]]; try done.
      * exists deterministic_calls. split; [done|]. intros Hm. by exfalso.
      * eexists. split; [rewrite Ht4, Ht2; by rewrite <- app_assoc|].
        intros _. split; [done|].
        intros Hin. by repeat (apply elem_of_cons in Hin as [?|Hin]; [done|]);
          apply elem_of_nil in Hin.
    + assert (run (fun e => is_narrowing e = false) adata s2 s')
        as (_ & _ & t3 & Ht3 & HP3 & _).
      { eapply steps_stochastic_branch_plain; [| | | | |exact H4]; try done.
        by rewrite Hres. }
      eexists. split; [rewrite Ht3, Ht2; by rewrite <- !app_assoc|].
      intros Hm. exfalso. apply Hm. rewrite !masks_app.
      by rewrite (masks_no_narrowing t3).
Qed.

(** X12.  A call with [use_raw=True] in stochastic mode with
    [filter_genes=True] on a dataset without the layer ['Ms']: if the call
    narrows the genes (line 144), it raises [KeyError('Ms')], because the
    estimator of line 145 is built without [use_raw], and the stochastic
    stage is not run; so a call that returns has narrowed nothing. *)
Theorem rebuild_ignores_use_raw data vkey mode fit_offset fit_offset2 groups groupby
    subset_for_fitting copy s r s' :
  is_stochastic mode = true ->
  layers (heap s data) !! "Ms" = None ->
  velocity C data vkey mode fit_offset fit_offset2 true groups groupby
    subset_for_fitting true copy s = (r, s') ->
  exists t : list (Event R),
    trace s' = trace s ++ t /\
    (masks t <> [] -> r = Raise (KeyError "Ms") /\ EvCall f_compute_stochastic ∉ t) /\
    (forall x, r = Ok x -> masks t = []).
Proof.
  intros Hmode HMs H.
  apply velocity_inv in H as (r1 & H & ->).
  apply velocity_body_inv in H as (r2 & Hon & ->).
  set (adata := if copy then next s else data) in *.
  set (s0 := if copy then _ else s) in *.
  assert (heap s0 adata = heap s data) as Hh0.
  { subst adata s0. destruct copy; cbn; [|done]. by rewrite Nat.eqb_refl. }
  assert (trace s0 = trace s) as Ht0 by (subst s0; by destruct copy).
  clearbody s0 adata.
  apply velocity_on_rebuild_raw in Hon as (t & Ht & Hm); [|done|by rewrite Hh0].
  exists t. split; [by rewrite Ht, Ht0|]. split.
  - intros Hne. destruct (Hm Hne) as [-> ?]. done.
  - intros x Hx. destruct (masks t) eqn:E; [done|].
    destruct Hm as [-> _]; done.
Qed.
End RebuildFacts.

(** * Properties of the preprocessing functions *)

(** ** The store and the tables *)

Section PrepFacts.
Context {R U : Type}.
Implicit Types (s : Store R U).

Lemma Prep_bind_inv {A B : Type} (m : Prep R U A) (f : A -> Prep R U B) s s' (r : result B) :
  (m ≫= f) s = (r, s') ->
  (exists a s1, m s = (Ok a, s1) /\ f a s1 = (r, s')) \/
  (exists e, m s = (Raise e, s') /\ r = Raise e).
Proof.
  unfold mbind, Prep_bind. destruct (m s) as [[a|e] s1]; intros H.
  - left. eauto.
  - right. injection H as <- <-. eauto.
Qed.

Lemma Prep_bind_Ok {A B : Type} (m : Prep R U A) (f : A -> Prep R U B) s s' (b : B) :
  (m ≫= f) s = (Ok b, s') -> exists a s1, m s = (Ok a, s1) /\ f a s1 = (Ok b, s').
Proof. intros H. apply Prep_bind_inv in H as [H | (e & _ & [=])]. exact H. Qed.


#[global] Instance changes_only_preorder l : PreOrder (changes_only (R:=R) (U:=U) l).
Proof.
  split.
  - by intros s.
  - intros s1 s2 s3 [Hf1 Ho1] [Hf2 Ho2]. split; [congruence|].
    intros l' Hl'. rewrite Ho2, Ho1; done.
Qed.
End PrepFacts.

Section TableFacts.
Context {V : Type}.
Implicit Types (d : gmap string V).


Lemma del_keys_lookup keep ks d k :
  del_keys keep ks d !! k
  = if bool_decide (k ∈ ks) && negb (name_in k keep) then None else d !! k.
Proof.
  unfold del_keys. revert d. induction ks as [|key ks IH]; intros d; cbn [fold_left]; [done|].
  rewrite IH. destruct (decide (k = key)) as [->|Hne].
  - rewrite (bool_decide_eq_true_2 (key ∈ key :: ks)) by left.
    destruct (name_in key keep); cbn.
    + by rewrite andb_false_r.
    + rewrite lookup_delete_eq. by destruct (bool_decide _).
  - assert (bool_decide (k ∈ key :: ks) = bool_decide (k ∈ ks)) as ->.
    { apply bool_decide_ext. rewrite elem_of_cons. split; [by intros [?|?]|by right]. }
    destruct (name_in key keep); [done|]. by rewrite lookup_delete_ne.
Qed.

Lemma elem_of_keys d k : k ∈ keys d <-> is_Some (d !! k).
Proof.
  unfold keys. rewrite list_elem_of_fmap. split.
  - intros ([k' v] & -> & Hin). apply elem_of_map_to_list in Hin. by eexists.
  - intros [v Hv]. exists (k, v). split; [done|]. by apply elem_of_map_to_list.
Qed.

Lemma keys_NoDup d : NoDup (keys d).
Proof. apply NoDup_fst_map_to_list. Qed.

Lemma del_keys_kept keep d : del_keys keep (keys d) d = kept keep d.
Proof.
  apply map_eq. intros k. rewrite del_keys_lookup. unfold kept.
  destruct (d !! k) as [v|] eqn:Hk.
  - rewrite bool_decide_eq_true_2 by (apply elem_of_keys; eauto). cbn.
    destruct (name_in k keep) eqn:Hin; cbn; symmetry.
    + apply map_lookup_filter_Some. done.
    + apply map_lookup_filter_None. right. intros v' _. cbn. congruence.
  - rewrite (proj2 (map_lookup_filter_None _ _ _)); [by destruct (_ && _)|]. by left.
Qed.

Lemma kept_lookup keep d k :
  kept keep d !! k = if name_in k keep then d !! k else None.
Proof.
  unfold kept. destruct (name_in k keep) eqn:Hin.
  - destruct (d !! k) as [v|] eqn:Hk.
    + by apply map_lookup_filter_Some.
    + apply map_lookup_filter_None. by left.
  - apply map_lookup_filter_None. right. intros v _. cbn. congruence.
Qed.

Lemma kept_idem keep d : kept keep (kept keep d) = kept keep d.
Proof.
  apply map_eq. intros k. rewrite !kept_lookup. by destruct (name_in k keep).
Qed.
End TableFacts.

Section CleanTable.
Context {R U V : Type}.
Context (get : AnnDataFull R U -> gmap string V)
        (set : gmap string V -> AnnDataFull R U -> AnnDataFull R U).
Hypothesis get_set : forall d a, get (set d a) = d.
Hypothesis set_set : forall d d' a, set d (set d' a) = set d a.
Hypothesis set_get : forall a, set (get a) a = a.
Implicit Types (s : Store R U).

Lemma clean_loop adata keep ks s :
  NoDup ks -> (forall k, k ∈ ks -> is_Some (get (objects s adata) !! k)) ->
  exists s',
    prep_for_each ks (fun key =>
      if name_in key keep then mret tt
      else
        a ← get_object adata;
        d ← prep_lift (py_del key (get a));
        put_object adata (set d a)) s = (Ok tt, s') /\
    changes_only adata s s' /\ calls s' = calls s /\
    objects s' adata = set (del_keys keep ks (get (objects s adata))) (objects s adata).
Proof.
  intros Hnd. revert s. induction Hnd as [|k ks Hk Hnd IH]; intros s Hin.
  - exists s. cbn. by rewrite set_get.
  - cbn [prep_for_each]. unfold mbind at 1, Prep_bind.
    destruct (name_in k keep) eqn:Hkeep.
    + cbn. destruct (IH s) as (s' & Hrun & Hch & Hc & Ho).
      { intros k' Hk'. apply Hin. by right. }
      exists s'. unfold del_keys in *. cbn [fold_left]. by rewrite Hkeep.
    + destruct (Hin k ltac:(left)) as [v Hv].
      unfold mbind at 1 2, Prep_bind, get_object, prep_lift, py_del, put_object.
      rewrite Hv.
      match goal with
      | |- context [prep_for_each ks ?body ?s1] =>
          destruct (IH s1) as (s' & Hrun & Hch & Hc & Ho)
      end.
      { intros k' Hk'. cbn. rewrite Nat.eqb_refl, get_set.
        rewrite lookup_delete_ne by (intros ->; done). apply Hin. by right. }
      exists s'. split; [exact Hrun|]. cbn in *. rewrite Nat.eqb_refl in *.
      split; [|split; [done|]].
      * destruct Hch as [Hf Hoth]. split; [done|]. intros l' Hl'.
        rewrite Hoth by done. cbn. by destruct (Nat.eqb_spec l' adata).
      * rewrite Ho, get_set, set_set. unfold del_keys. cbn [fold_left]. by rewrite Hkeep.
Qed.

Lemma clean_table_run adata keep s :
  exists s',
    clean_table get set adata keep s = (Ok tt, s') /\
    changes_only adata s s' /\ calls s' = calls s /\
    objects s' adata = set (kept keep (get (objects s adata))) (objects s adata).
Proof.
  unfold clean_table. unfold mbind at 1, Prep_bind, get_object.
  destruct (clean_loop adata keep (keys (get (objects s adata))) s) as (s' & H & Hrest).
  - apply keys_NoDup.
  - intros k. apply elem_of_keys.
  - exists s'. split; [exact H|]. by rewrite <- del_keys_kept.
Qed.
End CleanTable.

(** ** [cleanup] *)

Section CleanupFacts.
Context {R U : Type}.
Implicit Types (s : Store R U).

Lemma cleanup_run (data : loc) (clean keep : Names) (copy : bool) s :
  let adata := if copy then fresh s else data in
  exists s',
    cleanup data clean keep copy s = (Ok (if copy then Some adata else None), s') /\
    calls s' = calls s /\
    fresh s' = (if copy then S (fresh s) else fresh s) /\
    (forall l, l <> adata -> objects s' l = objects s l) /\
    objects s' adata = cleaned clean keep (objects s data).
Proof.
  intros adata. unfold cleanup.
  set (s0 := if copy
             then {| objects := fun l' => if Nat.eqb l' (fresh s) then objects s data
                                          else objects s l';
                     fresh := S (fresh s); calls := calls s |}
             else s).
  assert ((if copy then copy_object data else mret data) s = (Ok adata, s0)) as Hcopy
    by (subst adata s0; by destruct copy).
  assert (objects s0 adata = objects s data) as Ho0.
  { subst adata s0. destruct copy; cbn; [|done]. by rewrite Nat.eqb_refl. }
  assert (forall l, l <> adata -> objects s0 l = objects s l) as Hoth0.
  { subst adata s0. intros l Hl. destruct copy; cbn; [|done].
    by destruct (Nat.eqb_spec l (fresh s)). }
  assert (fresh s0 = (if copy then S (fresh s) else fresh s)) as Hf0
    by (subst s0; by destruct copy).
  assert (calls s0 = calls s) as Hc0 by (subst s0; by destruct copy).
  clearbody s0 adata.
  unfold mbind at 1, Prep_bind. rewrite Hcopy.
  destruct (clean_table_run (fun a => obs (base a)) set_obs
              ltac:(done) ltac:(done) ltac:(by intros [[] ? ?]) adata keep s0)
    as (s1 & H1 & [Hf1 Hoth1] & Hc1 & Ho1).
  assert (exists s1', (if name_in "obs" clean || name_in "all" clean
                       then clean_table (fun a => obs (base a)) set_obs adata keep
                       else mret tt) s0 = (Ok tt, s1') /\
                      calls s1' = calls s0 /\ fresh s1' = fresh s0 /\
                      (forall l, l <> adata -> objects s1' l = objects s0 l) /\
                      objects s1' adata
                      = (if name_in "obs" clean || name_in "all" clean
                         then set_obs (kept keep (obs (base (objects s0 adata))))
                                (objects s0 adata)
                         else objects s0 adata)) as (s1' & E1 & Hc1' & Hf1' & Hoth1' & Ho1').
  { destruct (name_in "obs" clean || _); [exists s1|exists s0]; done. }
  clear s1 H1 Hf1 Hoth1 Hc1 Ho1.
  destruct (clean_table_run (fun a => var (base a)) set_var_table
              ltac:(done) ltac:(done) ltac:(by intros [[] ? ?]) adata keep s1')
    as (s2 & H2 & [Hf2 Hoth2] & Hc2 & Ho2).
  assert (exists s2', (if name_in "var" clean || name_in "all" clean
                       then clean_table (fun a => var (base a)) set_var_table adata keep
                       else mret tt) s1' = (Ok tt, s2') /\
                      calls s2' = calls s1' /\ fresh s2' = fresh s1' /\
                      (forall l, l <> adata -> objects s2' l = objects s1' l) /\
                      objects s2' adata
                      = (if name_in "var" clean || name_in "all" clean
                         then set_var_table (kept keep (var (base (objects s1' adata))))
                                (objects s1' adata)
                         else objects s1' adata)) as (s2' & E2 & Hc2' & Hf2' & Hoth2' & Ho2').
  { destruct (name_in "var" clean || _); [exists s2|exists s1']; done. }
  clear s2 H2 Hf2 Hoth2 Hc2 Ho2.
  destruct (clean_table_run uns set_uns
              ltac:(done) ltac:(done) ltac:(by intros [[] ? ?]) adata keep s2')
    as (s3 & H3 & [Hf3 Hoth3] & Hc3 & Ho3).
  assert (exists s3', (if name_in "uns" clean || name_in "all" clean
                       then clean_table uns set_uns adata keep
                       else mret tt) s2' = (Ok tt, s3') /\
                      calls s3' = calls s2' /\ fresh s3' = fresh s2' /\
                      (forall l, l <> adata -> objects s3' l = objects s2' l) /\
                      objects s3' adata
                      = (if name_in "uns" clean || name_in "all" clean
                         then set_uns (kept keep (uns (objects s2' adata)))
                                (objects s2' adata)
                         else objects s2' adata)) as (s3' & E3 & Hc3' & Hf3' & Hoth3' & Ho3').
  { destruct (name_in "uns" clean || _); [exists s3|exists s2']; done. }
  clear s3 H3 Hf3 Hoth3 Hc3 Ho3.
  destruct (clean_table_run (fun a => layers (base a)) set_layers
              ltac:(done) ltac:(done) ltac:(by intros [[] ? ?]) adata keep s3')
    as (s4 & H4 & [Hf4 Hoth4] & Hc4 & Ho4).
  assert (exists s4', (if name_in "layers" clean || name_in "all" clean
                       then clean_table (fun a => layers (base a)) set_layers adata keep
                       else mret tt) s3' = (Ok tt, s4') /\
                      calls s4' = calls s3' /\ fresh s4' = fresh s3' /\
                      (forall l, l <> adata -> objects s4' l = objects s3' l) /\
                      objects s4' adata
                      = (if name_in "layers" clean || name_in "all" clean
                         then set_layers (kept keep (layers (base (objects s3' adata))))
                                (objects s3' adata)
                         else objects s3' adata)) as (s4' & E4 & Hc4' & Hf4' & Hoth4' & Ho4').
  { destruct (name_in "layers" clean || _); [exists s4|exists s3']; done. }
  clear s4 H4 Hf4 Hoth4 Hc4 Ho4.
  exists s4'. unfold mbind, Prep_bind. rewrite E1, E2, E3, E4.
  split; [done|]. split; [congruence|]. split; [congruence|]. split.
  - intros l Hl. rewrite Hoth4', Hoth3', Hoth2', Hoth1', Hoth0; done.
  - rewrite Ho4', Ho3', Ho2', Ho1', Ho0. unfold cleaned.
    destruct (objects s data) as [[] ? ?].
    destruct (name_in "obs" clean || _), (name_in "var" clean || _),
      (name_in "uns" clean || _), (name_in "layers" clean || _); reflexivity.
Qed.

Lemma cleaned_idem (clean keep : Names) (a : AnnDataFull R U) :
  cleaned clean keep (cleaned clean keep a) = cleaned clean keep a.
Proof.
  unfold cleaned. cbn.
  destruct (name_in "obs" clean || _), (name_in "var" clean || _),
    (name_in "uns" clean || _), (name_in "layers" clean || _);
    by rewrite ?kept_idem.
Qed.

(** X13.  [cleanup] returns, whatever [clean] and [keep] are: the keys it
    deletes are keys of the table it reads them from.  It calls none of the
    imported functions.  With [copy=True] it returns a new object and
    leaves every object the store had as it was; with [copy=False] it
    returns [None], allocates nothing and changes the object [data]
    alone. *)
Theorem cleanup_copy (data : loc) (clean keep : Names) (copy : bool) s :
  data < fresh s ->
  exists s',
    cleanup data clean keep copy s = (Ok (if copy then Some (fresh s) else None), s') /\
    calls s' = calls s /\
    if copy
    then fresh s' = S (fresh s) /\ forall l, l < fresh s -> objects s' l = objects s l
    else fresh s' = fresh s /\ forall l, l <> data -> objects s' l = objects s l.
Proof.
  intros Hdata.
  destruct (cleanup_run data clean keep copy s) as (s' & Hrun & Hc & Hf & Hoth & _).
  exists s'. destruct copy.
  - split; [exact Hrun|]. split; [done|]. split; [done|].
    intros l Hl. apply Hoth. lia.
  - done.
Qed.

(** X14.  After [cleanup] the dataset it worked on has the matrix [X] and the
    names of the input; of each of the tables [obs], [var], [uns] and
    [layers] that [clean] names (itself, or by 'all'; [in] on a string is
    the substring test) it keeps the entries whose key is in [keep], and
    the other tables are those of the input. *)
Theorem cleanup_tables (data : loc) (clean keep : Names) (copy : bool) s r s' :
  cleanup data clean keep copy s = (r, s') ->
  let a := objects s data in
  let a' := objects s' (if copy then fresh s else data) in
  let cleared (name key : string) :=
    (name_in name clean || name_in "all" clean) && negb (name_in key keep) in
  X a' = X a /\
  obs_names (base a') = obs_names (base a) /\
  var_names (base a') = var_names (base a) /\
  forall key,
    obs (base a') !! key = (if cleared "obs" key then None else obs (base a) !! key) /\
    var (base a') !! key = (if cleared "var" key then None else var (base a) !! key) /\
    uns a' !! key = (if cleared "uns" key then None else uns a !! key) /\
    layers (base a') !! key
    = (if cleared "layers" key then None else layers (base a) !! key).
Proof.
  intros H.
  destruct (cleanup_run data clean keep copy s) as (s1 & Hrun & _ & _ & _ & Ho).
  rewrite Hrun in H. injection H as _ <-. cbn zeta. rewrite Ho. unfold cleaned. cbn.
  split; [done|]. split; [done|]. split; [done|].
  intros key.
  destruct (name_in "obs" clean || _), (name_in "var" clean || _),
    (name_in "uns" clean || _), (name_in "layers" clean || _);
    cbn; rewrite ?kept_lookup; by destruct (name_in key keep).
Qed.

(** X15.  A second [cleanup] in place with the same arguments returns
    [None] and changes no object of the store. *)
Theorem cleanup_idempotent (data : loc) (clean keep : Names) s r s' r2 s2 :
  cleanup data clean keep false s = (r, s') ->
  cleanup data clean keep false s' = (r2, s2) ->
  r2 = Ok None /\ forall l, objects s2 l = objects s' l.
Proof.
  intros H1 H2.
  destruct (cleanup_run data clean keep false s) as (s1' & Hrun1 & _ & _ & _ & Ho1).
  rewrite Hrun1 in H1. injection H1 as _ <-.
  destruct (cleanup_run data clean keep false s1') as (s2' & Hrun2 & _ & _ & Hoth2 & Ho2).
  rewrite Hrun2 in H2. injection H2 as <- <-. split; [done|].
  intros l. destruct (decide (l = data)) as [->|Hl]; [|by apply Hoth2].
  cbn in *. by rewrite Ho2, Ho1, cleaned_idem.
Qed.
End CleanupFacts.

(** ** [filter_and_normalize] and [recipe_velocity] *)

Section PrepSteps.
Context {R U : Type}.
Implicit Types (s : Store R U).


#[global] Instance works_on_preorder l : PreOrder (works_on (R:=R) (U:=U) l).
Proof.
  split.
  - intros s. split; [reflexivity|]. exists []. by rewrite app_nil_r.
  - intros s1 s2 s3 [H1 [t1 Ht1]] [H2 [t2 Ht2]]. split; [by transitivity s2|].
    exists (t1 ++ t2). by rewrite Ht2, Ht1, app_assoc.
Qed.

Section PrepRules.
Context (Rel : relation (Store R U)) `{!PreOrder Rel}.

Lemma prep_steps_bind {A B : Type} (m : Prep R U A) (f : A -> Prep R U B) :
  prep_steps Rel m -> (forall a, prep_steps Rel (f a)) -> prep_steps Rel (m ≫= f).
Proof.
  intros Hm Hf s r s' H.
  apply Prep_bind_inv in H as [(a & s1 & H1 & H2) | (e & H1 & _)].
  - transitivity s1; [by eapply Hm | by eapply Hf].
  - by eapply Hm.
Qed.

Lemma prep_steps_ret {A : Type} (a : A) : prep_steps Rel (mret a : Prep R U A).
Proof. intros s r s' [= <- <-]. reflexivity. Qed.

Lemma prep_steps_lift {A : Type} (x : result A) : prep_steps Rel (prep_lift x : Prep R U A).
Proof. intros s r s' [= <- <-]. reflexivity. Qed.

Lemma prep_steps_get (l : loc) : prep_steps Rel (get_object l : Prep R U _).
Proof. intros s r s' [= <- <-]. reflexivity. Qed.
End PrepRules.

Lemma prep_steps_put l (a : AnnDataFull R U) : prep_steps (works_on l) (put_object l a).
Proof.
  intros s r s' [= <- <-]. split; [split; [done|]|].
  - intros l' Hl'. cbn. by destruct (Nat.eqb_spec l' l).
  - exists []. cbn. by rewrite app_nil_r.
Qed.

Lemma prep_steps_log l (c : Call) : prep_steps (works_on l) (log_call (R:=R) (U:=U) c).
Proof. intros s r s' [= <- <-]. split; [done|]. by exists [c]. Qed.
End PrepSteps.

Ltac prep_step :=
  first
    [ apply prep_steps_bind; [apply _| |intros ?]
    | apply prep_steps_ret; apply _
    | apply prep_steps_lift; apply _
    | apply prep_steps_get; apply _
    | apply prep_steps_put
    | apply prep_steps_log
    | match goal with
      | |- prep_steps _ (match ?x with _ => _ end) => destruct x eqn:?
      end ].

Ltac prep_steps_tac :=
  unfold filter_and_normalize_on, filter_genes_u, subset_var, inplace, pure_call;
  repeat prep_step.


Section NormalizeFacts.
Context {R U FR : Type} {K : Counts R} (imp : pp.Imports R U FR).
Implicit Types (s : Store R U).

Lemma filter_and_normalize_on_works adata min_counts min_counts_u min_cells min_cells_u
    n_top_genes log plot :
  prep_steps (works_on adata)
    (filter_and_normalize_on imp adata min_counts min_counts_u min_cells min_cells_u
       n_top_genes log plot).
Proof. prep_steps_tac. Qed.

Lemma filter_and_normalize_inv data min_counts min_counts_u min_cells min_cells_u
    n_top_genes log plot copy s r s' :
  filter_and_normalize imp data min_counts min_counts_u min_cells min_cells_u n_top_genes
    log plot copy s = (r, s') ->
  let adata := if copy then fresh s else data in
  let s0 := if copy
            then {| objects := fun l' => if Nat.eqb l' (fresh s) then objects s data
                                         else objects s l';
                    fresh := S (fresh s); calls := calls s |}
            else s in
  exists r1,
    filter_and_normalize_on imp adata min_counts min_counts_u min_cells min_cells_u
      n_top_genes log plot s0 = (r1, s') /\
    r = match r1 with
        | Ok _ => Ok (if copy then Some adata else None)
        | Raise e => Raise e
        end.
Proof.
  unfold filter_and_normalize, mbind, Prep_bind, mret, Prep_ret, copy_object.
  destruct copy; cbn;
    match goal with
    | |- context [filter_and_normalize_on ?a ?b ?c ?d ?e ?f ?g ?h ?i ?j] =>
        destruct (filter_and_normalize_on a b c d e f g h i j) as [[[]|e'] s2]
    end; intros [= <- <-]; eauto.
Qed.

(** X16.  [filter_and_normalize] with [copy=True] leaves every object the
    store had as it was, whether it returns or raises, and what it returns
    is a new object; with [copy=False] it allocates nothing, changes the
    object [data] alone and returns [None]. *)
Theorem filter_and_normalize_copy data min_counts min_counts_u min_cells min_cells_u
    n_top_genes log plot copy s r s' :
  data < fresh s ->
  filter_and_normalize imp data min_counts min_counts_u min_cells min_cells_u n_top_genes
    log plot copy s = (r, s') ->
  if copy
  then fresh s' = S (fresh s) /\
       (forall l, l < fresh s -> objects s' l = objects s l) /\
       (forall x, r = Ok x -> x = Some (fresh s))
  else fresh s' = fresh s /\
       (forall l, l <> data -> objects s' l = objects s l) /\
       (forall x, r = Ok x -> x = None).
Proof.
  intros Hdata H. apply filter_and_normalize_inv in H as (r1 & Hon & ->).
  apply filter_and_normalize_on_works in Hon as [[Hf Hoth] _].
  destruct copy; cbn in *.
  - split; [done|]. split.
    + intros l Hl. rewrite Hoth by lia. by destruct (Nat.eqb_spec l (fresh s)); [lia|].
    + intros x Hx. destruct r1 as [[]|]; [|done]. by injection Hx.
  - split; [done|]. split; [done|].
    intros x Hx. destruct r1 as [[]|]; [|done]. by injection Hx.
Qed.

Lemma inplace_Ok (c : Call) f l s s' :
  inplace (R:=R) (U:=U) c f l s = (Ok tt, s') -> calls s' = calls s ++ [c].
Proof.
  unfold inplace, mbind, Prep_bind, log_call, get_object, put_object, prep_lift. cbn.
  destruct (f (objects s l)) as [[[]|e] a']; intros [= <-]; done.
Qed.

Lemma pure_call_Ok {A : Type} (c : Call) (x : result A) s a s' :
  pure_call (R:=R) (U:=U) c x s = (Ok a, s') -> calls s' = calls s ++ [c].
Proof.
  unfold pure_call, mbind, Prep_bind, log_call, prep_lift.
  destruct x; intros [= <- <-]; done.
Qed.

Lemma subset_var_calls l idx s r s' :
  subset_var (R:=R) (U:=U) l idx s = (r, s') -> calls s' = calls s.
Proof.
  unfold subset_var, mbind, Prep_bind, get_object, put_object, prep_lift.
  destruct (Nat.eqb _ _); intros [= <- <-]; done.
Qed.

Lemma filter_genes_u_calls adata min_counts_u min_cells_u s r s' :
  filter_genes_u adata min_counts_u min_cells_u s = (r, s') -> calls s' = calls s.
Proof.
  unfold filter_genes_u. intros H.
  apply Prep_bind_inv in H as [(a & s1 & [= <- <-] & H) | (e & [=] & _)].
  apply Prep_bind_inv in H as [(u & s1 & [= _ <-] & H) | (e & [= _ <-] & _)]; [|done].
  apply Prep_bind_inv in H as [(m & s1 & [= _ <-] & H) | (e & [= _ <-] & _)]; [|done].
  by apply subset_var_calls in H.
Qed.

Lemma filter_and_normalize_on_calls adata min_counts min_counts_u min_cells min_cells_u
    n_top_genes log plot s s' :
  filter_and_normalize_on imp adata min_counts min_counts_u min_cells min_cells_u
    n_top_genes log plot s = (Ok tt, s') ->
  exists t,
    calls s' = calls s ++ filter_calls min_counts min_cells ++ t ++ final_calls log /\
    (t = [] \/ exists n, n_top_genes = Some n /\ t = dispersion_calls n plot).
Proof.
  unfold filter_and_normalize_on. intros H.
  apply Prep_bind_Ok in H as ([] & s1 & H1 & H).
  apply Prep_bind_Ok in H as ([] & s2 & H2 & H).
  apply Prep_bind_Ok in H as (a & s2' & [= <- <-] & H).
  apply Prep_bind_Ok in H as ([] & s3 & H3 & H).
  apply Prep_bind_Ok in H as (a' & s3' & [= <- <-] & H).
  apply Prep_bind_Ok in H as ([] & s4 & H4 & H).
  apply Prep_bind_Ok in H as ([] & s5 & H5 & H6).
  assert (calls s2 = calls s ++ filter_calls min_counts min_cells) as E2.
  { unfold filter_calls.
    assert (calls s1 = calls s ++ match min_counts with
                                  | Some c => [c_filter_genes (Some c) None]
                                  | None => []
                                  end) as E1.
    { destruct min_counts; [by apply inplace_Ok in H1|].
      injection H1 as <-. by rewrite app_nil_r. }
    rewrite app_assoc, <- E1.
    destruct min_cells; [by apply inplace_Ok in H2|].
    injection H2 as <-. by rewrite app_nil_r. }
  assert (calls s3 = calls s2) as E3.
  { destruct (has_key _ _); [|by injection H3 as <-].
    apply Prep_bind_Ok in H3 as ([] & s2' & H3 & H3').
    transitivity (calls s2').
    - destruct min_cells_u; [by apply filter_genes_u_calls in H3'|by injection H3' as <-].
    - destruct min_counts_u; [by apply filter_genes_u_calls in H3|by injection H3 as <-]. }
  assert (exists t, calls s4 = calls s3 ++ t /\
                    (t = [] \/ exists n, n_top_genes = Some n /\ t = dispersion_calls n plot))
    as (t & E4 & Ht).
  { destruct n_top_genes as [n|]; [|injection H4 as <-; exists []; by rewrite app_nil_r; auto].
    destruct (Z.ltb _ _); [|injection H4 as <-; exists []; by rewrite app_nil_r; auto].
    exists (dispersion_calls n plot). split; [|eauto].
    apply Prep_bind_Ok in H4 as ([] & sa & Ha & H4).
    apply Prep_bind_Ok in H4 as (a & sa' & [= <- <-] & H4).
    apply Prep_bind_Ok in H4 as (fr & sb & Hb & H4).
    apply Prep_bind_Ok in H4 as ([] & sc & Hc & Hd).
    apply inplace_Ok in Ha. apply pure_call_Ok in Hb. apply subset_var_calls in Hd.
    unfold dispersion_calls. rewrite Hd.
    destruct plot.
    - apply pure_call_Ok in Hc. rewrite Hc, Hb, Ha. by rewrite <- !app_assoc.
    - injection Hc as <-. rewrite Hb, Ha. by rewrite <- !app_assoc. }
  exists t. split; [|done].
  apply inplace_Ok in H5. unfold final_calls.
  destruct log.
  - apply inplace_Ok in H6. rewrite H6, H5, E4, E3, E2. by rewrite <- !app_assoc.
  - injection H6 as <-. rewrite H5, E4, E3, E2. by rewrite <- !app_assoc.
Qed.

(** X17.  The calls of a run of [filter_and_normalize] that returns, in
    order: [filter_genes] with [min_counts] and then with [min_cells], each
    if it is given; then either nothing, or, when [n_top_genes] is given,
    [normalize_per_cell], [filter_genes_dispersion] and its plot if [plot];
    then [normalize_per_cell]; then [log1p] if [log]. *)
Theorem filter_and_normalize_calls data min_counts min_counts_u min_cells min_cells_u
    n_top_genes log plot copy s x s' :
  filter_and_normalize imp data min_counts min_counts_u min_cells min_cells_u n_top_genes
    log plot copy s = (Ok x, s') ->
  exists t,
    calls s' = calls s ++ filter_calls min_counts min_cells ++ t ++ final_calls log /\
    (t = [] \/ exists n, n_top_genes = Some n /\ t = dispersion_calls n plot).
Proof.
  intros H. apply filter_and_normalize_inv in H as (r1 & Hon & Hr).
  destruct r1 as [[]|]; [|done].
  apply filter_and_normalize_on_calls in Hon as (t & Ht & Hcases).
  exists t. split; [|done]. by destruct copy.
Qed.

(** X18.  [recipe_velocity] never copies: it allocates nothing and changes
    the object [adata] alone, whether it returns or raises, and with
    [copy=True] what it returns is [adata] itself.  The calls of a run that
    returns are those of [filter_and_normalize] without [min_cells] and
    without plot, followed by [moments] with [n_neighbors] and [n_pcs]. *)
Theorem recipe_velocity_in_place adata min_counts min_counts_u n_top_genes n_pcs n_neighbors
    log copy s r s' :
  recipe_velocity imp adata min_counts min_counts_u n_top_genes n_pcs n_neighbors log copy s
  = (r, s') ->
  fresh s' = fresh s /\
  (forall l, l <> adata -> objects s' l = objects s l) /\
  forall x, r = Ok x ->
    x = (if copy then Some adata else None) /\
    exists t,
      calls s' = calls s ++ filter_calls min_counts None ++ t ++ final_calls log
                 ++ [c_moments n_neighbors n_pcs] /\
      (t = [] \/ exists n, n_top_genes = Some n /\ t = dispersion_calls n false).
Proof.
  unfold recipe_velocity. intros H.
  assert (works_on adata s s') as [[Hf Hoth] _].
  { apply Prep_bind_inv in H as [(y & s1 & H1 & H) | (e & H1 & _)];
      apply filter_and_normalize_inv in H1 as (r1 & Hon & _);
      apply filter_and_normalize_on_works in Hon; [|done].
    transitivity s1; [done|]. revert H. generalize s1 r s'.
    change (prep_steps (works_on adata)
              (inplace (c_moments n_neighbors n_pcs) (pp.moments imp n_neighbors n_pcs) adata
               ≫= fun _ => mret (if copy then Some adata else None))).
    prep_steps_tac. }
  split; [done|]. split; [done|].
  intros x ->.
  apply Prep_bind_Ok in H as (y & s1 & H1 & H).
  apply Prep_bind_Ok in H as ([] & s2 & H2 & [= <- <-]).
  split; [done|].
  apply filter_and_normalize_inv in H1 as (r1 & Hon & Hr).
  destruct r1 as [[]|]; [|done].
  apply filter_and_normalize_on_calls in Hon as (t & Ht & Hcases).
  apply inplace_Ok in H2. exists t. split; [|done].
  rewrite H2, Ht. cbn. by rewrite <- !app_assoc.
Qed.
End NormalizeFacts.

(** ** [filter_genes_u] *)

Lemma mask_select_map {A B : Type} (g : A -> B) (idx : list bool) (l : list A) :
  mask_select idx (map g l) = map g (mask_select idx l).
Proof.
  revert l. induction idx as [|b idx IH]; intros [|x l]; cbn; try done.
  destruct b; cbn; by rewrite IH.
Qed.

Section ColumnFacts.
Context {A : Type}.
Implicit Types (idx : list bool) (M : list (list A)).


Lemma columns_of_S n M :
  columns_of (S n) M = omap (fun row => row !! 0) M :: columns_of n (map tail M).
Proof.
  unfold columns_of. cbn [seq map]. f_equal.
  rewrite <- seq_shift, map_map. apply map_ext. intros j.
  induction M as [|row M IH]; [done|]. cbn. rewrite IH. by destruct row.
Qed.

Lemma columns_of_select idx M :
  Forall (fun row => length row = length idx) M ->
  columns_of (count_true idx) (map (mask_select idx) M)
  = mask_select idx (columns_of (length idx) M).
Proof.
  revert M. induction idx as [|b idx IH]; intros M HM; [done|].
  cbn [length]. rewrite columns_of_S.
  assert (Forall (fun row => length row = length idx) (map tail M)) as HT.
  { apply Forall_map. eapply Forall_impl; [exact HM|].
    intros [|x row] Hrow; cbn in *; [done|lia]. }
  specialize (IH _ HT).
  destruct b; cbn [count_true mask_select].
  - rewrite columns_of_S. f_equal.
    + clear IH HT. induction HM as [|row M Hrow _ IHM]; [done|].
      destruct row; [done|]. cbn. by rewrite IHM.
    + rewrite <- IH. f_equal. rewrite !map_map. apply map_ext_Forall.
      eapply Forall_impl; [exact HM|]. by intros [|x row] Hrow.
  - rewrite <- IH. f_equal. rewrite map_map. apply map_ext_Forall.
    eapply Forall_impl; [exact HM|]. by intros [|x row] Hrow.
Qed.

Lemma axis0_columns {B : Type} (f : list A -> B) M :
  axis0 f M = map f (columns_of (shape M).2 M).
Proof. unfold axis0, columns_of. by rewrite map_map. Qed.

Lemma axis0_select {B : Type} (f : list A -> B) idx M :
  Forall (fun row => length row = length idx) M ->
  axis0 f (map (mask_select idx) M) = mask_select idx (axis0 f M).
Proof.
  intros HM. destruct M as [|row M]; [by destruct idx|].
  rewrite !axis0_columns, mask_select_map. f_equal.
  apply Forall_cons in HM as HM'. destruct HM' as [Hrow _].
  assert ((shape (map (mask_select idx) (row :: M))).2 = count_true idx) as ->
    by (cbn; by rewrite length_mask_select).
  assert ((shape (row :: M)).2 = length idx) as -> by done.
  by rewrite columns_of_select.
Qed.

Lemma mask_select_self idx : mask_select idx idx = replicate (count_true idx) true.
Proof. induction idx as [|[] idx IH]; cbn; by rewrite ?IH. Qed.

Lemma mask_select_all (l : list A) : mask_select (replicate (length l) true) l = l.
Proof. induction l as [|x l IH]; cbn; by rewrite ?IH. Qed.
End ColumnFacts.

Section UnsplicedFacts.
Context {R U : Type} {K : Counts R}.
Implicit Types (s : Store R U).

Lemma mask_select_ones {A : Type} (l : list A) k :
  length l = k -> mask_select (replicate k true) l = l.
Proof. intros <-. apply mask_select_all. Qed.

(** after the genes are narrowed to a mask, every gene that is left passes
    the test the mask was computed by *)
Lemma unspliced_mask_select min_counts_u min_cells_u (u : Array2 R) mask :
  Forall (fun row => length row = length mask) (A_ u) ->
  unspliced_mask min_counts_u min_cells_u u = Ok mask ->
  unspliced_mask min_counts_u min_cells_u (array_cols mask u)
  = Ok (replicate (count_true mask) true).
Proof.
  intros Hrect. unfold unspliced_mask, array_cols. cbn [issparse A_].
  destruct min_counts_u as [c|].
  - intros Hm.
    assert (mask = map (fun x => fge x c) (axis0 fsum (A_ u))) as Hmask
      by (destruct (issparse u); by injection Hm).
    rewrite axis0_select by done.
    assert (forall b : bool, (if b then mask_select mask (axis0 fsum (A_ u))
                              else mask_select mask (axis0 fsum (A_ u)))
                             = mask_select mask (axis0 fsum (A_ u))) as -> by (by intros []).
    by rewrite <- mask_select_map, <- Hmask, mask_select_self.
  - destruct min_cells_u as [c|]; [|done]. intros Hm.
    assert (mask = map (fun n => Z.leb c (Z.of_nat n))
                     (axis0 count_true (map (map fgt_0) (A_ u)))) as Hmask
      by (destruct (issparse u); by injection Hm).
    assert (map (map fgt_0) (map (mask_select mask) (A_ u))
            = map (mask_select mask) (map (map fgt_0) (A_ u))) as ->.
    { rewrite !map_map. apply map_ext. intros row. by rewrite mask_select_map. }
    rewrite axis0_select
      by (apply Forall_map; eapply Forall_impl; [exact Hrect|];
          intros row Hrow; cbn; by rewrite length_map).
    assert (forall (b : bool) (x : list nat), (if b then x else x) = x) as -> by (by intros []).
    by rewrite <- mask_select_map, <- Hmask, mask_select_self.
Qed.

Lemma filter_genes_u_Ok adata min_counts_u min_cells_u s s' :
  filter_genes_u adata min_counts_u min_cells_u s = (Ok tt, s') ->
  exists u mask,
    layers (base (objects s adata)) !! "unspliced" = Some u /\
    unspliced_mask min_counts_u min_cells_u u = Ok mask /\
    length mask = length (var_names (base (objects s adata))) /\
    objects s' adata = take_cols_full mask (objects s adata) /\
    (forall l, l <> adata -> objects s' l = objects s l) /\
    fresh s' = fresh s /\ calls s' = calls s.
Proof.
  unfold filter_genes_u. intros H.
  apply Prep_bind_Ok in H as (a & s1 & [= <- <-] & H).
  apply Prep_bind_Ok in H as (u & s1 & [= Hu <-] & H).
  apply Prep_bind_Ok in H as (mask & s1 & [= Hm <-] & H).
  unfold subset_var in H.
  apply Prep_bind_Ok in H as (a & s1 & [= <- <-] & H).
  destruct (Nat.eqb_spec (length mask) (length (var_names (base (objects s adata)))))
    as [Hl|]; [|done].
  injection H as <-. cbn. rewrite Nat.eqb_refl.
  unfold get_layer in Hu.
  destruct (layers (base (objects s adata)) !! "unspliced") as [u'|]; [|done].
  injection Hu as ->.
  exists u, mask. repeat (split; [done|]). split; [|done].
  intros l Hl'. by destruct (Nat.eqb_spec l adata).
Qed.

(** X19.  After [filter_genes_u] has returned on a dataset whose layer
    ['unspliced'] has one column per gene, every gene that is left passes
    the threshold: a second run with the same thresholds returns and
    leaves the genes and the layer ['unspliced'] as they are. *)
Theorem filter_genes_u_idempotent adata min_counts_u min_cells_u s s1 u :
  layers (base (objects s adata)) !! "unspliced" = Some u ->
  Forall (fun row => length row = length (var_names (base (objects s adata)))) (A_ u) ->
  filter_genes_u adata min_counts_u min_cells_u s = (Ok tt, s1) ->
  exists s2,
    filter_genes_u adata min_counts_u min_cells_u s1 = (Ok tt, s2) /\
    var_names (base (objects s2 adata)) = var_names (base (objects s1 adata)) /\
    layers (base (objects s2 adata)) !! "unspliced"
    = layers (base (objects s1 adata)) !! "unspliced".
Proof.
  intros Hu Hrect H.
  apply filter_genes_u_Ok in H as (u' & mask & Hu' & Hm & Hl & Ho & _ & _ & _).
  rewrite Hu in Hu'. injection Hu' as <-. rewrite <- Hl in Hrect.
  pose proof (unspliced_mask_select _ _ _ _ Hrect Hm) as Hm'.
  assert (length (var_names (base (objects s1 adata))) = count_true mask) as Hl1.
  { rewrite Ho. cbn. by apply length_mask_select. }
  unfold filter_genes_u, subset_var, mbind, Prep_bind, get_object, prep_lift, get_layer.
  rewrite Ho. cbn [base take_cols_full take_cols layers var_names].
  rewrite lookup_fmap, Hu. cbn [fmap option_fmap option_map]. rewrite Hm'.
  rewrite length_replicate, length_mask_select, Nat.eqb_refl by done.
  eexists. split; [reflexivity|]. cbn. rewrite Nat.eqb_refl. cbn. split.
  - apply mask_select_ones. by apply length_mask_select.
  - rewrite !lookup_fmap, Hu. cbn. f_equal. unfold array_cols. cbn. f_equal.
    rewrite map_map. apply map_ext_Forall. eapply Forall_impl; [exact Hrect|].
    intros row Hrow. cbn. apply mask_select_ones. by apply length_mask_select.
Qed.
End UnsplicedFacts.

(** ** Thresholds that do not apply *)

Section ThresholdFacts.
Context {R U FR : Type} {K : Counts R} (imp : pp.Imports R U FR).
Implicit Types (s : Store R U).

(** X20.  Without [min_counts] and [min_cells]: on a dataset without the
    layer ['unspliced'] the thresholds [min_counts_u] and [min_cells_u] are
    not used, and nothing raises for the missing layer; and an
    [n_top_genes] that is not below the number of genes does the same as
    none. *)
Theorem thresholds_not_applicable (data : loc) (min_counts_u min_cells_u : option Z)
    (n : Z) (log plot copy : bool) s :
  (layers (base (objects s data)) !! "unspliced" = None ->
   forall n_top_genes,
     filter_and_normalize imp data None min_counts_u None min_cells_u n_top_genes log plot
       copy s
     = filter_and_normalize imp data None None None None n_top_genes log plot copy s) /\
  ((Z.of_nat (length (var_names (base (objects s data)))) <= n)%Z ->
   filter_and_normalize imp data None None None None (Some n) log plot copy s
   = filter_and_normalize imp data None None None None None log plot copy s).
Proof.
  split.
  - intros Hu n_top_genes.
    unfold filter_and_normalize, filter_and_normalize_on.
    destruct copy; unfold mbind, Prep_bind, mret, Prep_ret, copy_object, get_object;
      cbn [objects fresh calls]; rewrite ?Nat.eqb_refl; unfold has_key; rewrite Hu;
      by destruct min_counts_u, min_cells_u.
  - intros Hn.
    assert ((n <? Z.of_nat (length (var_names (base (objects s data)))))%Z = false) as Hlt
      by (apply Z.ltb_ge; lia).
    unfold filter_and_normalize, filter_and_normalize_on, adata_shape.
    destruct copy; unfold mbind, Prep_bind, mret, Prep_ret, copy_object, get_object;
      cbn [objects fresh calls snd]; rewrite ?Nat.eqb_refl;
      destruct (has_key _ _); cbn [objects fresh calls snd]; rewrite ?Nat.eqb_refl;
      by rewrite Hlt.
Qed.
End ThresholdFacts.

(** ** The further statements at work on the examples *)

Section FurtherWitnesses.
Import Rational Example Sample.

Lemma rational_solvers_per_gene : solvers_per_gene collaborators.
Proof.
  assert (forall (X Y : list (list Q)) fit_offset offset gamma,
            Rational.solve_cov X Y fit_offset = Ok (offset, gamma) ->
            length offset = (shape X).2) as Hcov.
  { intros X Y fit_offset offset gamma. unfold Rational.solve_cov.
    destruct (bool_decide_reflect (shape X = shape Y)) as [Hs|]; [|done].
    intros [= <- _]. rewrite length_map, length_zip_with. unfold columns.
    rewrite !length_map, !length_seq, Hs. lia. }
  split.
  - intros Ms Mu var_ss cov_us res_std res2_std fit_offset fit_offset2 o o2 g H.
    cbn in H. unfold Rational.solve2_inv in H.
    apply result_bind_Ok in H as ([offset gamma] & Hs & [= <- _ _]). by eapply Hcov.
  - intros Ms Mu Mus Mss fit_offset fit_offset2 o o2 g H.
    cbn in H. unfold Rational.solve2_mle in H.
    apply result_bind_Ok in H as ([offset gamma] & Hs & [= <- _ _]). by eapply Hcov.
Qed.

Lemma deterministic_fit_on_subset_witness :
  exists v' s',
    compute_deterministic collaborators false velo_subset (state_of smoothed) = (Ok v', s') /\
    Rational.solve_cov (mask_select [true; true; false] (_Ms velo_subset))
      (mask_select [true; true; false] (_Mu velo_subset)) false
    = Ok (_offset v', _gamma v').
Proof.
  assert (exists v' s', compute_deterministic collaborators false velo_subset
                          (state_of smoothed) = (Ok v', s')) as (v' & s' & Hrun)
    by (eexists _, _; vm_compute; reflexivity).
  destruct (deterministic_fit_on_subset collaborators false velo_subset (state_of smoothed)
              [true; true; false] eq_refl) as [_ H].
  destruct (H v' s' Hrun) as (_ & _ & Hs & _).
  exists v', s'. split; [exact Hrun|exact Hs].
Defined.

Lemma fitting_calls_by_mode_witness :
  exists t, trace stochastic_out.2 = t /\
            EvCall f_solve2_inv ∈ t /\ EvCall f_solve2_mle ∉ t.
Proof.
  assert (velocity collaborators 0 "velocity" (Some "stochastic") false false false GNone
            None None false false (state_of raw) = (Ok None, stochastic_out.2)) as Hrun
    by (vm_compute; reflexivity).
  pose proof (fitting_calls_by_mode collaborators 0 "velocity" (Some "stochastic") false
                false false GNone None None false false (state_of raw) None
                stochastic_out.2 Hrun) as (t & Ht & _ & Hmle & Hinv).
  exists t. split; [exact Ht|]. split.
  - apply Hinv. split; [reflexivity|discriminate].
  - intros Hin. apply Hmle in Hin. discriminate Hin.
Defined.

Lemma stochastic_stage_frame_witness :
  _r2 velo_sto = _r2 velo_det /\ _velocity_genes velo_sto = _velocity_genes velo_det.
Proof.
  assert (exists s', compute_stochastic collaborators false false (Some "stochastic")
                       velo_det (state_of smoothed) = (Ok velo_sto, s')) as [s' Hrun]
    by (eexists; vm_compute; reflexivity).
  assert (exists r0, _residual velo_det = Some r0) as [r0 Hr0] by (eexists; reflexivity).
  pose proof (stochastic_stage_frame collaborators false false (Some "stochastic") velo_det
                (state_of smoothed) velo_sto s' r0 Hr0 Hrun)
    as (_ & _ & _ & _ & Hr2 & Hg & _).
  split; [exact Hr2|exact Hg].
Defined.

Lemma stochastic_no_velocity_gene_witness :
  exists e,
    (compute_stochastic collaborators false false (Some "stochastic") velo_none
       (state_of smoothed)).1 = Raise e.
Proof.
  set (out := compute_stochastic collaborators false false (Some "stochastic") velo_none
                (state_of smoothed)).
  assert (out = (out.1, out.2)) as Hrun by (vm_compute; reflexivity).
  assert (exists r0, _residual velo_none = Some r0) as [r0 Hr0] by (eexists; reflexivity).
  assert (1 < 3) as Hn by lia.
  exact (stochastic_no_velocity_gene collaborators false false (Some "stochastic") velo_none
           (state_of smoothed) out.1 out.2 r0 3 rational_solvers_per_gene Hr0 eq_refl
           eq_refl Hn Hrun).
Defined.

Lemma velocity_layer_content_witness :
  exists velo residual2,
    _residual2 velo = Some residual2 /\
    layers (heap stochastic_out.2 0) !! "variance_velocity" = Some (dense residual2).
Proof.
  assert (exists ret velo,
            velocity_body collaborators 0 "velocity" (Some "stochastic") false false false
              GNone None None false false (state_of raw)
            = (Ok (ret, velo), stochastic_out.2)) as (ret & velo & Hrun)
    by (eexists _, _; vm_compute; reflexivity).
  pose proof (velocity_layer_content collaborators 0 "velocity" (Some "stochastic") false
                false false None None false false (state_of raw) ret velo stochastic_out.2
                Hrun) as [_ Hsto].
  destruct (Hsto eq_refl) as (_ & residual2 & H1 & H2).
  exists velo, residual2. split; [exact H1|exact H2].
Defined.

Lemma groups_rows_only_witness :
  exists L, layers (heap grouped_out.2 0) !! "velocity" = Some L /\
            A_ L !! 1 = Some [0%Q; 0%Q; 0%Q].
Proof.
  assert (exists ret velo,
            velocity_body collaborators 0 "velocity" None false false false (GList ["A"])
              None None false false (state_of smoothed)
            = (Ok (ret, velo), grouped_out.2)) as (ret & velo & Hrun)
    by (eexists _, _; vm_compute; reflexivity).
  assert (resolve_groups (GList ["A"]) None (heap (state_of smoothed) 0)
          = Ok (Some [true; false; true])) as Hg by (vm_compute; reflexivity).
  assert ("velocity" <> "Ms") as H1 by discriminate.
  assert ("velocity" <> "Mu") as H2 by discriminate.
  pose proof (groups_rows_only collaborators 0 "velocity" None false false (GList ["A"])
                None None false false (state_of smoothed) ret velo grouped_out.2
                [true; false; true] H1 H2 Hg Hrun)
    as [(residual & L & _ & HL & _ & _ & Hrows) _].
  exists L. split; [exact HL|].
  etransitivity; [exact (Hrows 1 eq_refl)|]. vm_compute. reflexivity.
Defined.

Lemma deterministic_gene_filter_witness :
  var_names (heap filtered_body_out.2 0) = ["g1"; "g3"].
Proof.
  assert (exists ret velo,
            velocity_body collaborators 0 "velocity" None false false true GNone None None
              false false (state_of with_variance) = (Ok (ret, velo), filtered_body_out.2)
            /\ _velocity_genes velo = [true; false; true]) as (ret & velo & Hrun & Hmask)
    by (eexists _, _; vm_compute; split; reflexivity).
  pose proof (deterministic_gene_filter collaborators 0 "velocity" None false false true
                GNone None None false false (state_of with_variance) ret velo
                filtered_body_out.2 eq_refl Hrun) as (_ & Hif & _).
  cbv zeta in Hif. rewrite Hmask in Hif. destruct Hif as [_ Hv].
  etransitivity; [exact Hv|]. vm_compute. reflexivity.
Defined.

Lemma rebuild_ignores_use_raw_witness :
  raw_stochastic_out.1 = Raise (KeyError "Ms").
Proof.
  assert (velocity collaborators 0 "velocity" (Some "stochastic") false false true GNone
            None None true false (state_of raw)
          = (raw_stochastic_out.1, raw_stochastic_out.2)) as Hrun
    by (vm_compute; reflexivity).
  assert (layers (heap (state_of raw) 0) !! "Ms" = None) as HMs by (vm_compute; reflexivity).
  pose proof (rebuild_ignores_use_raw collaborators 0 "velocity" (Some "stochastic") false
                false GNone None None false (state_of raw) raw_stochastic_out.1
                raw_stochastic_out.2 eq_refl HMs Hrun) as (t & Ht & Hm & _).
  apply Hm.
  assert (masks (trace raw_stochastic_out.2) <> []) as Hne by (vm_compute; discriminate).
  rewrite Ht in Hne. exact Hne.
Defined.

Lemma cleanup_copy_witness :
  exists s', cleanup_out true = (Ok (Some 1), s') /\ objects s' 0 = full smoothed.
Proof.
  assert (0 < fresh (store_of (full smoothed))) as Hlt by (vm_compute; lia).
  destruct (cleanup_copy 0 (NStr "layers") (NList ["spliced"; "unspliced"]) true
              (store_of (full smoothed)) Hlt) as (s' & Hrun & _ & _ & Hold).
  exists s'. split; [exact Hrun|]. exact (Hold 0 Hlt).
Defined.

Lemma cleanup_tables_witness :
  layers (base (objects (cleanup_out false).2 0)) !! "Ms" = None /\
  is_Some (layers (base (objects (cleanup_out false).2 0)) !! "spliced").
Proof.
  assert (cleanup 0 (NStr "layers") (NList ["spliced"; "unspliced"]) false
            (store_of (full smoothed)) = ((cleanup_out false).1, (cleanup_out false).2))
    as Hrun by (vm_compute; reflexivity).
  pose proof (cleanup_tables 0 (NStr "layers") (NList ["spliced"; "unspliced"]) false
                (store_of (full smoothed)) (cleanup_out false).1 (cleanup_out false).2 Hrun)
    as (_ & _ & _ & Hk).
  split.
  - destruct (Hk "Ms") as (_ & _ & _ & Hl). etransitivity; [exact Hl|].
    vm_compute. reflexivity.
  - destruct (Hk "spliced") as (_ & _ & _ & Hl). eapply eq_ind_r; [|exact Hl].
    vm_compute. eexists. reflexivity.
Defined.

Lemma cleanup_idempotent_witness :
  objects (cleanup 0 (NStr "layers") (NList ["spliced"; "unspliced"]) false
             (cleanup_out false).2).2 0
  = objects (cleanup_out false).2 0.
Proof.
  set (s1 := (cleanup_out false).2).
  set (out2 := cleanup 0 (NStr "layers") (NList ["spliced"; "unspliced"]) false s1).
  assert (cleanup 0 (NStr "layers") (NList ["spliced"; "unspliced"]) false
            (store_of (full smoothed)) = ((cleanup_out false).1, s1))
    as Hrun1 by (vm_compute; reflexivity).
  assert (out2 = (out2.1, out2.2)) as Hrun2 by apply surjective_pairing.
  pose proof (cleanup_idempotent 0 (NStr "layers") (NList ["spliced"; "unspliced"])
                (store_of (full smoothed)) (cleanup_out false).1 s1 out2.1 out2.2
                Hrun1 Hrun2) as [_ Hsame].
  exact (Hsame 0).
Defined.

Lemma filter_and_normalize_copy_witness :
  exists s', normalize_out None false true = (Ok (Some 1), s') /\
             objects s' 0 = full raw /\
             var_names (base (objects s' 1)) = ["g1"; "g3"].
Proof.
  assert (exists s', filter_and_normalize scanpy 0 (Some 3%Z) (Some 3%Z) None None None
                       true false true (store_of (full raw)) = (Ok (Some 1), s')
                     /\ var_names (base (objects s' 1)) = ["g1"; "g3"])
    as (s' & Hrun & Hnames) by (eexists; vm_compute; split; reflexivity).
  assert (0 < fresh (store_of (full raw))) as Hlt by (vm_compute; lia).
  pose proof (filter_and_normalize_copy scanpy 0 (Some 3%Z) (Some 3%Z) None None None true
                false true (store_of (full raw)) (Ok (Some 1)) s' Hlt Hrun)
    as (_ & Hold & _).
  exists s'. split; [exact Hrun|]. split; [exact (Hold 0 Hlt)|exact Hnames].
Defined.

Lemma filter_and_normalize_calls_witness :
  exists s' t,
    normalize_out (Some 1%Z) true false = (Ok None, s') /\
    calls s' = [c_filter_genes (Some 3%Z) None] ++ t ++ [c_normalize_per_cell; c_log1p] /\
    t = dispersion_calls 1 true.
Proof.
  assert (exists s', filter_and_normalize scanpy 0 (Some 3%Z) (Some 3%Z) None None
                       (Some 1%Z) true true false (store_of (full raw)) = (Ok None, s'))
    as (s' & Hrun) by (eexists; vm_compute; reflexivity).
  pose proof (filter_and_normalize_calls scanpy 0 (Some 3%Z) (Some 3%Z) None None
                (Some 1%Z) true true false (store_of (full raw)) None s' Hrun)
    as (t & Ht & Hcases).
  exists s', t. split; [exact Hrun|]. split; [exact Ht|].
  destruct Hcases as [Hnil|(n & Hn & Hdisp)].
  - exfalso. rewrite Hnil in Ht. revert Ht.
    assert (calls s' = [c_filter_genes (Some 3%Z) None; c_normalize_per_cell;
                        c_filter_genes_dispersion 1; c_plot_filter_genes_dispersion;
                        c_normalize_per_cell; c_log1p]) as ->
      by (vm_compute in Hrun; by injection Hrun as <-).
    discriminate.
  - injection Hn as <-. exact Hdisp.
Defined.

Lemma recipe_velocity_in_place_witness :
  exists s', recipe_out = (Ok (Some 0), s') /\ fresh s' = 1 /\
             last (calls s') = Some (c_moments 30 30).
Proof.
  assert (exists s', recipe_velocity scanpy 0 (Some 3%Z) (Some 3%Z) None 30 30 true true
                       (store_of (full raw)) = (Ok (Some 0), s')
                     /\ last (calls s') = Some (c_moments 30 30)) as (s' & Hrun & Hlast)
    by (eexists; vm_compute; split; reflexivity).
  pose proof (recipe_velocity_in_place scanpy 0 (Some 3%Z) (Some 3%Z) None 30 30 true true
                (store_of (full raw)) (Ok (Some 0)) s' Hrun) as (Hf & _ & _).
  exists s'. split; [exact Hrun|]. split; [exact Hf|exact Hlast].
Defined.

Lemma filter_genes_u_idempotent_witness :
  exists s1 s2,
    filter_genes_u 0 (Some 3%Z) None (store_of (full raw)) = (Ok tt, s1) /\
    filter_genes_u 0 (Some 3%Z) None s1 = (Ok tt, s2) /\
    var_names (base (objects s1 0)) = ["g1"; "g3"] /\
    var_names (base (objects s2 0)) = var_names (base (objects s1 0)).
Proof.
  assert (exists s1, filter_genes_u 0 (Some 3%Z) None (store_of (full raw)) = (Ok tt, s1)
                     /\ var_names (base (objects s1 0)) = ["g1"; "g3"])
    as (s1 & Hrun & Hnames) by (eexists; vm_compute; split; reflexivity).
  assert (layers (base (objects (store_of (full raw)) 0)) !! "unspliced"
          = Some (dense unspliced)) as Hu by (vm_compute; reflexivity).
  assert (Forall (fun row : list Q =>
                    length row = length (var_names (base (objects (store_of (full raw)) 0))))
            (A_ (dense unspliced))) as Hrect by (repeat constructor).
  destruct (filter_genes_u_idempotent 0 (Some 3%Z) None (store_of (full raw)) s1
              (dense unspliced) Hu Hrect Hrun) as (s2 & Hrun2 & Hv & _).
  exists s1, s2. split; [exact Hrun|]. split; [exact Hrun2|]. split; [exact Hnames|exact Hv].
Defined.
End FurtherWitnesses.
